(** * PoFight: the fighting engine and the diagnostics mask, embedded in Rocq

    The development follows the TypeScript sources
    [src/engine/Constants.ts], [src/engine/Fighter.ts] and
    [src/engine/FightManager.ts], and the C# helper [MaskValue] of the
    diagnostics endpoint.

    Conventions of the embedding.
    - A JavaScript [number] is an exact rational ([Q]); equalities that go
      through arithmetic are stated with [==].
    - A [Signal<T>] is its current value: [s.value = v] is a field update and
      [s.value] / [s.peek()] are field reads (subscribers only observe).
    - [performance.now()] is an argument of [update] (milliseconds).
    - [setTimeout] and the sound manager are effects returned by the
      functions that issue them; a timer is the guarded reversion
      "if the state is still [g] then the state becomes IDLE". *)

From Stdlib Require Import ZArith QArith Qminmax Qabs Lqa Lia.
From Stdlib Require Import Bool List String Ascii Arith.
From stdpp Require gmap strings.
Import ListNotations.

Local Open Scope Q_scope.

(** * Part I: the program *)

(** ** Constants.ts *)

Module Constants.

Definition GAME_WIDTH : Q := 1920.
Definition GAME_HEIGHT : Q := 1080.
Definition GROUND_Y : Q := 900.

Definition FIGHTER_WIDTH : Q := 100.
Definition FIGHTER_HEIGHT : Q := 200.
Definition MOVE_SPEED : Q := 400.

Definition MAX_CHARGE_TIME : Q := 1.
Definition OVERHEAT_TIME : Q := 2.

Record FrameData := mkFrameData { damage : Q; duration : Q; recovery : Q }.

Definition JAB : FrameData := mkFrameData 5 (2 # 10) (1 # 10).
Definition HEAVY_PUNCH : FrameData := mkFrameData 20 (4 # 10) (3 # 10).
Definition KICK_FLICK : FrameData := mkFrameData 7 (25 # 100) (15 # 100).
Definition HEAVY_KICK : FrameData := mkFrameData 25 (5 # 10) (4 # 10).

End Constants.
Import Constants.

(** ** Comparisons on numbers, as booleans *)

Definition Qlt_bool (a b : Q) : bool := negb (Qle_bool b a).

(** ** Fighter.ts: the data *)

Inductive FighterState : Set :=
| IDLE | MOVING | CHARGING | ATTACKING
| BLOCKING_HIGH | BLOCKING_LOW | STUNNED | OVERHEATED.

Inductive AttackType : Set := PUNCH | KICK | NONE.

Inductive AttackHeight : Set := HIGH | MID | LOW.

Definition FighterState_eqb (a b : FighterState) : bool :=
  match a, b with
  | IDLE, IDLE | MOVING, MOVING | CHARGING, CHARGING | ATTACKING, ATTACKING
  | BLOCKING_HIGH, BLOCKING_HIGH | BLOCKING_LOW, BLOCKING_LOW
  | STUNNED, STUNNED | OVERHEATED, OVERHEATED => true
  | _, _ => false
  end.

Definition AttackHeight_eqb (a b : AttackHeight) : bool :=
  match a, b with
  | HIGH, HIGH | MID, MID | LOW, LOW => true
  | _, _ => false
  end.

(** [Array.prototype.includes] on a literal array of states. *)
Definition includes (l : list FighterState) (s : FighterState) : bool :=
  existsb (FighterState_eqb s) l.

(** The input object [{ x, y, punchHeld, kickHeld }]. *)
Module Input.
Record t := mk { x : Q; y : Q; punchHeld : bool; kickHeld : bool }.
End Input.

Record Fighter := mkFighter {
  id : string;
  x : Q;
  y : Q;
  state : FighterState;
  health : Q;
  chargeLevel : Q;
  attackType : AttackType;
  attackHeight : AttackHeight;
  facingRight : bool;
  chargeStartTime : Q
}.

(** [new Fighter(id, startX)] *)
Definition newFighter (id0 : string) (startX : Q) : Fighter :=
  mkFighter id0 startX GROUND_Y IDLE 100 0 NONE MID true 0.

(** Field assignments. *)
Definition set_x (v : Q) (f : Fighter) : Fighter :=
  mkFighter (id f) v (y f) (state f) (health f) (chargeLevel f)
            (attackType f) (attackHeight f) (facingRight f) (chargeStartTime f).
Definition set_state (v : FighterState) (f : Fighter) : Fighter :=
  mkFighter (id f) (x f) (y f) v (health f) (chargeLevel f)
            (attackType f) (attackHeight f) (facingRight f) (chargeStartTime f).
Definition set_health (v : Q) (f : Fighter) : Fighter :=
  mkFighter (id f) (x f) (y f) (state f) v (chargeLevel f)
            (attackType f) (attackHeight f) (facingRight f) (chargeStartTime f).
Definition set_chargeLevel (v : Q) (f : Fighter) : Fighter :=
  mkFighter (id f) (x f) (y f) (state f) (health f) v
            (attackType f) (attackHeight f) (facingRight f) (chargeStartTime f).
Definition set_attackType (v : AttackType) (f : Fighter) : Fighter :=
  mkFighter (id f) (x f) (y f) (state f) (health f) (chargeLevel f)
            v (attackHeight f) (facingRight f) (chargeStartTime f).
Definition set_attackHeight (v : AttackHeight) (f : Fighter) : Fighter :=
  mkFighter (id f) (x f) (y f) (state f) (health f) (chargeLevel f)
            (attackType f) v (facingRight f) (chargeStartTime f).
Definition set_facingRight (v : bool) (f : Fighter) : Fighter :=
  mkFighter (id f) (x f) (y f) (state f) (health f) (chargeLevel f)
            (attackType f) (attackHeight f) v (chargeStartTime f).
Definition set_chargeStartTime (v : Q) (f : Fighter) : Fighter :=
  mkFighter (id f) (x f) (y f) (state f) (health f) (chargeLevel f)
            (attackType f) (attackHeight f) (facingRight f) v.

(** ** Effects issued by the engine *)

Inductive PunchSound : Set := SOUND_HEAVY | SOUND_JAB.

(** [SetTimeout delay g]: after [delay] milliseconds, "if the state of the
    fighter is [g], it becomes IDLE". [PlayPunch s]: the call
    [soundManager.playPunch(s)]. *)
Inductive Effect : Type :=
| SetTimeout (delayMs : Q) (guard : FighterState)
| PlayPunch (s : PunchSound).

(** The body of every timer callback of the engine. *)
Definition fireTimeout (guard : FighterState) (f : Fighter) : Fighter :=
  if FighterState_eqb (state f) guard then set_state IDLE f else f.

(** ** Fighter.ts: executeAttack and update *)

Definition isMaxCharge (chargeDuration : Q) : bool :=
  Qle_bool MAX_CHARGE_TIME chargeDuration && Qlt_bool chargeDuration OVERHEAT_TIME.

Definition executeAttack (chargeDuration : Q) (f : Fighter) : Fighter * list Effect :=
  (set_state ATTACKING f,
   [PlayPunch (if isMaxCharge chargeDuration then SOUND_HEAVY else SOUND_JAB);
    SetTimeout 300 ATTACKING]).

Definition isBlockingState (s : FighterState) : bool :=
  FighterState_eqb s BLOCKING_HIGH || FighterState_eqb s BLOCKING_LOW.

(** The "Blocking Logic" block of [update]. *)
Definition blockingLogic (currentState : FighterState) (input : Input.t)
           (f : Fighter) : Fighter :=
  if includes [IDLE; MOVING; BLOCKING_HIGH; BLOCKING_LOW] currentState then
    if Qlt_bool (1 # 2) (Input.y input) then set_state BLOCKING_HIGH f
    else if Qlt_bool (Input.y input) (- (1 # 2)) then set_state BLOCKING_LOW f
    else if isBlockingState currentState then set_state IDLE f
    else f
  else f.

(** The "Movement" block of [update]. *)
Definition movementLogic (currentState : FighterState) (isBlocking : bool)
           (dt : Q) (input : Input.t) (f : Fighter) : Fighter :=
  if includes [IDLE; MOVING] currentState && negb isBlocking then
    if negb (Qeq_bool (Input.x input) 0) then
      set_facingRight (Qlt_bool 0 (Input.x input))
        (set_x (x f + Input.x input * MOVE_SPEED * dt) (set_state MOVING f))
    else if FighterState_eqb currentState MOVING then set_state IDLE f
    else f
  else f.

(** The release modifier, read from [input.y] at release time. *)
Definition releaseModifier (input : Input.t) : AttackHeight :=
  let modifier := MID in
  let modifier := if Qlt_bool (1 # 2) (Input.y input) then HIGH else modifier in
  let modifier := if Qlt_bool (Input.y input) (- (1 # 2)) then LOW else modifier in
  modifier.

(** [update(dt, input)], with [perfNow] the value of [performance.now()]
    read during the call (each path reads the clock at most once). *)
Definition update (perfNow dt : Q) (input : Input.t) (f : Fighter)
  : Fighter * list Effect :=
  let currentState := state f in
  let f := blockingLogic currentState input f in
  let isBlocking := isBlockingState (state f) in
  let f := movementLogic currentState isBlocking dt input f in
  if Input.punchHeld input || Input.kickHeld input then
    (* Start charging if possible *)
    let f :=
      if negb (includes [CHARGING; OVERHEATED; ATTACKING] currentState)
         && negb isBlocking
      then
        set_attackType (if Input.punchHeld input then PUNCH else KICK)
          (set_chargeLevel 0
             (set_chargeStartTime (perfNow / 1000) (set_state CHARGING f)))
      else f in
    (* Continue charging *)
    if FighterState_eqb currentState CHARGING then
      let duration := perfNow / 1000 - chargeStartTime f in
      let f := set_chargeLevel (Qmin (duration / MAX_CHARGE_TIME) 1) f in
      if Qlt_bool OVERHEAT_TIME duration then
        (set_chargeLevel 0 (set_state OVERHEATED f), [SetTimeout 1000 OVERHEATED])
      else (f, [])
    else (f, [])
  else
    (* Release logic *)
    if FighterState_eqb currentState CHARGING then
      let duration := perfNow / 1000 - chargeStartTime f in
      let f := set_attackHeight (releaseModifier input) f in
      let '(f, effects) := executeAttack duration f in
      (set_chargeLevel 0 f, effects)
    else (f, []).

(** ** FightManager.ts: hit detection *)

Definition chipDamage : Q := 2.

Definition attackRange : Q := FIGHTER_WIDTH * (3 # 2).

(** The damage tier selected from the attack type and the charge level the
    orchestrator reads on the attacker. *)
Definition baseDamage (ty : AttackType) (charge : Q) : Q :=
  match ty with
  | PUNCH => if Qle_bool (9 # 10) charge then damage HEAVY_PUNCH else damage JAB
  | KICK => if Qle_bool (9 # 10) charge then damage HEAVY_KICK else damage KICK_FLICK
  | NONE => 0
  end.

Definition isBlockedHigh (attacker defender : Fighter) : bool :=
  FighterState_eqb (state defender) BLOCKING_HIGH
  && AttackHeight_eqb (attackHeight attacker) HIGH.

Definition isBlockedLow (attacker defender : Fighter) : bool :=
  FighterState_eqb (state defender) BLOCKING_LOW
  && AttackHeight_eqb (attackHeight attacker) LOW.

Definition isBlockedMid (attacker defender : Fighter) : bool :=
  (FighterState_eqb (state defender) BLOCKING_HIGH
   || FighterState_eqb (state defender) BLOCKING_LOW)
  && AttackHeight_eqb (attackHeight attacker) MID.

(** [checkHitForAttacker(attacker, defender)]: the new attacker, the new
    defender, and the effects (the stun-recovery timer belongs to the
    defender). *)
Definition checkHitForAttacker (attacker defender : Fighter)
  : Fighter * Fighter * list Effect :=
  if negb (FighterState_eqb (state attacker) ATTACKING) then (attacker, defender, [])
  else
    let distance := Qabs (x attacker - x defender) in
    if Qlt_bool attackRange distance then (attacker, defender, [])
    else if isBlockedHigh attacker defender || isBlockedLow attacker defender then
      (attacker, defender, [])
    else if isBlockedMid attacker defender then
      (attacker,
       set_health (Qmax 0 (health defender - chipDamage)) defender,
       [])
    else
      let dmg := baseDamage (attackType attacker) (chargeLevel attacker) in
      let defender := set_health (Qmax 0 (health defender - dmg)) defender in
      let defender := set_state STUNNED defender in
      let attacker := set_state IDLE attacker in
      let attacker := set_attackType NONE attacker in
      (attacker, defender, [SetTimeout 300 STUNNED]).

(** ** FightManager.ts: the match *)

(** The guards of the timers of an effect list (the pending reversions). *)
Fixpoint timersOf (es : list Effect) : list FighterState :=
  match es with
  | [] => []
  | SetTimeout _ g :: es' => g :: timersOf es'
  | PlayPunch _ :: es' => timersOf es'
  end.

(** The two fighters of a [FightManager], with the timers that are pending
    on each of them. *)
Record Match := mkMatch {
  player : Fighter;
  cpu : Fighter;
  playerTimers : list FighterState;
  cpuTimers : list FighterState
}.

(** The constructor of [FightManager]. *)
Definition newMatch : Match :=
  mkMatch (set_facingRight true (newFighter "player" 400))
          (set_facingRight false (newFighter "cpu" 1200))
          [] [].

Definition updatePlayer (perfNow dt : Q) (input : Input.t) (m : Match) : Match :=
  let '(p, es) := update perfNow dt input (player m) in
  mkMatch p (cpu m) (playerTimers m ++ timersOf es) (cpuTimers m).

Definition updateCpu (perfNow dt : Q) (input : Input.t) (m : Match) : Match :=
  let '(c, es) := update perfNow dt input (cpu m) in
  mkMatch (player m) c (playerTimers m) (cpuTimers m ++ timersOf es).

(** [checkHitForAttacker(this.player, this.cpu)] *)
Definition hitByPlayer (m : Match) : Match :=
  let '(p, c, es) := checkHitForAttacker (player m) (cpu m) in
  mkMatch p c (playerTimers m) (cpuTimers m ++ timersOf es).

(** [checkHitForAttacker(this.cpu, this.player)] *)
Definition hitByCpu (m : Match) : Match :=
  let '(c, p, es) := checkHitForAttacker (cpu m) (player m) in
  mkMatch p c (playerTimers m ++ timersOf es) (cpuTimers m).

Definition checkHits (m : Match) : Match := hitByCpu (hitByPlayer m).

(** Removing the [n]-th pending timer. *)
Fixpoint removeNth {A : Type} (n : nat) (l : list A) : list A :=
  match n, l with
  | _, [] => []
  | O, _ :: l' => l'
  | S n', a :: l' => a :: removeNth n' l'
  end.

(** The host fires the [n]-th pending timer of a fighter. *)
Definition firePlayerTimer (n : nat) (m : Match) : Match :=
  match nth_error (playerTimers m) n with
  | Some g => mkMatch (fireTimeout g (player m)) (cpu m)
                      (removeNth n (playerTimers m)) (cpuTimers m)
  | None => m
  end.

Definition fireCpuTimer (n : nat) (m : Match) : Match :=
  match nth_error (cpuTimers m) n with
  | Some g => mkMatch (player m) (fireTimeout g (cpu m))
                      (playerTimers m) (removeNth n (cpuTimers m))
  | None => m
  end.

(** What the win check of [FightManager.update] invokes. *)
Inductive Outcome : Set := HandleWin | HandleLoss | NoOutcome.

Definition winCondition (m : Match) : Outcome :=
  if Qle_bool (health (cpu m)) 0 then HandleWin
  else if Qle_bool (health (player m)) 0 then HandleLoss
  else NoOutcome.

(** The steps a match is made of. *)
Inductive Event : Type :=
| EvUpdatePlayer (perfNow dt : Q) (input : Input.t)
| EvUpdateCpu (perfNow dt : Q) (input : Input.t)
| EvHitByPlayer
| EvHitByCpu
| EvPlayerTimer (n : nat)
| EvCpuTimer (n : nat).

Definition applyEvent (e : Event) (m : Match) : Match :=
  match e with
  | EvUpdatePlayer perfNow dt input => updatePlayer perfNow dt input m
  | EvUpdateCpu perfNow dt input => updateCpu perfNow dt input m
  | EvHitByPlayer => hitByPlayer m
  | EvHitByCpu => hitByCpu m
  | EvPlayerTimer n => firePlayerTimer n m
  | EvCpuTimer n => fireCpuTimer n m
  end.

Definition runEvents (es : list Event) (m : Match) : Match :=
  fold_left (fun m e => applyEvent e m) es m.

(** A match state is reachable when a sequence of steps leads to it from
    the constructor. *)
Definition reachable (m : Match) : Prop :=
  exists es : list Event, m = runEvents es newMatch.

(** One iteration of the game loop: the clock readings, [dt] and the inputs
    of both fighters. *)
Record Tick := mkTick {
  nowP : Q; nowC : Q; dtT : Q; playerInput : Input.t; cpuInput : Input.t
}.

(** [FightManager.update(dt)]. [Collision.ts] is not among the sources: the
    overlap test and the push-apart correction are parameters. The inputs
    of the two fighters come from the input manager and from the AI
    controller (which draws random numbers), so they are arguments, as are
    the two clock readings. *)
Section FightManagerUpdate.

Variable checkCollision : Fighter -> Fighter -> bool.
Variable resolvePushCollision : Fighter -> Fighter -> Fighter * Fighter.

Definition collide (m : Match) : Match :=
  if checkCollision (player m) (cpu m) then
    let '(p, c) := resolvePushCollision (player m) (cpu m) in
    mkMatch p c (playerTimers m) (cpuTimers m)
  else m.

(** Steps 2 to 4 of [update]: both fighters, collision, hit detection. *)
Definition simulate (nowP nowC dt : Q) (playerInput cpuInput : Input.t)
           (m : Match) : Match :=
  let m := updatePlayer nowP dt playerInput m in
  let m := updateCpu nowC dt cpuInput m in
  let m := collide m in
  checkHits m.

Definition fmUpdate (nowP nowC dt : Q) (playerInput cpuInput : Input.t)
           (m : Match) : Match * Outcome :=
  let m := simulate nowP nowC dt playerInput cpuInput m in
  (m, winCondition m).

(** One iteration of the game loop, and a run of them. *)
Definition tick (t : Tick) (m : Match) : Match :=
  simulate (nowP t) (nowC t) (dtT t) (playerInput t) (cpuInput t) m.

Definition runTicks (ts : list Tick) (m : Match) : Match :=
  fold_left (fun m t => tick t m) ts m.

End FightManagerUpdate.

(** Modelled from the spec: [checkCollision] of [Collision.ts], which is
    missing from the sources. "checkCollision(a,b): true iff
    |a.x - b.x| < REACH where REACH is a fixed body-width constant." *)
Definition checkCollisionSpec (a b : Fighter) : bool :=
  Qlt_bool (Qabs (x a - x b)) FIGHTER_WIDTH.

(** Modelled from the spec: [resolvePushCollision] of [Collision.ts], which
    is missing from the sources. "On overlap, displaces both fighters
    symmetrically along the horizontal axis so their separation equals
    REACH, preserving left/right ordering (whichever fighter had the smaller
    x stays left of the other after resolution)." Each fighter moves by half
    of the overlap; at equal positions the first one goes right. The two
    functions serve to show that what is assumed of the push-apart
    correction can be met. *)
Definition resolvePushCollisionSpec (a b : Fighter) : Fighter * Fighter :=
  let overlap := FIGHTER_WIDTH - Qabs (x a - x b) in
  if Qlt_bool (x a) (x b) then
    (set_x (x a - overlap * (1 # 2)) a, set_x (x b + overlap * (1 # 2)) b)
  else
    (set_x (x a + overlap * (1 # 2)) a, set_x (x b - overlap * (1 # 2)) b).

(** ** Sequences of [update] calls on one fighter *)

(** One call of [update]: the clock reading (ms), [dt] and the input. *)
Record Call := mkCall { perfNow : Q; dtOf : Q; inputOf : Input.t }.

Definition call (c : Call) (f : Fighter) : Fighter :=
  fst (update (perfNow c) (dtOf c) (inputOf c) f).

Definition runUpdates (calls : list Call) (f : Fighter) : Fighter :=
  fold_left (fun f c => call c f) calls f.

Definition held (input : Input.t) : bool :=
  Input.punchHeld input || Input.kickHeld input.

(** The condition under which a call with a held button starts a charge,
    as [update] tests it: the state at entry is none of CHARGING,
    OVERHEATED, ATTACKING, and the fighter is not blocking once the blocking
    logic of the call has run. *)
Definition chargeStarts (f : Fighter) (input : Input.t) : bool :=
  held input
  && negb (includes [CHARGING; OVERHEATED; ATTACKING] (state f))
  && negb (isBlockingState (state (blockingLogic (state f) input f))).

Definition clamp (v lo hi : Q) : Q := Qmax lo (Qmin v hi).

(** ** The mask of the diagnostics endpoint ([MaskValue], C#) *)

Module Diagnostics.

Local Open Scope string_scope.
Local Open Scope nat_scope.

(** [new string(c, n)] *)
Fixpoint newString (c : ascii) (n : nat) : string :=
  match n with
  | O => EmptyString
  | S n' => String c (newString c n')
  end.

(** [string.IsNullOrEmpty]; a [string?] is an [option string]. *)
Definition IsNullOrEmpty (value : option string) : bool :=
  match value with
  | None => true
  | Some v => String.length v =? 0
  end.

(** [value.Length <= 6], evaluated only when [value] is not null. *)
Definition lengthAtMost6 (value : option string) : bool :=
  match value with
  | None => false
  | Some v => String.length v <=? 6
  end.

Definition MaskValue (value : option string) : option string :=
  if IsNullOrEmpty value || lengthAtMost6 value then
    match value with
    | None => None
    | Some _ => Some "***"
    end
  else
    match value with
    | None => None
    | Some v =>
        let visible := 3 in
        Some (substring 0 visible v
              ++ newString "*" (String.length v - visible * 2)
              ++ substring (String.length v - visible) visible v)
    end.

(** The masked form of a value of more than six characters. *)
Definition masked (v : string) : string :=
  substring 0 3 v ++ newString "*" (String.length v - 6)
  ++ substring (String.length v - 3) 3 v.

End Diagnostics.
Import Diagnostics.

(** * Part II: the vocabulary of the statements *)

(** ** Inputs and scenarios of the unit tests *)

Definition holdPunch : Input.t := Input.mk 0 0 true false.
Definition holdKick : Input.t := Input.mk 0 0 false true.
Definition neutral : Input.t := Input.mk 0 0 false false.
Definition pressUp : Input.t := Input.mk 0 1 false false.
Definition pressDown : Input.t := Input.mk 0 (-1) false false.

Definition dt60 : Q := 16 # 1000.

(** The fighter after a list of [update] calls (clock reading and input of
    each), effects dropped. *)
Definition updates (steps : list (Q * Input.t)) (f : Fighter) : Fighter :=
  fold_left (fun f s => fst (update (fst s) dt60 (snd s) f)) steps f.

(** The scenario of the spec: the attacker at x=400 charges a punch for one
    second and releases with neutral y, the defender stands idle at x=450. *)
Definition fullyCharged : Fighter :=
  updates [(0, holdPunch); (1000, holdPunch)] (newFighter "player" 400).

Definition releasedFull : Fighter := fst (update 1000 dt60 neutral fullyCharged).

(** ** Hit detection *)

(** The two block situations, in the words of the spec. *)
Definition heightMatchedBlock (attacker defender : Fighter) : Prop :=
  (state defender = BLOCKING_HIGH /\ attackHeight attacker = HIGH) \/
  (state defender = BLOCKING_LOW /\ attackHeight attacker = LOW).

Definition midAgainstBlock (attacker defender : Fighter) : Prop :=
  (state defender = BLOCKING_HIGH \/ state defender = BLOCKING_LOW) /\
  attackHeight attacker = MID.

(** The attacker after an unblocked or mismatched hit. *)
Definition resetAttacker (attacker : Fighter) : Fighter :=
  set_attackType NONE (set_state IDLE attacker).

(** The defender after chip damage. *)
Definition chip (d : Fighter) : Fighter :=
  set_health (Qmax 0 (health d - chipDamage)) d.

(** The defender keeps a block input: up or down beyond the threshold. *)
Definition holdsBlock (input : Input.t) : bool :=
  Qlt_bool (1 # 2) (Input.y input) || Qlt_bool (Input.y input) (- (1 # 2)).

(** ** One fighter on its own *)

(** The fighters after each call of a sequence. *)
Fixpoint trace (calls : list Call) (f : Fighter) : list Fighter :=
  match calls with
  | [] => []
  | c :: calls' => call c f :: trace calls' (call c f)
  end.

(** ** The match *)

Definition healthInRange (f : Fighter) : Prop :=
  0 <= health f /\ health f <= 100.

Definition matchHealthInRange (m : Match) : Prop :=
  healthInRange (player m) /\ healthInRange (cpu m).

Inductive Side : Set := PlayerSide | CpuSide.

Definition attackerOf (s : Side) (m : Match) : Fighter :=
  match s with PlayerSide => player m | CpuSide => cpu m end.

Definition defenderOf (s : Side) (m : Match) : Fighter :=
  match s with PlayerSide => cpu m | CpuSide => player m end.

Definition defenderInput (s : Side) (t : Tick) : Input.t :=
  match s with PlayerSide => cpuInput t | CpuSide => playerInput t end.

(** A MID attack in progress against a blocking defender in range. *)
Definition chipSituation (s : Side) (m : Match) : Prop :=
  state (attackerOf s m) = ATTACKING /\
  attackHeight (attackerOf s m) = MID /\
  isBlockingState (state (defenderOf s m)) = true /\
  Qabs (x (attackerOf s m) - x (defenderOf s m)) <= attackRange.

(** What a tick may change on the two fighters besides the health of the
    defender: positions, and which of the two blocks the defender holds. *)
Definition sameAttack (a a' : Fighter) : Prop :=
  state a' = state a /\ attackType a' = attackType a /\
  attackHeight a' = attackHeight a /\ chargeLevel a' = chargeLevel a /\
  health a' = health a.

(** * Part II (continued): the rest of the engine *)

(** ** AIController.ts *)

(** The fields of the controller that [getInput] reads; [me] and [opponent]
    are references to the two fighters, whose current values are arguments
    of [getInput]. *)
Record AIController := mkAIController {
  mistakeRate : Q;
  aggression : Q;
  nextActionTime : Q
}.

(** [new AIController(me, opponent, level)] *)
Definition newAIController (level : Q) : AIController :=
  mkAIController (Qmax 0 ((1 # 2) - level * (1 # 10))) (level * (2 # 10)) 0.

(** [getInput()]. [random k] is the value of the [k]-th call of
    [Math.random()]; the function returns the input and the index of the
    next draw. *)
Definition getInput (ai : AIController) (me opponent : Fighter)
           (random : nat -> Q) (k : nat) : Input.t * nat :=
  let dist := Qabs (x me - x opponent) in
  let opponentAttacking :=
    FighterState_eqb (state opponent) ATTACKING
    || Qlt_bool (1 # 2) (chargeLevel opponent) in
  (* Defensive Logic *)
  if opponentAttacking && Qlt_bool (mistakeRate ai) (random k) then
    let guessHigh := Qlt_bool (1 # 2) (random (S k)) in
    (Input.mk 0 (if guessHigh then 1 else -1) false false, S (S k))
  else
    let k := if opponentAttacking then S k else k in
    (* Offensive Logic *)
    if Qlt_bool 150 dist then
      (Input.mk (if Qlt_bool (x me) (x opponent) then 1 else -1) 0 false false, k)
    else if Qlt_bool (random k) (aggression ai * (1 # 10)) then
      (Input.mk 0 0 true false, S k)
    else (Input.mk 0 0 false false, S k).

(** ** The match, with the positions written by the collision step *)

(** A step of a match: one of the steps above, or the push-apart correction,
    of which only this is used: it writes the two positions. *)
Inductive Step : Type :=
| StEvent (e : Event)
| StPush (xPlayer xCpu : Q).

Definition applyStep (s : Step) (m : Match) : Match :=
  match s with
  | StEvent e => applyEvent e m
  | StPush xPlayer xCpu =>
      mkMatch (set_x xPlayer (player m)) (set_x xCpu (cpu m))
              (playerTimers m) (cpuTimers m)
  end.

Definition runSteps (ss : list Step) (m : Match) : Match :=
  fold_left (fun m s => applyStep s m) ss m.

(** The clock readings of the [update] calls of each fighter never go back:
    [tp] and [tc] are the last readings of the player and of the cpu. *)
Fixpoint clocksFrom (tp tc : Q) (ss : list Step) : Prop :=
  match ss with
  | [] => True
  | StEvent (EvUpdatePlayer now _ _) :: ss' => tp <= now /\ clocksFrom now tc ss'
  | StEvent (EvUpdateCpu now _ _) :: ss' => tc <= now /\ clocksFrom tp now ss'
  | _ :: ss' => clocksFrom tp tc ss'
  end.

(** The states a timer takes a fighter out of. *)
Definition isTimedState (s : FighterState) : bool :=
  includes [ATTACKING; OVERHEATED; STUNNED] s.

(** A call that only walks: no block input, no button. *)
Definition walks (c : Call) : bool :=
  negb (holdsBlock (inputOf c)) && negb (held (inputOf c)).

(** ** Invariants of a fighter in a match *)

(** An attack in progress carries no charge and has a type. *)
Definition attackInv (f : Fighter) : Prop :=
  (state f = ATTACKING -> chargeLevel f = 0) /\
  (state f = ATTACKING \/ state f = CHARGING -> attackType f <> NONE).

(** The charge level is in [0,1] and the charge did not start after the
    last clock reading [tlast] (ms). *)
Definition levelInv (tlast : Q) (f : Fighter) : Prop :=
  0 <= chargeLevel f /\ chargeLevel f <= 1 /\ chargeStartTime f <= tlast / 1000.

(** A fighter in a timed state has a pending timer for that state. *)
Definition timerInv (f : Fighter) (timers : list FighterState) : Prop :=
  isTimedState (state f) = true -> In (state f) timers.

(** What a hit-detection call does to its attacker and to its defender
    ([ts] are the timers it adds for the defender). *)
Definition attackerResult (a a' : Fighter) : Prop :=
  a' = a \/ (state a = ATTACKING /\ a' = resetAttacker a).

Definition defenderResult (a d d' : Fighter) (ts : list FighterState) : Prop :=
  (d' = d /\ ts = [])
  \/ (state a = ATTACKING /\ isBlockingState (state d) = true /\
      d' = chip d /\ ts = [])
  \/ (state a = ATTACKING /\
      d' = set_state STUNNED
             (set_health
                (Qmax 0 (health d - baseDamage (attackType a) (chargeLevel a))) d) /\
      ts = [STUNNED]).

(** The invariants of the two fighters of a match. *)
Definition matchInv (m : Match) : Prop :=
  attackInv (player m) /\ attackInv (cpu m) /\
  timerInv (player m) (playerTimers m) /\ timerInv (cpu m) (cpuTimers m).

(** What holds of a match driven by the AI: the invariants above, a cpu
    that has no kick under way, and healths that are not negative. *)
Definition gameInv (m : Match) : Prop :=
  matchInv m /\ attackType (cpu m) <> KICK /\
  0 <= health (player m) /\ 0 <= health (cpu m).

(** The assumption on the push-apart correction: it writes positions only. *)
Definition writesPositionsOnly
           (checkCollision : Fighter -> Fighter -> bool)
           (resolvePushCollision : Fighter -> Fighter -> Fighter * Fighter) : Prop :=
  forall a b, checkCollision a b = true ->
    fst (resolvePushCollision a b) = set_x (x (fst (resolvePushCollision a b))) a /\
    snd (resolvePushCollision a b) = set_x (x (snd (resolvePushCollision a b))) b.

(** ** FightManager.update with the AI controller *)

(** The host fires a pending timer of one of the two fighters. *)
Inductive TimerFiring : Type :=
| FirePlayer (n : nat)
| FireCpu (n : nat).

Definition fire (t : TimerFiring) (m : Match) : Match :=
  match t with
  | FirePlayer n => firePlayerTimer n m
  | FireCpu n => fireCpuTimer n m
  end.

Definition fireAll (ts : list TimerFiring) (m : Match) : Match :=
  fold_left (fun m t => fire t m) ts m.

(** What a frame brings from outside: the timers that the host fires since
    the previous frame (any of the pending ones, in any order), the clock
    readings, [dt] and the input of the player. *)
Record Frame := mkFrame {
  frameTimers : list TimerFiring;
  frameNowP : Q; frameNowC : Q; frameDt : Q; framePlayerInput : Input.t
}.

Section FightManagerWithAI.

Variable checkCollision : Fighter -> Fighter -> bool.
Variable resolvePushCollision : Fighter -> Fighter -> Fighter * Fighter.
Variable ai : AIController.
Variable random : nat -> Q.

(** [FightManager.update(dt)] with [cpuInput = this.ai.getInput()], read
    before either fighter is updated; [k] counts the draws of
    [Math.random()]. *)
Definition fmUpdateAI (k : nat) (fr : Frame) (m : Match) : Match * Outcome * nat :=
  let '(cpuInput, k') := getInput ai (cpu m) (player m) random k in
  let '(m', o) :=
    fmUpdate checkCollision resolvePushCollision
             (frameNowP fr) (frameNowC fr) (frameDt fr)
             (framePlayerInput fr) cpuInput m in
  (m', o, k').

(** The game loop: the timers that are due fire, then [update] is called,
    frame after frame until [update] invokes [handleWin] or [handleLoss],
    which stop the loop. *)
Fixpoint runGame (frames : list Frame) (k : nat) (m : Match) : Match * Outcome :=
  match frames with
  | [] => (m, NoOutcome)
  | fr :: frames' =>
      let m := fireAll (frameTimers fr) m in
      let '(m', o, k') := fmUpdateAI k fr m in
      match o with
      | NoOutcome => runGame frames' k' m'
      | _ => (m', o)
      end
  end.

End FightManagerWithAI.

(** ** store/gameState.ts, and handleWin / handleLoss of FightManager.ts *)

(** The store: [highScores] is a JavaScript object used as a map from level
    to score. Levels are whole numbers (1, and [currentLevel + 1]); scores
    are numbers. Persistence is not modelled. *)
Module GameStore.

Import stdpp.base stdpp.gmap.

Record GameState := mkGameState {
  unlockedLevels : Z;
  highScores : gmap Z Q;
  currentLevel : Z
}.

Definition initialState : GameState := mkGameState 1%Z ∅ 1%Z.

Definition unlockLevel (level : Z) (s : GameState) : GameState :=
  mkGameState (Z.max (unlockedLevels s) level) (highScores s) (currentLevel s).

(** [state.highScores[level] || 0] *)
Definition scoreOf (s : GameState) (level : Z) : Q :=
  default 0%Q (highScores s !! level).

Definition setHighScore (level : Z) (score : Q) (s : GameState) : GameState :=
  mkGameState (unlockedLevels s)
              (<[level := Qmax (scoreOf s level) score]> (highScores s))
              (currentLevel s).

Definition setCurrentLevel (level : Z) (s : GameState) : GameState :=
  mkGameState (unlockedLevels s) (highScores s) level.

Definition resetProgress (s : GameState) : GameState := initialState.

(** The actions of the store, and a sequence of them. *)
Inductive Action : Type :=
| UnlockLevel (level : Z)
| SetHighScore (level : Z) (score : Q)
| SetCurrentLevel (level : Z)
| ResetProgress.

Definition applyAction (a : Action) (s : GameState) : GameState :=
  match a with
  | UnlockLevel level => unlockLevel level s
  | SetHighScore level score => setHighScore level score s
  | SetCurrentLevel level => setCurrentLevel level s
  | ResetProgress => resetProgress s
  end.

Definition runActions (acts : list Action) (s : GameState) : GameState :=
  fold_left (fun s a => applyAction a s) acts s.

Definition isReset (a : Action) : bool :=
  match a with ResetProgress => true | _ => false end.

(** [FightManager.handleWin()]: what it does to the store, and the
    [nextLevel] its timer callback keeps. ([gameLoop.stop()] belongs to the
    missing [GameLoop.ts].) *)
Definition handleWin (playerHealth : Q) (s : GameState) : GameState * Z :=
  let nextLevel := (currentLevel s + 1)%Z in
  let s1 := unlockLevel nextLevel s in
  let s2 := setHighScore (currentLevel s) (playerHealth * 100)%Q s1 in
  (s2, nextLevel).

(** The callback of the timer of [handleWin]: the new store, and whether the
    page is reloaded. *)
Definition winTimeout (nextLevel : Z) (s : GameState) : GameState * bool :=
  if (nextLevel <=? 5)%Z then (setCurrentLevel nextLevel s, true) else (s, false).

(** [FightManager.handleLoss()] and its timer: the store is not written, the
    page is reloaded. *)
Definition handleLoss (s : GameState) : GameState := s.

Definition lossTimeout (s : GameState) : GameState * bool := (s, true).

(** The matches a player goes through: each ends with [handleWin] (with the
    health the player has left) or with [handleLoss], followed by the timer
    of the handler. *)
Inductive MatchResult : Type :=
| Won (playerHealth : Q)
| Lost.

Definition afterMatch (r : MatchResult) (s : GameState) : GameState :=
  match r with
  | Won playerHealth =>
      let '(s', nextLevel) := handleWin playerHealth s in
      fst (winTimeout nextLevel s')
  | Lost => fst (lossTimeout (handleLoss s))
  end.

Definition campaign (rs : list MatchResult) (s : GameState) : GameState :=
  fold_left (fun s r => afterMatch r s) rs s.

(** The number of matches won. *)
Fixpoint wins (rs : list MatchResult) : Z :=
  match rs with
  | [] => 0%Z
  | Won _ :: rs' => (1 + wins rs')%Z
  | Lost :: rs' => wins rs'
  end.

End GameStore.

(** ** The /diag endpoint (C#) *)

Module DiagEndpoint.

Import stdpp.base stdpp.gmap stdpp.strings.

(** The handler of [/diag]: [entries[child.Key] = MaskValue(child.Value)]
    for each entry of the configuration, in order. *)
Definition diag (config : list (string * option string))
  : gmap string (option string) :=
  fold_left (fun entries child => <[fst child := MaskValue (snd child)]> entries)
            config ∅.

(** The loop of the handler continued from a dictionary already holding
    [entries]. *)
Definition diagFrom (config : list (string * option string))
  (entries : gmap string (option string)) : gmap string (option string) :=
  fold_left (fun entries child => <[fst child := MaskValue (snd child)]> entries)
            config entries.

End DiagEndpoint.

(** * Part II (continued): the arithmetic of the engine *)

(** ** Doubles *)

(** The numbers of the engine are IEEE 754 doubles. A finite double is a
    rational number, and an arithmetic operation on doubles returns the
    exact result rounded to the nearest double, ties going to the even
    significand. [double q] is that rounding: a significand of 53 bits and
    a least exponent of -1074 (subnormal numbers included). JavaScript
    turns a result beyond the largest double into Infinity; no value below
    comes near that range. *)

(** The quotient [n / d] of two whole numbers ([0 <= n], [0 < d]) rounded
    to the nearest whole number, ties to even. *)
Definition roundHalfEven (n d : Z) : Z :=
  let q := (n / d)%Z in
  let r := (n mod d)%Z in
  match (2 * r ?= d)%Z with
  | Lt => q
  | Gt => (q + 1)%Z
  | Eq => if Z.even q then q else (q + 1)%Z
  end.

(** [a / (d * 2^e)] as a fraction of two whole numbers. *)
Definition scale2 (a d e : Z) : Z * Z :=
  if (0 <=? e)%Z then (a, (d * 2 ^ e)%Z) else ((a * 2 ^ (- e))%Z, d).

Definition double (q : Q) : Q :=
  let n := Qnum q in
  let d := Zpos (Qden q) in
  if (n =? 0)%Z then 0
  else
    let a := Z.abs n in
    let k0 := (Z.log2 a - Z.log2 d)%Z in
    (* the binade of |q|: 2^k <= |q| < 2^(k+1) *)
    let k := let '(n', d') := scale2 a d k0 in
             if (d' <=? n')%Z then k0 else (k0 - 1)%Z in
    (* the exponent of the last place *)
    let e := Z.max (k - 52) (-1074) in
    let '(n', d') := scale2 a d e in
    let m := (Z.sgn n * roundHalfEven n' d')%Z in
    if (0 <=? e)%Z then inject_Z (m * 2 ^ e)
    else Qred (m # Z.to_pos (2 ^ (- e))).

(** ** Fighter.update, with every operation rounded *)

(** [update] above computes with exact numbers. Here every arithmetic
    operation of the source is followed by the rounding [fl] of its result:
    with [double] for [fl] this is the arithmetic of the engine, and with
    the identity it is [update] again. Comparisons, [Math.min], [Math.max]
    and [Math.abs] are exact on doubles. *)
Section RoundedArithmetic.

Variable fl : Q -> Q.

(** The "Movement" block: [this.x.value += input.x * MOVE_SPEED * dt]. *)
Definition movementLogicFl (currentState : FighterState) (isBlocking : bool)
           (dt : Q) (input : Input.t) (f : Fighter) : Fighter :=
  if includes [IDLE; MOVING] currentState && negb isBlocking then
    if negb (Qeq_bool (Input.x input) 0) then
      set_facingRight (Qlt_bool 0 (Input.x input))
        (set_x (fl (x f + fl (fl (Input.x input * MOVE_SPEED) * dt)))
               (set_state MOVING f))
    else if FighterState_eqb currentState MOVING then set_state IDLE f
    else f
  else f.

(** [(performance.now() / 1000) - this.chargeStartTime] *)
Definition durationFl (perfNow : Q) (f : Fighter) : Q :=
  fl (fl (perfNow / 1000) - chargeStartTime f).

(** [Math.min(duration / MAX_CHARGE_TIME, 1.0)] *)
Definition levelFl (duration : Q) : Q :=
  Qmin (fl (duration / MAX_CHARGE_TIME)) 1.

Definition updateFl (perfNow dt : Q) (input : Input.t) (f : Fighter)
  : Fighter * list Effect :=
  let currentState := state f in
  let f := blockingLogic currentState input f in
  let isBlocking := isBlockingState (state f) in
  let f := movementLogicFl currentState isBlocking dt input f in
  if Input.punchHeld input || Input.kickHeld input then
    (* Start charging if possible *)
    let f :=
      if negb (includes [CHARGING; OVERHEATED; ATTACKING] currentState)
         && negb isBlocking
      then
        set_attackType (if Input.punchHeld input then PUNCH else KICK)
          (set_chargeLevel 0
             (set_chargeStartTime (fl (perfNow / 1000)) (set_state CHARGING f)))
      else f in
    (* Continue charging *)
    if FighterState_eqb currentState CHARGING then
      let duration := durationFl perfNow f in
      let f := set_chargeLevel (levelFl duration) f in
      if Qlt_bool OVERHEAT_TIME duration then
        (set_chargeLevel 0 (set_state OVERHEATED f), [SetTimeout 1000 OVERHEATED])
      else (f, [])
    else (f, [])
  else
    (* Release logic *)
    if FighterState_eqb currentState CHARGING then
      let duration := durationFl perfNow f in
      let f := set_attackHeight (releaseModifier input) f in
      let '(f, effects) := executeAttack duration f in
      (set_chargeLevel 0 f, effects)
    else (f, []).

Definition callFl (c : Call) (f : Fighter) : Fighter :=
  fst (updateFl (perfNow c) (dtOf c) (inputOf c) f).

Definition runUpdatesFl (calls : list Call) (f : Fighter) : Fighter :=
  fold_left (fun f c => callFl c f) calls f.

(** The steps of a match, the two [update] calls in rounded arithmetic. *)
Definition updatePlayerFl (perfNow dt : Q) (input : Input.t) (m : Match) : Match :=
  let '(p, es) := updateFl perfNow dt input (player m) in
  mkMatch p (cpu m) (playerTimers m ++ timersOf es) (cpuTimers m).

Definition updateCpuFl (perfNow dt : Q) (input : Input.t) (m : Match) : Match :=
  let '(c, es) := updateFl perfNow dt input (cpu m) in
  mkMatch (player m) c (playerTimers m) (cpuTimers m ++ timersOf es).

Definition applyStepFl (s : Step) (m : Match) : Match :=
  match s with
  | StEvent (EvUpdatePlayer perfNow dt input) => updatePlayerFl perfNow dt input m
  | StEvent (EvUpdateCpu perfNow dt input) => updateCpuFl perfNow dt input m
  | _ => applyStep s m
  end.

Definition runStepsFl (ss : list Step) (m : Match) : Match :=
  fold_left (fun m s => applyStepFl s m) ss m.

(** ** One fighter of a match, and what can disturb it *)

Definition fighterOn (s : Side) (m : Match) : Fighter :=
  match s with PlayerSide => player m | CpuSide => cpu m end.

Definition timersOn (s : Side) (m : Match) : list FighterState :=
  match s with PlayerSide => playerTimers m | CpuSide => cpuTimers m end.

Definition opponentOf (s : Side) : Side :=
  match s with PlayerSide => CpuSide | CpuSide => PlayerSide end.

(** The steps that concern the fighter on side [s]: its [update] call, the
    hit-detection call in which it is the defender, and the firing of its
    [n]-th pending timer. *)
Definition updateStep (s : Side) (perfNow dt : Q) (input : Input.t) : Step :=
  match s with
  | PlayerSide => StEvent (EvUpdatePlayer perfNow dt input)
  | CpuSide => StEvent (EvUpdateCpu perfNow dt input)
  end.

Definition hitStep (s : Side) : Step :=
  match s with
  | PlayerSide => StEvent EvHitByCpu
  | CpuSide => StEvent EvHitByPlayer
  end.

Definition timerStep (s : Side) (n : nat) : Step :=
  match s with
  | PlayerSide => StEvent (EvPlayerTimer n)
  | CpuSide => StEvent (EvCpuTimer n)
  end.

(** The charge of the fighter on side [s] goes on through a step: an
    [update] call of the fighter has a button held and computes a duration
    of at most OVERHEAT_TIME, and a hit-detection call against the fighter
    leaves it as it is (the opponent is not attacking, or is out of
    range). *)
Definition chargeGoesOn (s : Side) (st : Step) (m : Match) : Prop :=
  match s, st with
  | PlayerSide, StEvent (EvUpdatePlayer perfNow _ input)
  | CpuSide, StEvent (EvUpdateCpu perfNow _ input) =>
      held input = true /\ durationFl perfNow (fighterOn s m) <= OVERHEAT_TIME
  | PlayerSide, StEvent EvHitByCpu
  | CpuSide, StEvent EvHitByPlayer =>
      fighterOn s (applyStepFl st m) = fighterOn s m
  | _, _ => True
  end.

(** Nothing ends the overheat of the fighter on side [s] in a step: a
    hit-detection call against the fighter leaves it as it is, and the
    timer that fires, if it is one of the fighter, is not its cooldown. *)
Definition overheatGoesOn (s : Side) (st : Step) (m : Match) : Prop :=
  match s, st with
  | PlayerSide, StEvent EvHitByCpu
  | CpuSide, StEvent EvHitByPlayer =>
      fighterOn s (applyStepFl st m) = fighterOn s m
  | PlayerSide, StEvent (EvPlayerTimer n)
  | CpuSide, StEvent (EvCpuTimer n) =>
      nth_error (timersOn s m) n <> Some OVERHEATED
  | _, _ => True
  end.

(** A condition on each step of a run, in the state the step starts from. *)
Fixpoint along (P : Step -> Match -> Prop) (ss : list Step) (m : Match) : Prop :=
  match ss with
  | [] => True
  | st :: ss' => P st m /\ along P ss' (applyStepFl st m)
  end.

(** [f'] is [f] but for its position. *)
Definition movedOnly (f f' : Fighter) : Prop := f' = set_x (x f') f.

(** Every pending timer reverts one of the three timed states. *)
Definition timedGuards (m : Match) : Prop :=
  Forall (fun g => isTimedState g = true) (playerTimers m) /\
  Forall (fun g => isTimedState g = true) (cpuTimers m).

End RoundedArithmetic.

(** * Part III: properties *)

(** ** Comparisons and enumerations *)

Lemma Qlt_bool_iff (a b : Q) : Qlt_bool a b = true <-> a < b.
Proof.
  unfold Qlt_bool. rewrite negb_true_iff. split.
  - intros H. apply Qnot_le_lt. intros Hle.
    apply Qle_bool_iff in Hle. congruence.
  - intros H. destruct (Qle_bool b a) eqn:E; [|reflexivity].
    apply Qle_bool_iff in E. apply Qlt_not_le in H. contradiction.
Qed.

Lemma Qlt_bool_false_iff (a b : Q) : Qlt_bool a b = false <-> b <= a.
Proof.
  unfold Qlt_bool. rewrite negb_false_iff. apply Qle_bool_iff.
Qed.

Lemma FighterState_eqb_eq (a b : FighterState) :
  FighterState_eqb a b = true <-> a = b.
Proof. destruct a, b; simpl; split; congruence. Qed.

(** ** The unit tests of the engine, replayed on the embedding *)

Example test_attacking_after_release :
  state (updates [(0, holdPunch); (500, holdPunch); (500, neutral)]
                 (newFighter "attacker" 400)) = ATTACKING.
Proof. reflexivity. Qed.

Example test_kick_type :
  attackType (updates [(0, holdKick)] (newFighter "attacker" 400)) = KICK.
Proof. reflexivity. Qed.

Example test_release_high :
  attackHeight (updates [(0, holdPunch); (500, holdPunch); (500, pressUp)]
                        (newFighter "attacker" 400)) = HIGH.
Proof. reflexivity. Qed.

Example test_block_high :
  state (updates [(0, pressUp)] (newFighter "defender" 500)) = BLOCKING_HIGH.
Proof. reflexivity. Qed.

Example test_max_charge_at_one_second :
  chargeLevel (updates [(0, holdPunch); (1000, holdPunch)]
                       (newFighter "attacker" 400)) == 1.
Proof. vm_compute. reflexivity. Qed.

Example test_overheat :
  let f := updates [(0, holdPunch); (2100, holdPunch)] (newFighter "attacker" 400) in
  state f = OVERHEATED /\ chargeLevel f == 0.
Proof. split; vm_compute; reflexivity. Qed.

Example test_move_one_second :
  x (fst (update 0 1 (Input.mk 1 0 false false) (newFighter "testPlayer" 500)))
  == 500 + MOVE_SPEED.
Proof. vm_compute. reflexivity. Qed.

(** ** Basic facts about [update] and [checkHitForAttacker] *)

Lemma includes_true (l : list FighterState) (s : FighterState) :
  includes l s = true <-> In s l.
Proof.
  unfold includes. rewrite existsb_exists. split.
  - intros [s' [Hin Heq]]. apply FighterState_eqb_eq in Heq. now subst.
  - intros Hin. exists s. split; [assumption|]. now apply FighterState_eqb_eq.
Qed.

(** Releasing both buttons while CHARGING: the attack is executed and the
    charge level is written to zero in the same call. *)
Lemma update_release (perfNow dt : Q) (input : Input.t) (f : Fighter) :
  state f = CHARGING ->
  Input.punchHeld input = false ->
  Input.kickHeld input = false ->
  update perfNow dt input f =
  (set_chargeLevel 0
     (set_state ATTACKING (set_attackHeight (releaseModifier input) f)),
   [PlayPunch (if isMaxCharge (perfNow / 1000 - chargeStartTime f)
               then SOUND_HEAVY else SOUND_JAB);
    SetTimeout 300 ATTACKING]).
Proof.
  intros Hs Hp Hk. unfold update. rewrite Hs, Hp, Hk. reflexivity.
Qed.

(** Holding a button while CHARGING. *)
Lemma update_hold (perfNow dt : Q) (input : Input.t) (f : Fighter) :
  state f = CHARGING ->
  Input.punchHeld input || Input.kickHeld input = true ->
  update perfNow dt input f =
  let duration := perfNow / 1000 - chargeStartTime f in
  if Qlt_bool OVERHEAT_TIME duration then
    (set_chargeLevel 0
       (set_state OVERHEATED
          (set_chargeLevel (Qmin (duration / MAX_CHARGE_TIME) 1) f)),
     [SetTimeout 1000 OVERHEATED])
  else (set_chargeLevel (Qmin (duration / MAX_CHARGE_TIME) 1) f, []).
Proof.
  intros Hs Hh. unfold update. rewrite Hs, Hh. reflexivity.
Qed.

(** In the states ATTACKING and OVERHEATED the call changes nothing,
    whatever the input. *)
Lemma update_attacking (perfNow dt : Q) (input : Input.t) (f : Fighter) :
  state f = ATTACKING -> update perfNow dt input f = (f, []).
Proof.
  intros Hs. unfold update. rewrite Hs. simpl.
  destruct (Input.punchHeld input || Input.kickHeld input); reflexivity.
Qed.


(** [update] never writes the vertical position nor the health. *)
Lemma update_y (perfNow dt : Q) (input : Input.t) (f : Fighter) :
  y (fst (update perfNow dt input f)) = y f.
Proof.
  unfold update, blockingLogic, movementLogic, executeAttack.
  repeat match goal with
         | |- context [if ?b then _ else _] => destruct b
         end; reflexivity.
Qed.

Lemma update_health (perfNow dt : Q) (input : Input.t) (f : Fighter) :
  health (fst (update perfNow dt input f)) = health f.
Proof.
  unfold update, blockingLogic, movementLogic, executeAttack.
  repeat match goal with
         | |- context [if ?b then _ else _] => destruct b
         end; reflexivity.
Qed.

(** The body of [checkHitForAttacker] once the two early returns are
    passed. *)
Lemma checkHit_in_range (attacker defender : Fighter) :
  state attacker = ATTACKING ->
  Qabs (x attacker - x defender) <= attackRange ->
  checkHitForAttacker attacker defender =
  if isBlockedHigh attacker defender || isBlockedLow attacker defender then
    (attacker, defender, [])
  else if isBlockedMid attacker defender then
    (attacker, set_health (Qmax 0 (health defender - chipDamage)) defender, [])
  else
    (set_attackType NONE (set_state IDLE attacker),
     set_state STUNNED
       (set_health
          (Qmax 0 (health defender
                   - baseDamage (attackType attacker) (chargeLevel attacker)))
          defender),
     [SetTimeout 300 STUNNED]).
Proof.
  intros Hs Hr. unfold checkHitForAttacker. rewrite Hs. simpl negb. cbv iota.
  apply Qlt_bool_false_iff in Hr. rewrite Hr. reflexivity.
Qed.

Lemma checkHit_not_attacking (attacker defender : Fighter) :
  state attacker <> ATTACKING ->
  checkHitForAttacker attacker defender = (attacker, defender, []).
Proof.
  intros Hs. unfold checkHitForAttacker.
  destruct (FighterState_eqb (state attacker) ATTACKING) eqn:E; [|reflexivity].
  apply FighterState_eqb_eq in E. contradiction.
Qed.

Lemma baseDamage_nonneg (ty : AttackType) (charge : Q) : 0 <= baseDamage ty charge.
Proof.
  unfold baseDamage. destruct ty; try destruct (Qle_bool (9 # 10) charge);
    simpl; lra.
Qed.

Lemma Qmax0_sub_exact (h d : Q) : d <= h -> h - Qmax 0 (h - d) == d.
Proof.
  intros Hd. destruct (Q.max_spec 0 (h - d)) as [[L E]|[L E]]; rewrite E; lra.
Qed.

(** The three shapes of the result of [checkHitForAttacker]. *)
Lemma checkHit_shapes (a d : Fighter) :
  checkHitForAttacker a d = (a, d, [])
  \/ (state a = ATTACKING /\ isBlockingState (state d) = true /\
      checkHitForAttacker a d = (a, chip d, []))
  \/ (state a = ATTACKING /\
      checkHitForAttacker a d =
      (resetAttacker a,
       set_state STUNNED
         (set_health (Qmax 0 (health d - baseDamage (attackType a) (chargeLevel a)))
                     d),
       [SetTimeout 300 STUNNED])).
Proof.
  unfold checkHitForAttacker.
  destruct (FighterState_eqb (state a) ATTACKING) eqn:Ea;
    cbn [negb]; [|left; reflexivity].
  apply FighterState_eqb_eq in Ea.
  destruct (Qlt_bool attackRange (Qabs (x a - x d))); [left; reflexivity|].
  destruct (isBlockedHigh a d || isBlockedLow a d); [left; reflexivity|].
  destruct (isBlockedMid a d) eqn:Em.
  - right; left. split; [exact Ea|]. split; [|reflexivity].
    unfold isBlockedMid in Em. apply andb_true_iff in Em as [Em _]. exact Em.
  - right; right. now split.
Qed.

Lemma hitByPlayer_results (m : Match) :
  exists ts,
    attackerResult (player m) (player (hitByPlayer m)) /\
    defenderResult (player m) (cpu m) (cpu (hitByPlayer m)) ts /\
    playerTimers (hitByPlayer m) = playerTimers m /\
    cpuTimers (hitByPlayer m) = cpuTimers m ++ ts.
Proof.
  unfold hitByPlayer, attackerResult, defenderResult.
  destruct (checkHit_shapes (player m) (cpu m)) as [E|[[Ha [Hb E]]|[Ha E]]];
    rewrite E; cbn [player cpu playerTimers cpuTimers timersOf].
  - exists []. repeat split; auto.
  - exists []. repeat split; auto; right; left; auto.
  - exists [STUNNED]. repeat split; auto; right; right; auto.
Qed.

Lemma hitByCpu_results (m : Match) :
  exists ts,
    attackerResult (cpu m) (cpu (hitByCpu m)) /\
    defenderResult (cpu m) (player m) (player (hitByCpu m)) ts /\
    cpuTimers (hitByCpu m) = cpuTimers m /\
    playerTimers (hitByCpu m) = playerTimers m ++ ts.
Proof.
  unfold hitByCpu, attackerResult, defenderResult.
  destruct (checkHit_shapes (cpu m) (player m)) as [E|[[Ha [Hb E]]|[Ha E]]];
    rewrite E; cbn [player cpu playerTimers cpuTimers timersOf].
  - exists []. repeat split; auto.
  - exists []. repeat split; auto; right; left; auto.
  - exists [STUNNED]. repeat split; auto; right; right; auto.
Qed.

Lemma In_removeNth {A : Type} (l : list A) :
  forall n g a, nth_error l n = Some g -> a <> g -> In a l -> In a (removeNth n l).
Proof.
  induction l as [|b l IH]; intros n g a Hn Hne Hin; [contradiction|].
  destruct n as [|n]; simpl in *.
  - inversion Hn; subst. destruct Hin as [E|Hin]; [congruence | exact Hin].
  - destruct Hin as [E|Hin]; [now left | right; eapply IH; eauto].
Qed.

(** ** C1: the charge level at the moment damage is computed *)

(** C1 (the code departs from the claim). A punch charged to level 1.0
    (>= 0.9) and released: [update] writes [chargeLevel] back to 0 in the
    call that executes the attack, so that the orchestrator, which reads
    the charge level of the attacker afterwards, selects the light tier: the
    unblocked hit takes JAB damage (5) and not HEAVY_PUNCH damage (20). *)
Theorem C1_release_resets_charge_before_damage :
  chargeLevel fullyCharged == 1 /\
  state releasedFull = ATTACKING /\
  chargeLevel releasedFull == 0 /\
  (let '(_, defender, _) := checkHitForAttacker releasedFull (newFighter "cpu" 450) in
   state defender = STUNNED /\
   health defender == 100 - damage JAB /\
   ~ health defender == 100 - damage HEAVY_PUNCH).
Proof.
  repeat split; try (vm_compute; reflexivity).
  vm_compute. discriminate.
Qed.

(** Whatever the charge was, it is zero after the release, so that no
    attack reaches the orchestrator with a level of 0.9 or more. *)
Lemma release_charge_is_zero (perfNow dt : Q) (input : Input.t) (f : Fighter) :
  state f = CHARGING ->
  Input.punchHeld input = false ->
  Input.kickHeld input = false ->
  let f' := fst (update perfNow dt input f) in
  state f' = ATTACKING /\ chargeLevel f' = 0 /\
  baseDamage (attackType f') (chargeLevel f') <= damage KICK_FLICK.
Proof.
  intros Hs Hp Hk. rewrite (update_release _ _ _ _ Hs Hp Hk). simpl.
  repeat split. destruct (attackType f); vm_compute; discriminate.
Qed.

(** ** C2: the three outcomes of hit detection *)

Ltac block_cases :=
  unfold heightMatchedBlock, midAgainstBlock in *;
  repeat match goal with
         | H : _ /\ _ |- _ => destruct H
         | H : _ \/ _ |- _ => destruct H
         end;
  try congruence.

Lemma baseDamage_tiers (ty : AttackType) (charge : Q) :
  (ty = PUNCH -> charge < 9 # 10 -> baseDamage ty charge == 5) /\
  (ty = PUNCH -> 9 # 10 <= charge -> baseDamage ty charge == 20) /\
  (ty = KICK -> charge < 9 # 10 -> baseDamage ty charge == 7) /\
  (ty = KICK -> 9 # 10 <= charge -> baseDamage ty charge == 25) /\
  (ty = NONE -> baseDamage ty charge == 0).
Proof.
  unfold baseDamage.
  destruct (Qle_bool (9 # 10) charge) eqn:E.
  - apply Qle_bool_iff in E.
    repeat split; intros -> ; try reflexivity; intros H; exfalso; lra.
  - assert (L : charge < 9 # 10)
      by (apply Qnot_le_lt; intros H; apply Qle_bool_iff in H; congruence).
    repeat split; intros -> ; try reflexivity; intros H; exfalso; lra.
Qed.

(** C2. For an attacker in state ATTACKING within the extended attack range
    (1.5 x FIGHTER_WIDTH), hit detection has exactly three outcomes.
    A height-matched block changes nothing at all. A MID attack against
    either blocking state writes only the defender's health, to
    max(0, health - 2) (a loss of exactly 2 whenever the defender has that
    much), and leaves its state as it was. Every other case writes the
    defender's health to max(0, health - tier damage), sets the defender
    STUNNED, and resets the attacker to IDLE with attack type NONE; the
    tier damage is 5 for a punch and 7 for a kick read with a charge level
    below 0.9, and 20 for a punch and 25 for a kick read with a charge level
    of 0.9 or more. *)
Theorem C2_hit_classification (attacker defender : Fighter) :
  state attacker = ATTACKING ->
  Qabs (x attacker - x defender) <= attackRange ->
  let '(attacker', defender', effects) := checkHitForAttacker attacker defender in
  (heightMatchedBlock attacker defender ->
     attacker' = attacker /\ defender' = defender /\ effects = []) /\
  (midAgainstBlock attacker defender ->
     attacker' = attacker /\
     defender' = set_health (health defender') defender /\
     health defender' == Qmax 0 (health defender - 2) /\
     (2 <= health defender -> health defender - health defender' == 2) /\
     state defender' = state defender /\
     effects = []) /\
  (~ heightMatchedBlock attacker defender ->
   ~ midAgainstBlock attacker defender ->
     let dmg := baseDamage (attackType attacker) (chargeLevel attacker) in
     attacker' = resetAttacker attacker /\
     state attacker' = IDLE /\ attackType attacker' = NONE /\
     defender' = set_state STUNNED (set_health (health defender') defender) /\
     health defender' == Qmax 0 (health defender - dmg) /\
     (dmg <= health defender -> health defender - health defender' == dmg) /\
     state defender' = STUNNED /\
     effects = [SetTimeout 300 STUNNED] /\
     (attackType attacker = PUNCH -> chargeLevel attacker < 9 # 10 -> dmg == 5) /\
     (attackType attacker = PUNCH -> 9 # 10 <= chargeLevel attacker -> dmg == 20) /\
     (attackType attacker = KICK -> chargeLevel attacker < 9 # 10 -> dmg == 7) /\
     (attackType attacker = KICK -> 9 # 10 <= chargeLevel attacker -> dmg == 25)).
Proof.
  intros Hs Hr. rewrite (checkHit_in_range _ _ Hs Hr).
  unfold isBlockedHigh, isBlockedLow, isBlockedMid.
  pose proof (baseDamage_tiers (attackType attacker) (chargeLevel attacker))
    as [T1 [T2 [T3 [T4 _]]]].
  destruct (state defender) eqn:Sd, (attackHeight attacker) eqn:Ha; simpl;
    (split; [|split]); intros; block_cases;
    try (exfalso;
         match goal with
         | H : ~ _ |- _ => apply H; unfold heightMatchedBlock, midAgainstBlock;
                           now auto
         end);
    repeat split; auto using Qmax0_sub_exact; try reflexivity.
Qed.

Lemma C2_hit_classification_witness :
  let blocker := set_state BLOCKING_LOW (newFighter "defender" 450) in
  let idle := newFighter "defender" 450 in
  let attack ty level height :=
    set_chargeLevel level
      (set_attackType ty
         (set_attackHeight height
            (set_state ATTACKING (newFighter "attacker" 400)))) in
  health (snd (fst (checkHitForAttacker (attack PUNCH 0 LOW) blocker))) == 100 /\
  health (snd (fst (checkHitForAttacker (attack PUNCH 0 MID) blocker))) == 98 /\
  health (snd (fst (checkHitForAttacker (attack PUNCH 0 HIGH) blocker))) == 95 /\
  health (snd (fst (checkHitForAttacker (attack PUNCH 1 MID) idle))) == 80 /\
  health (snd (fst (checkHitForAttacker (attack KICK 0 MID) idle))) == 93 /\
  health (snd (fst (checkHitForAttacker (attack KICK 1 MID) idle))) == 75 /\
  state (snd (fst (checkHitForAttacker (attack KICK 1 MID) idle))) = STUNNED.
Proof.
  intros blocker idle attack.
  assert (Hr : forall ty level height d,
             x d = 450 ->
             Qabs (x (attack ty level height) - x d) <= attackRange)
    by (intros ty level height d Hx; unfold attack; cbn [x set_chargeLevel
          set_attackType set_attackHeight set_state newFighter]; rewrite Hx;
        vm_compute; discriminate).
  assert (full : forall ty level height d,
             x d = 450 ->
             ~ heightMatchedBlock (attack ty level height) d ->
             ~ midAgainstBlock (attack ty level height) d ->
             let r := checkHitForAttacker (attack ty level height) d in
             let dmg := baseDamage ty level in
             health (snd (fst r)) == Qmax 0 (health d - dmg) /\
             state (snd (fst r)) = STUNNED /\
             (ty = PUNCH -> level < 9 # 10 -> dmg == 5) /\
             (ty = PUNCH -> 9 # 10 <= level -> dmg == 20) /\
             (ty = KICK -> level < 9 # 10 -> dmg == 7) /\
             (ty = KICK -> 9 # 10 <= level -> dmg == 25)).
  { intros ty level height d Hx Hn1 Hn2.
    pose proof (C2_hit_classification (attack ty level height) d eq_refl
                  (Hr ty level height d Hx)) as H.
    destruct (checkHitForAttacker (attack ty level height) d) as [[a' d'] es].
    destruct H as [_ [_ H]].
    destruct (H Hn1 Hn2) as [_ [_ [_ [_ [Hh [_ [Hst [_ [T1 [T2 [T3 T4]]]]]]]]]]].
    cbv zeta. cbn [fst snd]. repeat split; assumption. }
  assert (Hlow : ~ midAgainstBlock (attack PUNCH 0 LOW) blocker
                 /\ heightMatchedBlock (attack PUNCH 0 LOW) blocker).
  { split; [intros [_ H]; discriminate H | right; split; reflexivity]. }
  assert (Hmid : midAgainstBlock (attack PUNCH 0 MID) blocker)
    by (split; [right|]; reflexivity).
  assert (Hno : forall ty level height d,
             (state d = IDLE \/ height = HIGH /\ state d = BLOCKING_LOW) ->
             ~ heightMatchedBlock (attack ty level height) d /\
             ~ midAgainstBlock (attack ty level height) d).
  { intros ty level height d Hd. unfold heightMatchedBlock, midAgainstBlock.
    cbn [attackHeight attack set_chargeLevel set_attackType set_attackHeight].
    split; intros H; destruct Hd as [Hd|[Hh Hd]];
      repeat match goal with
             | H : _ /\ _ |- _ => destruct H
             | H : _ \/ _ |- _ => destruct H
             end; subst; congruence. }
  split.
  { pose proof (C2_hit_classification (attack PUNCH 0 LOW) blocker eq_refl
                  (Hr PUNCH 0 LOW blocker eq_refl)) as H.
    destruct (checkHitForAttacker (attack PUNCH 0 LOW) blocker) as [[a' d'] es].
    destruct H as [H _]. destruct (H (proj2 Hlow)) as [_ [-> _]]. reflexivity. }
  split.
  { pose proof (C2_hit_classification (attack PUNCH 0 MID) blocker eq_refl
                  (Hr PUNCH 0 MID blocker eq_refl)) as H.
    destruct (checkHitForAttacker (attack PUNCH 0 MID) blocker) as [[a' d'] es].
    destruct H as [_ [H _]]. destruct (H Hmid) as [_ [_ [Hh _]]].
    eapply Qeq_trans; [exact Hh | vm_compute; reflexivity]. }
  split.
  { destruct (Hno PUNCH 0 HIGH blocker (or_intror (conj eq_refl eq_refl)))
      as [N1 N2].
    destruct (full PUNCH 0 HIGH blocker eq_refl N1 N2) as [Hh [_ [T _]]].
    rewrite Hh, (T eq_refl) by (vm_compute; reflexivity).
    vm_compute. reflexivity. }
  split.
  { destruct (Hno PUNCH 1 MID idle (or_introl eq_refl)) as [N1 N2].
    destruct (full PUNCH 1 MID idle eq_refl N1 N2) as [Hh [_ [_ [T _]]]].
    rewrite Hh, (T eq_refl) by (vm_compute; discriminate).
    vm_compute. reflexivity. }
  split.
  { destruct (Hno KICK 0 MID idle (or_introl eq_refl)) as [N1 N2].
    destruct (full KICK 0 MID idle eq_refl N1 N2) as [Hh [_ [_ [_ [T _]]]]].
    rewrite Hh, (T eq_refl) by (vm_compute; reflexivity).
    vm_compute. reflexivity. }
  destruct (Hno KICK 1 MID idle (or_introl eq_refl)) as [N1 N2].
  destruct (full KICK 1 MID idle eq_refl N1 N2) as [Hh [Hst [_ [_ [_ T]]]]].
  split; [|exact Hst].
  rewrite Hh, (T eq_refl) by (vm_compute; discriminate).
  vm_compute. reflexivity.
Defined.

(** ** Milliseconds to seconds *)

Lemma Qdiv_1000 (a : Q) : a / 1000 == a * (1 # 1000).
Proof. field. Qed.

(** ** Facts about the rounded [update] *)

(** With no rounding, [updateFl] is [update]. *)
Lemma updateFl_exact (perfNow dt : Q) (input : Input.t) (f : Fighter) :
  updateFl (fun q => q) perfNow dt input f = update perfNow dt input f.
Proof. reflexivity. Qed.

Lemma Forall_removeNth {A : Type} (P : A -> Prop) (l : list A) :
  forall n, Forall P l -> Forall P (removeNth n l).
Proof.
  induction l as [|a l IH]; intros [|n] H; simpl; auto;
    inversion H; subst; auto.
Qed.

Lemma timersOf_checkHit (a d : Fighter) :
  Forall (fun g => isTimedState g = true)
         (timersOf (snd (checkHitForAttacker a d))).
Proof.
  destruct (checkHit_shapes a d) as [E|[[_ [_ E]]|[_ E]]]; rewrite E; cbn;
    repeat constructor.
Qed.

Lemma movedOnly_refl (f : Fighter) : movedOnly f f.
Proof. destruct f; reflexivity. Qed.

Lemma movedOnly_set_x (v : Q) (f0 f : Fighter) :
  movedOnly f0 f -> movedOnly f0 (set_x v f).
Proof. unfold movedOnly. intros H. rewrite H. reflexivity. Qed.

Lemma movedOnly_fields (f0 f : Fighter) :
  movedOnly f0 f ->
  state f = state f0 /\ chargeLevel f = chargeLevel f0 /\
  health f = health f0 /\ attackType f = attackType f0 /\
  chargeStartTime f = chargeStartTime f0.
Proof. unfold movedOnly. intros H. rewrite H. repeat split. Qed.

Section RoundedFacts.

Variable fl : Q -> Q.

(** Releasing both buttons while CHARGING. *)
Lemma updateFl_release (perfNow dt : Q) (input : Input.t) (f : Fighter) :
  state f = CHARGING ->
  held input = false ->
  updateFl fl perfNow dt input f =
  (set_chargeLevel 0
     (set_state ATTACKING (set_attackHeight (releaseModifier input) f)),
   [PlayPunch (if isMaxCharge (durationFl fl perfNow f)
               then SOUND_HEAVY else SOUND_JAB);
    SetTimeout 300 ATTACKING]).
Proof.
  intros Hs Hh. unfold held in Hh. unfold updateFl. rewrite Hs, Hh. reflexivity.
Qed.

(** Holding a button while CHARGING. *)
Lemma updateFl_hold (perfNow dt : Q) (input : Input.t) (f : Fighter) :
  state f = CHARGING ->
  held input = true ->
  updateFl fl perfNow dt input f =
  if Qlt_bool OVERHEAT_TIME (durationFl fl perfNow f) then
    (set_chargeLevel 0
       (set_state OVERHEATED
          (set_chargeLevel (levelFl fl (durationFl fl perfNow f)) f)),
     [SetTimeout 1000 OVERHEATED])
  else (set_chargeLevel (levelFl fl (durationFl fl perfNow f)) f, []).
Proof.
  intros Hs Hh. unfold held in Hh. unfold updateFl. rewrite Hs, Hh. reflexivity.
Qed.

(** A held call that does not pass OVERHEAT_TIME writes the level only. *)
Lemma updateFl_hold_level (perfNow dt : Q) (input : Input.t) (f : Fighter) :
  state f = CHARGING ->
  held input = true ->
  durationFl fl perfNow f <= OVERHEAT_TIME ->
  updateFl fl perfNow dt input f =
  (set_chargeLevel (levelFl fl (durationFl fl perfNow f)) f, []).
Proof.
  intros Hs Hh Hd. rewrite (updateFl_hold _ _ _ _ Hs Hh).
  apply Qlt_bool_false_iff in Hd. now rewrite Hd.
Qed.

(** ATTACKING and OVERHEATED: the call changes nothing. *)
Lemma updateFl_busy (perfNow dt : Q) (input : Input.t) (f : Fighter) :
  state f = ATTACKING \/ state f = OVERHEATED ->
  updateFl fl perfNow dt input f = (f, []).
Proof.
  intros [Hs|Hs]; unfold updateFl; rewrite Hs; simpl;
    destruct (Input.punchHeld input || Input.kickHeld input); reflexivity.
Qed.

(** STUNNED with a button held: a charge starts. *)
Lemma updateFl_stunned_held (perfNow dt : Q) (input : Input.t) (f : Fighter) :
  state f = STUNNED ->
  held input = true ->
  updateFl fl perfNow dt input f =
  (set_attackType (if Input.punchHeld input then PUNCH else KICK)
     (set_chargeLevel 0
        (set_chargeStartTime (fl (perfNow / 1000)) (set_state CHARGING f))),
   []).
Proof.
  intros Hs Hh. unfold held in Hh. destruct f; cbn [state] in Hs; subst.
  unfold updateFl. cbn [state]. rewrite Hh. reflexivity.
Qed.

(** The first held frame of a charge. *)
Lemma updateFl_start (t0 dt : Q) (input : Input.t) (f : Fighter) :
  chargeStarts f input = true ->
  let r := updateFl fl t0 dt input f in
  state (fst r) = CHARGING /\ chargeLevel (fst r) = 0 /\
  chargeStartTime (fst r) = fl (t0 / 1000) /\
  attackType (fst r) = (if Input.punchHeld input then PUNCH else KICK) /\
  snd r = [].
Proof.
  unfold chargeStarts, held. intros H.
  apply andb_true_iff in H as [H Hb]. apply andb_true_iff in H as [Hh Hn].
  unfold updateFl. rewrite Hh, Hn, Hb. simpl andb. cbv iota.
  destruct (FighterState_eqb (state f) CHARGING) eqn:E.
  - apply FighterState_eqb_eq in E. rewrite E in Hn. discriminate.
  - cbn [fst snd state chargeLevel chargeStartTime attackType
         set_attackType set_chargeLevel set_chargeStartTime set_state].
    repeat split.
Qed.

(** A run of held calls on a CHARGING fighter, none of which passes
    OVERHEAT_TIME: only the charge level is written. *)
Lemma heldRunFl (calls : list Call) :
  forall f : Fighter,
    state f = CHARGING ->
    Forall (fun c => held (inputOf c) = true /\
                     fl (fl (perfNow c / 1000) - chargeStartTime f)
                     <= OVERHEAT_TIME) calls ->
    let f' := runUpdatesFl fl calls f in
    state f' = CHARGING /\ f' = set_chargeLevel (chargeLevel f') f.
Proof.
  induction calls as [|c calls IH]; intros f Hs Hall; cbv zeta.
  - split; [exact Hs | destruct f; reflexivity].
  - inversion Hall as [|c' l' [Hh Ht] Hall']; subst c' l'.
    change (runUpdatesFl fl (c :: calls) f)
      with (runUpdatesFl fl calls (callFl fl c f)).
    assert (Ec : callFl fl c f
                 = set_chargeLevel
                     (levelFl fl (durationFl fl (perfNow c) f)) f).
    { unfold callFl. now rewrite (updateFl_hold_level _ _ _ _ Hs Hh Ht). }
    destruct (IH (callFl fl c f)) as [Hs' He].
    + rewrite Ec. exact Hs.
    + rewrite Ec. exact Hall'.
    + split; [exact Hs'|]. rewrite He at 1. rewrite Ec. reflexivity.
Qed.

(** *** Steps of a match *)

Lemma timersOf_updateFl (perfNow dt : Q) (input : Input.t) (f : Fighter) :
  Forall (fun g => isTimedState g = true)
         (timersOf (snd (updateFl fl perfNow dt input f))).
Proof.
  unfold updateFl, executeAttack.
  repeat match goal with
         | |- context [if ?b then _ else _] => destruct b
         end; cbn; repeat constructor.
Qed.

Lemma applyStepFl_timedGuards (st : Step) (m : Match) :
  timedGuards m -> timedGuards (applyStepFl fl st m).
Proof.
  intros [Hp Hc]. unfold timedGuards.
  destruct st as [[now dt i|now dt i| | |n|n]|xp xc];
    cbn [applyStepFl applyStep applyEvent].
  - unfold updatePlayerFl.
    pose proof (timersOf_updateFl now dt i (player m)) as T.
    destruct (updateFl fl now dt i (player m)) as [p es]. cbn in *.
    split; [apply Forall_app; split; assumption | assumption].
  - unfold updateCpuFl.
    pose proof (timersOf_updateFl now dt i (cpu m)) as T.
    destruct (updateFl fl now dt i (cpu m)) as [c es]. cbn in *.
    split; [assumption | apply Forall_app; split; assumption].
  - unfold hitByPlayer.
    pose proof (timersOf_checkHit (player m) (cpu m)) as T.
    destruct (checkHitForAttacker (player m) (cpu m)) as [[p c] es]. cbn in *.
    split; [assumption | apply Forall_app; split; assumption].
  - unfold hitByCpu.
    pose proof (timersOf_checkHit (cpu m) (player m)) as T.
    destruct (checkHitForAttacker (cpu m) (player m)) as [[c p] es]. cbn in *.
    split; [apply Forall_app; split; assumption | assumption].
  - unfold firePlayerTimer. destruct (nth_error (playerTimers m) n); cbn;
      split; auto using Forall_removeNth.
  - unfold fireCpuTimer. destruct (nth_error (cpuTimers m) n); cbn;
      split; auto using Forall_removeNth.
  - cbn. split; assumption.
Qed.

Lemma runStepsFl_timedGuards (ss : list Step) :
  forall m, timedGuards m -> timedGuards (runStepsFl fl ss m).
Proof.
  induction ss as [|st ss IH]; intros m H; [exact H|].
  apply (IH (applyStepFl fl st m)). now apply applyStepFl_timedGuards.
Qed.

Lemma runStepsFl_app (l1 l2 : list Step) (m : Match) :
  runStepsFl fl (l1 ++ l2) m = runStepsFl fl l2 (runStepsFl fl l1 m).
Proof. apply fold_left_app. Qed.

Lemma along_app (P : Step -> Match -> Prop) (l1 l2 : list Step) :
  forall m, along fl P (l1 ++ l2) m <->
            along fl P l1 m /\ along fl P l2 (runStepsFl fl l1 m).
Proof.
  induction l1 as [|st l1 IH]; intros m; simpl.
  - tauto.
  - rewrite IH. tauto.
Qed.

(** The [update] call of the fighter on side [s], as a step. *)
Lemma own_update (s : Side) (perfNow dt : Q) (input : Input.t) (m : Match) :
  let m' := applyStepFl fl (updateStep s perfNow dt input) m in
  fighterOn s m' = fst (updateFl fl perfNow dt input (fighterOn s m)) /\
  timersOn s m'
  = timersOn s m ++ timersOf (snd (updateFl fl perfNow dt input (fighterOn s m))) /\
  fighterOn (opponentOf s) m' = fighterOn (opponentOf s) m.
Proof.
  destruct s; cbn [updateStep applyStepFl fighterOn timersOn opponentOf];
    [unfold updatePlayerFl; destruct (updateFl fl perfNow dt input (player m))
    |unfold updateCpuFl; destruct (updateFl fl perfNow dt input (cpu m))];
    cbn; repeat split.
Qed.

Lemma fireTimeout_not_guard (g : FighterState) (f : Fighter) :
  state f <> g -> fireTimeout g f = f.
Proof.
  unfold fireTimeout. intros H.
  destruct (FighterState_eqb (state f) g) eqn:E; [|reflexivity].
  apply FighterState_eqb_eq in E. contradiction.
Qed.

Lemma timed_not_charging (l : list FighterState) (n : nat) (g : FighterState) :
  Forall (fun g => isTimedState g = true) l ->
  nth_error l n = Some g -> CHARGING <> g.
Proof.
  intros Hall Hn E. subst g. apply nth_error_In in Hn.
  rewrite Forall_forall in Hall. specialize (Hall _ Hn). discriminate.
Qed.

(** A charge that goes on through a step stays a charge, with its start
    time. *)
Lemma charge_step (s : Side) (st : Step) (m : Match) :
  timedGuards m ->
  state (fighterOn s m) = CHARGING ->
  chargeGoesOn fl s st m ->
  let f' := fighterOn s (applyStepFl fl st m) in
  state f' = CHARGING /\ chargeStartTime f' = chargeStartTime (fighterOn s m).
Proof.
  intros [Gp Gc] Hs Hgo. cbv zeta.
  destruct s; destruct st as [[now dt i|now dt i| | |n|n]|xp xc];
    cbn [chargeGoesOn fighterOn applyStepFl applyStep applyEvent] in *.
  (* the player *)
  - destruct Hgo as [Hh Hd]. unfold updatePlayerFl.
    rewrite (updateFl_hold_level _ _ _ _ Hs Hh Hd). cbn. now split.
  - unfold updateCpuFl. destruct (updateFl fl now dt i (cpu m)). cbn. now split.
  - unfold hitByPlayer.
    rewrite checkHit_not_attacking by (rewrite Hs; discriminate).
    cbn. now split.
  - rewrite Hgo. now split.
  - unfold firePlayerTimer. destruct (nth_error (playerTimers m) n) eqn:En;
      [|now split]. cbn.
    rewrite fireTimeout_not_guard; [now split|].
    rewrite Hs. exact (timed_not_charging _ _ _ Gp En).
  - unfold fireCpuTimer. destruct (nth_error (cpuTimers m) n); cbn; now split.
  - cbn. now split.
  (* the cpu *)
  - unfold updatePlayerFl. destruct (updateFl fl now dt i (player m)).
    cbn. now split.
  - destruct Hgo as [Hh Hd]. unfold updateCpuFl.
    rewrite (updateFl_hold_level _ _ _ _ Hs Hh Hd). cbn. now split.
  - rewrite Hgo. now split.
  - unfold hitByCpu.
    rewrite checkHit_not_attacking by (rewrite Hs; discriminate).
    cbn. now split.
  - unfold firePlayerTimer. destruct (nth_error (playerTimers m) n); cbn;
      now split.
  - unfold fireCpuTimer. destruct (nth_error (cpuTimers m) n) eqn:En;
      [|now split]. cbn.
    rewrite fireTimeout_not_guard; [now split|].
    rewrite Hs. exact (timed_not_charging _ _ _ Gc En).
  - cbn. now split.
Qed.

Lemma charge_run (s : Side) (ss : list Step) :
  forall m,
    timedGuards m ->
    state (fighterOn s m) = CHARGING ->
    along fl (chargeGoesOn fl s) ss m ->
    let m' := runStepsFl fl ss m in
    timedGuards m' /\ state (fighterOn s m') = CHARGING /\
    chargeStartTime (fighterOn s m') = chargeStartTime (fighterOn s m).
Proof.
  induction ss as [|st ss IH]; intros m G Hs Hgo; cbv zeta.
  - split; [exact G | split; [exact Hs | reflexivity]].
  - destruct Hgo as [Hst Hgo].
    destruct (charge_step s st m G Hs Hst) as [Hs' Hc'].
    destruct (IH (applyStepFl fl st m)
                 (applyStepFl_timedGuards st m G) Hs' Hgo) as [G' [Hs'' Hc'']].
    change (runStepsFl fl (st :: ss) m)
      with (runStepsFl fl ss (applyStepFl fl st m)).
    split; [exact G'|]. split; [exact Hs''|]. now rewrite Hc''.
Qed.

(** An overheat that goes on through a step: the fighter is as it was but
    for its position, and its cooldown is still pending. *)
Lemma overheat_step (s : Side) (st : Step) (m : Match) :
  state (fighterOn s m) = OVERHEATED ->
  In OVERHEATED (timersOn s m) ->
  overheatGoesOn fl s st m ->
  let m' := applyStepFl fl st m in
  movedOnly (fighterOn s m) (fighterOn s m') /\
  In OVERHEATED (timersOn s m').
Proof.
  intros Hs Hin Hgo. cbv zeta.
  destruct s; destruct st as [[now dt i|now dt i| | |n|n]|xp xc];
    cbn [overheatGoesOn fighterOn timersOn applyStepFl applyStep applyEvent] in *.
  (* the player *)
  - unfold updatePlayerFl. rewrite updateFl_busy by (now right). cbn.
    split; [apply movedOnly_refl | apply in_or_app; now left].
  - unfold updateCpuFl. destruct (updateFl fl now dt i (cpu m)). cbn.
    split; [apply movedOnly_refl | exact Hin].
  - unfold hitByPlayer.
    rewrite checkHit_not_attacking by (rewrite Hs; discriminate).
    cbn. split; [apply movedOnly_refl | exact Hin].
  - rewrite Hgo. split; [apply movedOnly_refl|].
    destruct (hitByCpu_results m) as [ts [_ [_ [_ ->]]]].
    apply in_or_app; now left.
  - unfold firePlayerTimer. destruct (nth_error (playerTimers m) n) eqn:En;
      [|split; [apply movedOnly_refl | exact Hin]]. cbn.
    assert (Hg : OVERHEATED <> f) by (intros E; apply Hgo; now subst f).
    rewrite fireTimeout_not_guard by (rewrite Hs; exact Hg).
    split; [apply movedOnly_refl | eapply In_removeNth; eassumption].
  - unfold fireCpuTimer. destruct (nth_error (cpuTimers m) n); cbn;
      (split; [apply movedOnly_refl | exact Hin]).
  - cbn. split; [apply movedOnly_set_x, movedOnly_refl | exact Hin].
  (* the cpu *)
  - unfold updatePlayerFl. destruct (updateFl fl now dt i (player m)). cbn.
    split; [apply movedOnly_refl | exact Hin].
  - unfold updateCpuFl. rewrite updateFl_busy by (now right). cbn.
    split; [apply movedOnly_refl | apply in_or_app; now left].
  - rewrite Hgo. split; [apply movedOnly_refl|].
    destruct (hitByPlayer_results m) as [ts [_ [_ [_ ->]]]].
    apply in_or_app; now left.
  - unfold hitByCpu.
    rewrite checkHit_not_attacking by (rewrite Hs; discriminate).
    cbn. split; [apply movedOnly_refl | exact Hin].
  - unfold firePlayerTimer. destruct (nth_error (playerTimers m) n); cbn;
      (split; [apply movedOnly_refl | exact Hin]).
  - unfold fireCpuTimer. destruct (nth_error (cpuTimers m) n) eqn:En;
      [|split; [apply movedOnly_refl | exact Hin]]. cbn.
    assert (Hg : OVERHEATED <> f) by (intros E; apply Hgo; now subst f).
    rewrite fireTimeout_not_guard by (rewrite Hs; exact Hg).
    split; [apply movedOnly_refl | eapply In_removeNth; eassumption].
  - cbn. split; [apply movedOnly_set_x, movedOnly_refl | exact Hin].
Qed.

Lemma movedOnly_trans (f0 f1 f2 : Fighter) :
  movedOnly f0 f1 -> movedOnly f1 f2 -> movedOnly f0 f2.
Proof.
  unfold movedOnly. intros H1 H2. rewrite H2, H1. reflexivity.
Qed.

Lemma overheat_run (s : Side) (ss : list Step) :
  forall m,
    state (fighterOn s m) = OVERHEATED ->
    In OVERHEATED (timersOn s m) ->
    along fl (overheatGoesOn fl s) ss m ->
    let m' := runStepsFl fl ss m in
    movedOnly (fighterOn s m) (fighterOn s m') /\
    In OVERHEATED (timersOn s m').
Proof.
  induction ss as [|st ss IH]; intros m Hs Hin Hgo; cbv zeta.
  - split; [apply movedOnly_refl | exact Hin].
  - destruct Hgo as [Hst Hgo].
    destruct (overheat_step s st m Hs Hin Hst) as [Hm Hin'].
    assert (Hs' : state (fighterOn s (applyStepFl fl st m)) = OVERHEATED)
      by (destruct (movedOnly_fields _ _ Hm) as [E _]; now rewrite E).
    destruct (IH (applyStepFl fl st m) Hs' Hin' Hgo) as [Hm' Hin''].
    change (runStepsFl fl (st :: ss) m)
      with (runStepsFl fl ss (applyStepFl fl st m)).
    split; [eapply movedOnly_trans; eassumption | exact Hin''].
Qed.

(** The cooldown of the fighter on side [s] fires. *)
Lemma cooldown_fires (s : Side) (n : nat) (m : Match) :
  state (fighterOn s m) = OVERHEATED ->
  nth_error (timersOn s m) n = Some OVERHEATED ->
  state (fighterOn s (applyStepFl fl (timerStep s n) m)) = IDLE.
Proof.
  intros Hs Hn.
  destruct s; cbn [timerStep applyStepFl applyStep applyEvent fighterOn timersOn] in *;
    [unfold firePlayerTimer | unfold fireCpuTimer]; rewrite Hn; cbn;
    unfold fireTimeout; rewrite Hs; reflexivity.
Qed.

(** A hit lands on the fighter on side [s], which is not blocking. *)
Lemma hit_lands (s : Side) (m : Match) :
  state (fighterOn (opponentOf s) m) = ATTACKING ->
  Qabs (x (fighterOn (opponentOf s) m) - x (fighterOn s m)) <= attackRange ->
  isBlockingState (state (fighterOn s m)) = false ->
  let m' := applyStepFl fl (hitStep s) m in
  fighterOn s m'
  = set_state STUNNED
      (set_health
         (Qmax 0 (health (fighterOn s m)
                  - baseDamage (attackType (fighterOn (opponentOf s) m))
                               (chargeLevel (fighterOn (opponentOf s) m))))
         (fighterOn s m)) /\
  timersOn s m' = timersOn s m ++ [STUNNED].
Proof.
  intros Ha Hr Hb. cbv zeta.
  assert (E : forall a d,
             state a = ATTACKING -> Qabs (x a - x d) <= attackRange ->
             isBlockingState (state d) = false ->
             checkHitForAttacker a d =
             (set_attackType NONE (set_state IDLE a),
              set_state STUNNED
                (set_health
                   (Qmax 0 (health d - baseDamage (attackType a) (chargeLevel a)))
                   d),
              [SetTimeout 300 STUNNED])).
  { intros a d Hsa Hra Hbd. rewrite (checkHit_in_range _ _ Hsa Hra).
    unfold isBlockedHigh, isBlockedLow, isBlockedMid.
    unfold isBlockingState in Hbd. apply orb_false_iff in Hbd as [-> ->].
    reflexivity. }
  destruct s; cbn [hitStep applyStepFl applyStep applyEvent fighterOn timersOn
                   opponentOf] in *;
    [unfold hitByCpu | unfold hitByPlayer]; rewrite (E _ _ Ha Hr Hb); cbn;
    split; reflexivity.
Qed.

End RoundedFacts.

Lemma newMatch_timedGuards : timedGuards newMatch.
Proof. split; constructor. Qed.

(** ** C3: the charge level while the button is held *)

(** C3, as the spec states it, at t = 2.1 s: the button is held from a
    fresh start, the call at 2100 ms finds the charge past OVERHEAT_TIME and
    writes the level to 0, while clamp(t / MAX_CHARGE_TIME, 0, 1) is 1. *)
Lemma C3_counterexample_overheat :
  let f := runUpdates [mkCall 0 dt60 holdPunch; mkCall 2100 dt60 holdPunch]
                      (newFighter "testPlayer" 500) in
  held holdPunch = true /\
  chargeLevel f == 0 /\
  clamp ((21 # 10) / MAX_CHARGE_TIME) 0 1 == 1 /\
  ~ chargeLevel f == clamp ((21 # 10) / MAX_CHARGE_TIME) 0 1.
Proof.
  repeat split; try (vm_compute; reflexivity).
  vm_compute. discriminate.
Qed.


(** C3 (amended). In a match reached from the constructor, the fighter on
    either side starts a charge at clock reading [t0]; through any further
    steps of the match, every [update] call of the fighter has a button
    held and computes a duration of at most OVERHEAT_TIME, and no hit lands
    on the fighter. After each such call the fighter is CHARGING and its
    charge level is min(d / MAX_CHARGE_TIME, 1), where d is the duration
    the call computes from the clock, now / 1000 - chargeStartTime, each
    operation rounded: the level is at most 1, it is
    clamp(d / MAX_CHARGE_TIME, 0, 1) when the quotient is not negative, and
    it is 1 when the quotient is 1 or more. This holds for every rounding,
    that of doubles and none at all included. *)
Theorem C3_charge_level_while_held
        (fl : Q -> Q) (s : Side) (pre ss : list Step)
        (t0 dt0 t dt : Q) (input0 input : Input.t) :
  let m0 := runStepsFl fl pre newMatch in
  chargeStarts (fighterOn s m0) input0 = true ->
  let m1 := applyStepFl fl (updateStep s t0 dt0 input0) m0 in
  along fl (chargeGoesOn fl s) (ss ++ [updateStep s t dt input]) m1 ->
  let f' := fighterOn s (runStepsFl fl (ss ++ [updateStep s t dt input]) m1) in
  let d := fl (fl (t / 1000) - fl (t0 / 1000)) in
  state f' = CHARGING /\
  chargeLevel f' = Qmin (fl (d / MAX_CHARGE_TIME)) 1 /\
  chargeLevel f' <= 1 /\
  (0 <= fl (d / MAX_CHARGE_TIME) ->
   chargeLevel f' == clamp (fl (d / MAX_CHARGE_TIME)) 0 1) /\
  (1 <= fl (d / MAX_CHARGE_TIME) -> chargeLevel f' == 1).
Proof.
  intros m0 Hstart m1 Hgo f' d.
  assert (G0 : timedGuards m0)
    by (apply runStepsFl_timedGuards, newMatch_timedGuards).
  destruct (own_update fl s t0 dt0 input0 m0) as [E1 _]. fold m1 in E1.
  destruct (updateFl_start fl t0 dt0 input0 _ Hstart) as [Hs1 [_ [Hc1 _]]].
  rewrite <- E1 in Hs1, Hc1.
  assert (G1 : timedGuards m1) by (apply applyStepFl_timedGuards, G0).
  apply along_app in Hgo as [Hgo Hlast].
  destruct (charge_run fl s ss m1 G1 Hs1 Hgo) as [_ [Hs2 Hc2]].
  rewrite Hc1 in Hc2.
  set (m2 := runStepsFl fl ss m1) in *.
  destruct Hlast as [Hlast _].
  assert (Hfinal : held input = true /\
                   durationFl fl t (fighterOn s m2) <= OVERHEAT_TIME)
    by (destruct s; exact Hlast).
  destruct Hfinal as [Hh Hd].
  assert (Ef : f' = set_chargeLevel (levelFl fl (durationFl fl t (fighterOn s m2)))
                                    (fighterOn s m2)).
  { subst f'. rewrite runStepsFl_app. fold m2.
    change (runStepsFl fl [updateStep s t dt input] m2)
      with (applyStepFl fl (updateStep s t dt input) m2).
    destruct (own_update fl s t dt input m2) as [E _]. rewrite E.
    now rewrite (updateFl_hold_level fl _ _ _ _ Hs2 Hh Hd). }
  assert (El : chargeLevel f' = Qmin (fl (d / MAX_CHARGE_TIME)) 1).
  { rewrite Ef. cbn [chargeLevel set_chargeLevel].
    unfold levelFl, durationFl. rewrite Hc2. reflexivity. }
  split; [rewrite Ef; exact Hs2|]. split; [exact El|].
  rewrite El. split; [apply Q.le_min_r|]. split.
  - intros H0. unfold clamp.
    destruct (Q.min_spec (fl (d / MAX_CHARGE_TIME)) 1) as [[L E]|[L E]];
      rewrite E;
      destruct (Q.max_spec 0 (fl (d / MAX_CHARGE_TIME))) as [[L' E']|[L' E']];
      destruct (Q.max_spec 0 1) as [[L'' E'']|[L'' E'']];
      try rewrite E'; try rewrite E''; lra.
  - intros H1.
    destruct (Q.min_spec (fl (d / MAX_CHARGE_TIME)) 1) as [[L E]|[L E]];
      rewrite E; lra.
Qed.

Lemma C3_charge_level_while_held_witness :
  let steps := [StEvent (EvUpdateCpu 516 dt60 holdPunch);
                StEvent EvHitByCpu;
                StEvent (EvUpdatePlayer 501 dt60 holdPunch);
                StEvent EvHitByPlayer;
                StPush 410 1190] in
  let run t0 t :=
    player (runStepsFl double (steps ++ [StEvent (EvUpdatePlayer t dt60 holdPunch)])
              (applyStepFl double (StEvent (EvUpdatePlayer t0 dt60 holdPunch))
                 newMatch)) in
  (state (run 0 1000) = CHARGING /\ chargeLevel (run 0 1000) == 1) /\
  (state (run 1 1001) = CHARGING /\
   chargeLevel (run 1 1001) == 9007199254740991 # 9007199254740992 /\
   chargeLevel (run 1 1001) < 1).
Proof.
  intros steps run.
  destruct (C3_charge_level_while_held double PlayerSide [] steps
              0 dt60 1000 dt60 holdPunch holdPunch eq_refl) as [Hs [Hl _]].
  { unfold steps. cbn [along app chargeGoesOn updateStep].
    repeat split; try reflexivity; vm_compute; discriminate. }
  destruct (C3_charge_level_while_held double PlayerSide [] steps
              1 dt60 1001 dt60 holdPunch holdPunch eq_refl) as [Hs' [Hl' _]].
  { unfold steps. cbn [along app chargeGoesOn updateStep].
    repeat split; try reflexivity; vm_compute; discriminate. }
  split.
  - split; [exact Hs|].
    replace (chargeLevel (run 0 1000))
      with (Qmin (double (double (double (1000 / 1000) - double (0 / 1000))
                          / MAX_CHARGE_TIME)) 1)
      by (symmetry; exact Hl).
    vm_compute. reflexivity.
  - split; [exact Hs'|].
    replace (chargeLevel (run 1 1001))
      with (Qmin (double (double (double (1001 / 1000) - double (1 / 1000))
                          / MAX_CHARGE_TIME)) 1)
      by (symmetry; exact Hl').
    split; vm_compute; reflexivity.
Defined.

(** ** C4: overheating *)

(** C4, as the spec states it, in a match: the player overheats at 2100 ms;
    the cpu, in range, lands a punch on it, which leaves it STUNNED; the
    next frame, at 2132 ms, the held button starts a new charge, although
    the cooldown of the overheat has not fired and is still pending. The
    charge input is not ignored until the cooldown fires. *)
Lemma C4_counterexample_hit_while_overheated :
  let overheated :=
    runStepsFl double
      [StEvent (EvUpdateCpu 0 (27 # 16) (Input.mk (-1) 0 false false));
       StEvent (EvUpdatePlayer 0 dt60 holdPunch);
       StEvent (EvUpdateCpu 2000 dt60 holdPunch);
       StEvent (EvUpdatePlayer 2100 dt60 holdPunch)] newMatch in
  let hit :=
    runStepsFl double
      [StEvent (EvUpdateCpu 2116 dt60 neutral);
       StEvent EvHitByCpu] overheated in
  let next := applyStepFl double (StEvent (EvUpdatePlayer 2132 dt60 holdPunch)) hit in
  state (player overheated) = OVERHEATED /\
  playerTimers overheated = [OVERHEATED] /\
  x (cpu overheated) == 525 /\
  state (player hit) = STUNNED /\
  health (player hit) == 95 /\
  held holdPunch = true /\
  state (player next) = CHARGING /\
  attackType (player next) = PUNCH /\
  playerTimers next = [OVERHEATED; STUNNED].
Proof.
  repeat split; vm_compute; reflexivity.
Qed.

(** C4 (amended). A CHARGING fighter, on either side of a match, whose
    button is still held at a call that computes a duration above
    OVERHEAT_TIME becomes OVERHEATED with charge level 0, and the call
    schedules the guarded cooldown. Through any further steps of the match
    in which no hit lands on the fighter and its cooldown does not fire,
    the fighter is as it was but for its position, whatever the inputs of
    its [update] calls: it stays OVERHEATED with charge level 0, no charge
    starts, and the cooldown stays pending. The overheat ends in two ways.
    When the cooldown fires, it sets the state to IDLE. When the opponent,
    ATTACKING within range, hits the fighter, the fighter is STUNNED with
    the cooldown still pending, and its next [update] call with a button
    held starts a charge. *)
Theorem C4_overheat_until_cooldown_or_hit
        (fl : Q -> Q) (s : Side) (m0 : Match) (perfNow0 dt : Q) (input : Input.t)
        (ss : list Step) :
  state (fighterOn s m0) = CHARGING ->
  held input = true ->
  OVERHEAT_TIME < durationFl fl perfNow0 (fighterOn s m0) ->
  let m1 := applyStepFl fl (updateStep s perfNow0 dt input) m0 in
  along fl (overheatGoesOn fl s) ss m1 ->
  let m2 := runStepsFl fl ss m1 in
  let f1 := fighterOn s m1 in
  let f2 := fighterOn s m2 in
  (state f1 = OVERHEATED /\ chargeLevel f1 = 0 /\
   timersOn s m1 = timersOn s m0 ++ [OVERHEATED]) /\
  (movedOnly f1 f2 /\ state f2 = OVERHEATED /\ chargeLevel f2 = 0 /\
   In OVERHEATED (timersOn s m2)) /\
  (forall n, nth_error (timersOn s m2) n = Some OVERHEATED ->
             state (fighterOn s (applyStepFl fl (timerStep s n) m2)) = IDLE) /\
  (state (fighterOn (opponentOf s) m2) = ATTACKING ->
   Qabs (x (fighterOn (opponentOf s) m2) - x f2) <= attackRange ->
   let m3 := applyStepFl fl (hitStep s) m2 in
   state (fighterOn s m3) = STUNNED /\
   In OVERHEATED (timersOn s m3) /\
   forall perfNow' dt' input',
     held input' = true ->
     let f4 := fighterOn s (applyStepFl fl (updateStep s perfNow' dt' input') m3) in
     state f4 = CHARGING /\ chargeLevel f4 = 0).
Proof.
  intros Hs Hh Hd m1 Hgo m2 f1 f2.
  destruct (own_update fl s perfNow0 dt input m0) as [E1 [T1 _]].
  fold m1 in E1, T1.
  assert (Hu : updateFl fl perfNow0 dt input (fighterOn s m0)
               = (set_chargeLevel 0
                    (set_state OVERHEATED
                       (set_chargeLevel
                          (levelFl fl (durationFl fl perfNow0 (fighterOn s m0)))
                          (fighterOn s m0))),
                  [SetTimeout 1000 OVERHEATED])).
  { rewrite (updateFl_hold fl _ _ _ _ Hs Hh).
    apply Qlt_bool_iff in Hd. now rewrite Hd. }
  rewrite Hu in E1, T1. cbn [fst snd timersOf] in E1, T1.
  assert (Hs1 : state f1 = OVERHEATED) by (subst f1; now rewrite E1).
  assert (Hl1 : chargeLevel f1 = 0) by (subst f1; now rewrite E1).
  assert (Hin1 : In OVERHEATED (timersOn s m1))
    by (rewrite T1; apply in_or_app; right; now left).
  destruct (overheat_run fl s ss m1 Hs1 Hin1 Hgo) as [Hm Hin2].
  fold m2 in Hm, Hin2. fold f1 f2 in Hm.
  destruct (movedOnly_fields _ _ Hm) as [Es [El _]].
  assert (Hs2 : state f2 = OVERHEATED) by (now rewrite Es).
  split; [split; [exact Hs1 | split; [exact Hl1 | exact T1]]|].
  split; [split; [exact Hm | split; [exact Hs2 | split;
                                      [now rewrite El | exact Hin2]]]|].
  split; [intros n Hn; now apply cooldown_fires|].
  intros Ha Hr m3.
  destruct (hit_lands fl s m2 Ha Hr) as [E3 T3].
  { fold f2. now rewrite Hs2. }
  fold m3 in E3, T3.
  assert (Hs3 : state (fighterOn s m3) = STUNNED) by (now rewrite E3).
  split; [exact Hs3|].
  split; [rewrite T3; apply in_or_app; now left|].
  intros perfNow' dt' input' Hh' f4.
  destruct (own_update fl s perfNow' dt' input' m3) as [E4 _].
  subst f4. rewrite E4, (updateFl_stunned_held fl _ _ _ _ Hs3 Hh').
  split; reflexivity.
Qed.

Lemma C4_overheat_until_cooldown_or_hit_witness :
  let m0 := applyStepFl double (StEvent (EvUpdatePlayer 2001 dt60 holdPunch))
              newMatch in
  let m1 := applyStepFl double (StEvent (EvUpdatePlayer 4001 dt60 holdPunch)) m0 in
  let m2 := runStepsFl double
              [StEvent (EvUpdatePlayer 4017 dt60 holdKick);
               StEvent (EvUpdateCpu 4017 dt60 neutral);
               StEvent EvHitByPlayer;
               StEvent EvHitByCpu;
               StEvent (EvUpdatePlayer 4033 dt60 (Input.mk 1 1 true true))] m1 in
  durationFl double 4001 (player m0) == 9007199254740994 # 4503599627370496 /\
  state (player m1) = OVERHEATED /\
  state (player m2) = OVERHEATED /\ chargeLevel (player m2) = 0 /\
  state (player (applyStepFl double (StEvent (EvPlayerTimer 0)) m2)) = IDLE.
Proof.
  intros m0 m1 m2.
  assert (Hd : OVERHEAT_TIME < durationFl double 4001 (player m0))
    by (vm_compute; reflexivity).
  destruct (C4_overheat_until_cooldown_or_hit double PlayerSide m0 4001 dt60
              holdPunch
              [StEvent (EvUpdatePlayer 4017 dt60 holdKick);
               StEvent (EvUpdateCpu 4017 dt60 neutral);
               StEvent EvHitByPlayer;
               StEvent EvHitByCpu;
               StEvent (EvUpdatePlayer 4033 dt60 (Input.mk 1 1 true true))]
              eq_refl eq_refl Hd)
    as [[H1 _] [[_ [H2 [H3 _]]] [H4 _]]].
  - cbn. repeat split.
  - split; [vm_compute; reflexivity|].
    split; [exact H1|]. split; [exact H2|]. split; [exact H3|].
    apply (H4 0%nat). reflexivity.
Defined.

(** ** C5: wind-up progress *)



(** ** C6: the up input on a grounded fighter *)

Lemma runUpdates_y (calls : list Call) :
  forall f, y (runUpdates calls f) = y f.
Proof.
  induction calls as [|c calls IH]; intros f; [reflexivity|].
  simpl. rewrite IH. apply update_y.
Qed.

(** C6, as the spec states it, on a fresh fighter: the up input
    (input.y = 1 > 0.5) is held for a frame, released, asserted again and
    released. The states are BLOCKING_HIGH, IDLE, BLOCKING_HIGH, IDLE (the
    state type has no JUMPING) and the vertical position is GROUND_Y after
    every call: it never leaves the ground. *)
Lemma C6_counterexample_no_jump :
  let tr := trace [mkCall 0 dt60 pressUp; mkCall 16 dt60 neutral;
                   mkCall 32 dt60 pressUp; mkCall 48 dt60 neutral]
                  (newFighter "testPlayer" 500) in
  (1 # 2) < Input.y pressUp /\
  map state tr = [BLOCKING_HIGH; IDLE; BLOCKING_HIGH; IDLE] /\
  map y tr = [GROUND_Y; GROUND_Y; GROUND_Y; GROUND_Y] /\
  ~ (exists f, In f tr /\ ~ y f == GROUND_Y).
Proof.
  repeat split.
  intros [f [Hin Hy]]. apply Hy. simpl in Hin.
  repeat (destruct Hin as [Hin|Hin]; [subst f; vm_compute; reflexivity|]).
  contradiction.
Qed.

(** C6 (amended). For a grounded fighter in state IDLE, the call that reads
    input.y > 0.5 sets the state to BLOCKING_HIGH, and a following call with
    neutral y and no button held sets it back to IDLE: the state sequence is
    IDLE, BLOCKING_HIGH, IDLE. The vertical position is exactly at ground
    level after any sequence of calls, whatever their inputs. *)
Theorem C6_up_input_blocks_high
        (f : Fighter) (up rel : Call) (calls : list Call) :
  state f = IDLE ->
  y f = GROUND_Y ->
  (1 # 2) < Input.y (inputOf up) ->
  - (1 # 2) <= Input.y (inputOf rel) -> Input.y (inputOf rel) <= (1 # 2) ->
  held (inputOf rel) = false ->
  state (call up f) = BLOCKING_HIGH /\
  state (call rel (call up f)) = IDLE /\
  y (call up f) = GROUND_Y /\
  y (call rel (call up f)) = GROUND_Y /\
  y (runUpdates calls f) = GROUND_Y.
Proof.
  intros Hs Hy Hup Hlo Hhi Hrel.
  assert (H1 : state (call up f) = BLOCKING_HIGH).
  { unfold call, update, blockingLogic. rewrite Hs. simpl.
    apply Qlt_bool_iff in Hup. rewrite Hup. simpl.
    destruct (Input.punchHeld (inputOf up) || Input.kickHeld (inputOf up));
      reflexivity. }
  assert (H2 : state (call rel (call up f)) = IDLE).
  { unfold call at 1. unfold update, blockingLogic. rewrite H1. simpl.
    apply Qlt_bool_false_iff in Hlo, Hhi. rewrite Hlo, Hhi. simpl.
    unfold held in Hrel. rewrite Hrel. reflexivity. }
  repeat split; auto.
  - unfold call. now rewrite update_y.
  - unfold call. now rewrite !update_y.
  - now rewrite runUpdates_y.
Qed.

Lemma C6_up_input_blocks_high_witness :
  let f := newFighter "testPlayer" 500 in
  state (call (mkCall 0 dt60 pressUp) f) = BLOCKING_HIGH /\
  state (call (mkCall 16 dt60 neutral) (call (mkCall 0 dt60 pressUp) f)) = IDLE /\
  y (runUpdates [mkCall 0 dt60 pressUp; mkCall 16 dt60 pressUp] f) = GROUND_Y.
Proof.
  intros f.
  assert (Hup : (1 # 2) < Input.y (inputOf (mkCall 0 dt60 pressUp)))
    by (vm_compute; reflexivity).
  assert (Hlo : - (1 # 2) <= Input.y (inputOf (mkCall 16 dt60 neutral)))
    by (vm_compute; discriminate).
  assert (Hhi : Input.y (inputOf (mkCall 16 dt60 neutral)) <= (1 # 2))
    by (vm_compute; discriminate).
  destruct (C6_up_input_blocks_high f (mkCall 0 dt60 pressUp) (mkCall 16 dt60 neutral)
              [mkCall 0 dt60 pressUp; mkCall 16 dt60 pressUp]
              eq_refl eq_refl Hup Hlo Hhi eq_refl) as [H1 [H2 [_ [_ H3]]]].
  split; [exact H1 | split; [exact H2 | exact H3]].
Defined.

(** ** C7: the health of both fighters *)

Lemma Qmax0_sub_bounds (h d : Q) :
  0 <= h -> h <= 100 -> 0 <= d ->
  0 <= Qmax 0 (h - d) /\ Qmax 0 (h - d) <= 100.
Proof.
  intros H0 H1 Hd.
  destruct (Q.max_spec 0 (h - d)) as [[L E]|[L E]]; rewrite E; lra.
Qed.

(** Hit detection never touches the health of the attacker, and writes the
    health of the defender only through max(0, .). *)
Lemma checkHit_health (attacker defender : Fighter) :
  let '(attacker', defender', _) := checkHitForAttacker attacker defender in
  health attacker' = health attacker /\
  (healthInRange defender -> healthInRange defender').
Proof.
  unfold checkHitForAttacker, healthInRange.
  destruct (negb (FighterState_eqb (state attacker) ATTACKING)); [now split|].
  destruct (Qlt_bool attackRange (Qabs (x attacker - x defender))); [now split|].
  destruct (isBlockedHigh attacker defender || isBlockedLow attacker defender);
    [now split|].
  destruct (isBlockedMid attacker defender); simpl; (split; [reflexivity|]);
    intros [H0 H1]; apply Qmax0_sub_bounds; auto.
  - unfold chipDamage. lra.
  - apply baseDamage_nonneg.
Qed.

Lemma fireTimeout_health (g : FighterState) (f : Fighter) :
  health (fireTimeout g f) = health f.
Proof. unfold fireTimeout. now destruct (FighterState_eqb (state f) g). Qed.

Lemma applyEvent_health (e : Event) (m : Match) :
  matchHealthInRange m -> matchHealthInRange (applyEvent e m).
Proof.
  unfold matchHealthInRange, healthInRange. intros [Hp Hc].
  destruct e as [perfNow0 dt input|perfNow0 dt input| | |n|n]; simpl.
  - unfold updatePlayer.
    pose proof (update_health perfNow0 dt input (player m)) as E.
    destruct (update perfNow0 dt input (player m)) as [p es]. simpl in *.
    rewrite E. now split.
  - unfold updateCpu.
    pose proof (update_health perfNow0 dt input (cpu m)) as E.
    destruct (update perfNow0 dt input (cpu m)) as [c es]. simpl in *.
    rewrite E. now split.
  - unfold hitByPlayer.
    pose proof (checkHit_health (player m) (cpu m)) as H.
    destruct (checkHitForAttacker (player m) (cpu m)) as [[p c] es].
    destruct H as [Ea Hd]. simpl. rewrite Ea. split; [exact Hp | now apply Hd].
  - unfold hitByCpu.
    pose proof (checkHit_health (cpu m) (player m)) as H.
    destruct (checkHitForAttacker (cpu m) (player m)) as [[c p] es].
    destruct H as [Ea Hd]. simpl. rewrite Ea. split; [now apply Hd | exact Hc].
  - unfold firePlayerTimer. destruct (nth_error (playerTimers m) n); simpl.
    + rewrite fireTimeout_health. now split.
    + now split.
  - unfold fireCpuTimer. destruct (nth_error (cpuTimers m) n); simpl.
    + rewrite fireTimeout_health. now split.
    + now split.
Qed.

Lemma runEvents_health (es : list Event) :
  forall m, matchHealthInRange m -> matchHealthInRange (runEvents es m).
Proof.
  induction es as [|e es IH]; intros m Hm; [exact Hm|].
  simpl. apply IH. now apply applyEvent_health.
Qed.

(** C7. Both fighters are constructed with health 100, and in every
    reachable state of a match (after any sequence of [update] calls,
    hit-detection steps and timer firings) the health of each fighter is in
    [0,100]: every damage application writes max(0, health - damage), never
    a negative value. *)
Theorem C7_health_in_range (m : Match) :
  reachable m ->
  health (player newMatch) == 100 /\ health (cpu newMatch) == 100 /\
  (0 <= health (player m) /\ health (player m) <= 100 /\
   0 <= health (cpu m) /\ health (cpu m) <= 100) /\
  (forall attacker defender,
      0 <= health (snd (fst (checkHitForAttacker attacker defender)))
      \/ snd (fst (checkHitForAttacker attacker defender)) = defender).
Proof.
  intros [es Hm]. split; [reflexivity|]. split; [reflexivity|]. split.
  - assert (H0 : matchHealthInRange newMatch).
    { unfold matchHealthInRange, healthInRange. simpl. repeat split; lra. }
    destruct (runEvents_health es newMatch H0) as [[A B] [C D]].
    rewrite Hm. auto.
  - intros attacker defender. unfold checkHitForAttacker.
    destruct (negb (FighterState_eqb (state attacker) ATTACKING)); [now right|].
    destruct (Qlt_bool attackRange (Qabs (x attacker - x defender))); [now right|].
    destruct (isBlockedHigh attacker defender || isBlockedLow attacker defender);
      [now right|].
    destruct (isBlockedMid attacker defender); left; simpl; apply Q.le_max_l.
Qed.

(** The player walks up to the cpu, charges a kick and releases it; the hit
    lands. *)
Lemma C7_health_in_range_witness :
  let m := runEvents [EvUpdatePlayer 0 2 (Input.mk 1 0 false false);
                      EvUpdatePlayer 2000 dt60 holdKick;
                      EvUpdatePlayer 2500 dt60 holdKick;
                      EvUpdatePlayer 2516 dt60 neutral;
                      EvHitByPlayer; EvCpuTimer 0] newMatch in
  reachable m /\ health (cpu m) == 93 /\
  0 <= health (cpu m) /\ health (cpu m) <= 100.
Proof.
  intros m.
  assert (Hr : reachable m) by (eexists; reflexivity).
  destruct (C7_health_in_range m Hr) as [_ [_ [[_ [_ [H1 H2]]] _]]].
  split; [exact Hr|]. split; [vm_compute; reflexivity|].
  split; [exact H1 | exact H2].
Defined.

(** ** C8: blocked hits leave the attacker as it is *)

Lemma checkHit_mid_block (a d : Fighter) :
  state a = ATTACKING ->
  attackHeight a = MID ->
  isBlockingState (state d) = true ->
  Qabs (x a - x d) <= attackRange ->
  checkHitForAttacker a d = (a, chip d, []).
Proof.
  intros Hs Hh Hb Hr. rewrite (checkHit_in_range _ _ Hs Hr).
  unfold isBlockedHigh, isBlockedLow, isBlockedMid. rewrite Hh.
  unfold isBlockingState in Hb. rewrite Hb. simpl.
  rewrite !andb_false_r. reflexivity.
Qed.

Lemma checkHit_by_blocker (a d : Fighter) :
  isBlockingState (state d) = true ->
  checkHitForAttacker d a = (d, a, []).
Proof.
  intros Hb. apply checkHit_not_attacking. intros E. rewrite E in Hb. discriminate.
Qed.

Lemma update_blocking_held (perfNow0 dt : Q) (input : Input.t) (f : Fighter) :
  isBlockingState (state f) = true ->
  holdsBlock input = true ->
  exists s, isBlockingState s = true /\
            update perfNow0 dt input f = (set_state s f, []).
Proof.
  intros Hb Hh. unfold holdsBlock in Hh.
  exists (if Qlt_bool (1 # 2) (Input.y input) then BLOCKING_HIGH else BLOCKING_LOW).
  split; [now destruct (Qlt_bool (1 # 2) (Input.y input))|].
  unfold update, blockingLogic, movementLogic.
  destruct (state f) eqn:Hs; try discriminate; simpl;
    destruct (Qlt_bool (1 # 2) (Input.y input)); simpl in *;
    try rewrite Hh; simpl;
    destruct (Input.punchHeld input || Input.kickHeld input); reflexivity.
Qed.

Lemma sameAttack_refl (a : Fighter) : sameAttack a a.
Proof. repeat split. Qed.

Lemma sameAttack_trans (a b c : Fighter) :
  sameAttack a b -> sameAttack b c -> sameAttack a c.
Proof. unfold sameAttack. intuition congruence. Qed.

Lemma checkHits_chip (s : Side) (m : Match) :
  chipSituation s m ->
  let m' := checkHits m in
  attackerOf s m' = attackerOf s m /\
  defenderOf s m' = chip (defenderOf s m).
Proof.
  intros [Hs [Hh [Hb Hr]]]. unfold checkHits. destruct s; simpl in *.
  - unfold hitByPlayer. rewrite (checkHit_mid_block _ _ Hs Hh Hb Hr).
    unfold hitByCpu. simpl. rewrite checkHit_by_blocker by exact Hb. now split.
  - unfold hitByPlayer. rewrite checkHit_by_blocker by exact Hb.
    unfold hitByCpu. simpl. rewrite (checkHit_mid_block _ _ Hs Hh Hb Hr). now split.
Qed.

Lemma updates_keep_chipSituation (s : Side) (t : Tick) (m : Match) :
  chipSituation s m ->
  holdsBlock (defenderInput s t) = true ->
  let m' := updateCpu (nowC t) (dtT t) (cpuInput t)
              (updatePlayer (nowP t) (dtT t) (playerInput t) m) in
  chipSituation s m' /\
  attackerOf s m' = attackerOf s m /\
  health (defenderOf s m') = health (defenderOf s m).
Proof.
  intros [Hs [Hh [Hb Hr]]] Hin. unfold chipSituation. destruct s; simpl in *.
  - unfold updatePlayer. rewrite (update_attacking _ _ _ _ Hs).
    unfold updateCpu. simpl.
    destruct (update_blocking_held (nowC t) (dtT t) (cpuInput t) (cpu m) Hb Hin)
      as [s' [Hs' E]].
    rewrite E. simpl. repeat split; auto.
  - destruct (update_blocking_held (nowP t) (dtT t) (playerInput t) (player m) Hb Hin)
      as [s' [Hs' E]].
    unfold updatePlayer. rewrite E. unfold updateCpu. simpl.
    rewrite (update_attacking _ _ _ _ Hs). simpl. repeat split; auto.
Qed.

Lemma Qmax0_chip_twice (h b : Q) :
  0 <= b ->
  Qmax 0 (Qmax 0 (h - chipDamage) - chipDamage * b)
  == Qmax 0 (h - chipDamage * (1 + b)).
Proof.
  intros Hb. unfold chipDamage.
  destruct (Q.max_spec 0 (h - 2)) as [[L E]|[L E]];
    destruct (Q.max_spec 0 (Qmax 0 (h - 2) - 2 * b)) as [[L1 E1]|[L1 E1]];
    destruct (Q.max_spec 0 (h - 2 * (1 + b))) as [[L2 E2]|[L2 E2]];
    rewrite E1, E2; rewrite E in *; lra.
Qed.

Section ChipEveryTick.

Variable checkCollision : Fighter -> Fighter -> bool.
Variable resolvePushCollision : Fighter -> Fighter -> Fighter * Fighter.

(** What is assumed of the push-apart correction: it writes positions only,
    and leaves the two fighters no further apart than the attack range (the
    spec has it leave them exactly FIGHTER_WIDTH apart). *)
Hypothesis resolve_positions_only :
  forall a b, checkCollision a b = true ->
    let r := resolvePushCollision a b in
    fst r = set_x (x (fst r)) a /\ snd r = set_x (x (snd r)) b /\
    Qabs (x (fst r) - x (snd r)) <= attackRange.

Lemma collide_keeps_chipSituation (s : Side) (m : Match) :
  chipSituation s m ->
  let m' := collide checkCollision resolvePushCollision m in
  chipSituation s m' /\
  sameAttack (attackerOf s m) (attackerOf s m') /\
  health (defenderOf s m') = health (defenderOf s m).
Proof.
  intros Hc. unfold collide.
  destruct (checkCollision (player m) (cpu m)) eqn:E.
  - destruct (resolve_positions_only _ _ E) as [Hp [Hq Hr]].
    destruct (resolvePushCollision (player m) (cpu m)) as [p c].
    cbn [fst snd] in Hp, Hq, Hr.
    destruct Hc as [Hs [Hh [Hb Hd]]]. unfold chipSituation, sameAttack.
    destruct s; cbn [attackerOf defenderOf player cpu] in *;
      rewrite Hp, Hq;
      cbn [x state attackHeight attackType chargeLevel health set_x];
      repeat split; auto.
    rewrite Qabs_Qminus. exact Hr.
  - split; [exact Hc|]. split; [apply sameAttack_refl | reflexivity].
Qed.

Lemma tick_chips (s : Side) (t : Tick) (m : Match) :
  chipSituation s m ->
  holdsBlock (defenderInput s t) = true ->
  chipSituation s (tick checkCollision resolvePushCollision t m) /\
  sameAttack (attackerOf s m) (attackerOf s (tick checkCollision resolvePushCollision t m)) /\
  health (defenderOf s (tick checkCollision resolvePushCollision t m)) = Qmax 0 (health (defenderOf s m) - chipDamage).
Proof.
  intros Hc Hin. unfold tick, simulate.
  destruct (updates_keep_chipSituation s t m Hc Hin) as [H1 [A1 D1]].
  set (m1 := updateCpu _ _ _ _) in *.
  destruct (collide_keeps_chipSituation s m1 H1) as [H2 [A2 D2]].
  set (m2 := collide _ _ m1) in *.
  destruct (checkHits_chip s m2 H2) as [A3 D3].
  set (m3 := checkHits m2) in *.
  rewrite <- A1. split; [|split].
  - destruct H2 as [Hs [Hh [Hb Hr]]]. unfold chipSituation.
    rewrite A3, D3. now repeat split.
  - rewrite A3. exact A2.
  - rewrite D3. unfold chip. simpl. now rewrite D2, D1.
Qed.

Lemma inject_succ (n : nat) :
  inject_Z (Z.of_nat (S n)) == 1 + inject_Z (Z.of_nat n).
Proof.
  rewrite Nat2Z.inj_succ. unfold Z.succ. rewrite inject_Z_plus. simpl. ring.
Qed.

Lemma inject_nat_nonneg (n : nat) : 0 <= inject_Z (Z.of_nat n).
Proof.
  change 0 with (inject_Z 0). rewrite <- Zle_Qle. apply Nat2Z.is_nonneg.
Qed.

Lemma runTicks_chips (s : Side) (ts : list Tick) :
  forall m,
    chipSituation s m ->
    0 <= health (defenderOf s m) ->
    Forall (fun t => holdsBlock (defenderInput s t) = true) ts ->
    chipSituation s (runTicks checkCollision resolvePushCollision ts m) /\
    sameAttack (attackerOf s m) (attackerOf s (runTicks checkCollision resolvePushCollision ts m)) /\
    health (defenderOf s (runTicks checkCollision resolvePushCollision ts m))
    == Qmax 0 (health (defenderOf s m)
               - chipDamage * inject_Z (Z.of_nat (List.length ts))).
Proof.
  induction ts as [|t ts IH]; intros m Hc Hh Hall.
  - cbn [runTicks fold_left List.length]. split; [exact Hc|].
    split; [apply sameAttack_refl|].
    change (inject_Z (Z.of_nat 0)) with 0.
    destruct (Q.max_spec 0 (health (defenderOf s m) - chipDamage * 0))
      as [[L E]|[L E]]; rewrite E; lra.
  - inversion Hall as [|t' ts' Ht Hall']; subst t' ts'.
    destruct (tick_chips s t m Hc Ht) as [H1 [A1 D1]].
    assert (Hh1 : 0 <= health (defenderOf s (tick checkCollision resolvePushCollision t m)))
      by (rewrite D1; apply Q.le_max_l).
    destruct (IH (tick checkCollision resolvePushCollision t m) H1 Hh1 Hall') as [H2 [A2 D2]].
    change (runTicks checkCollision resolvePushCollision (t :: ts) m) with (runTicks checkCollision resolvePushCollision ts (tick checkCollision resolvePushCollision t m)).
    split; [exact H2|]. split; [exact (sameAttack_trans _ _ _ A1 A2)|].
    rewrite D2, D1. cbn [List.length]. rewrite inject_succ.
    apply Qmax0_chip_twice, inject_nat_nonneg.
Qed.

End ChipEveryTick.

Lemma resolvePushCollisionSpec_positions_only (a b : Fighter) :
  checkCollisionSpec a b = true ->
  let r := resolvePushCollisionSpec a b in
  fst r = set_x (x (fst r)) a /\ snd r = set_x (x (snd r)) b /\
  Qabs (x (fst r) - x (snd r)) <= attackRange.
Proof.
  intros _. unfold resolvePushCollisionSpec.
  destruct (Qlt_bool (x a) (x b)) eqn:E; cbn [fst snd x set_x];
    (split; [reflexivity|]); (split; [reflexivity|]);
    apply Qabs_Qle_condition; unfold attackRange, FIGHTER_WIDTH.
  - apply Qlt_bool_iff in E.
    assert (Ha : Qabs (x a - x b) == - (x a - x b)) by (apply Qabs_neg; lra).
    rewrite Ha. split; lra.
  - apply Qlt_bool_false_iff in E.
    assert (Ha : Qabs (x a - x b) == x a - x b) by (apply Qabs_pos; lra).
    rewrite Ha. split; lra.
Qed.

(** C8. On the perfect-block and chip-damage branches of hit detection the
    attacker comes back unchanged in every field; only the remaining branch
    resets it (to IDLE, attack type NONE). Hence, for a MID attack against a
    blocking defender in range: through every tick of the game loop in
    which the defender keeps a block input (and no timer fires in
    between), the attacker stays ATTACKING with the same attack and the
    chip amount is subtracted again, the defender's health after n ticks
    being max(0, health - 2 n). The push-apart correction of the missing
    [Collision.ts] is assumed to write positions only and to leave the
    fighters within attack range. *)
Theorem C8_blocked_hit_keeps_attacker
        (checkCollision : Fighter -> Fighter -> bool)
        (resolvePushCollision : Fighter -> Fighter -> Fighter * Fighter)
        (attacker defender : Fighter)
        (s : Side) (ts : list Tick) (m : Match) :
  (forall a b, checkCollision a b = true ->
     let r := resolvePushCollision a b in
     fst r = set_x (x (fst r)) a /\ snd r = set_x (x (snd r)) b /\
     Qabs (x (fst r) - x (snd r)) <= attackRange) ->
  state attacker = ATTACKING ->
  Qabs (x attacker - x defender) <= attackRange ->
  chipSituation s m ->
  0 <= health (defenderOf s m) ->
  Forall (fun t => holdsBlock (defenderInput s t) = true) ts ->
  (heightMatchedBlock attacker defender \/ midAgainstBlock attacker defender ->
   fst (fst (checkHitForAttacker attacker defender)) = attacker) /\
  (~ heightMatchedBlock attacker defender ->
   ~ midAgainstBlock attacker defender ->
   fst (fst (checkHitForAttacker attacker defender)) = resetAttacker attacker) /\
  (let m' := runTicks checkCollision resolvePushCollision ts m in
   chipSituation s m' /\
   sameAttack (attackerOf s m) (attackerOf s m') /\
   health (defenderOf s m')
   == Qmax 0 (health (defenderOf s m)
              - chipDamage * inject_Z (Z.of_nat (List.length ts)))).
Proof.
  intros Hres Hs Hr Hc Hh Hall. split; [|split].
  - intros Hb. rewrite (checkHit_in_range _ _ Hs Hr).
    unfold isBlockedHigh, isBlockedLow, isBlockedMid.
    destruct (state defender) eqn:Sd, (attackHeight attacker) eqn:Ha;
      try reflexivity; exfalso; block_cases.
  - intros N1 N2. rewrite (checkHit_in_range _ _ Hs Hr).
    unfold isBlockedHigh, isBlockedLow, isBlockedMid.
    destruct (state defender) eqn:Sd, (attackHeight attacker) eqn:Ha;
      try reflexivity; exfalso;
      first [apply N1; unfold heightMatchedBlock; now auto
            |apply N2; unfold midAgainstBlock; now auto].
  - now apply runTicks_chips.
Qed.

Lemma C8_blocked_hit_keeps_attacker_witness :
  let attacker := set_state ATTACKING (newFighter "player" 400) in
  let defender := set_state BLOCKING_HIGH (newFighter "cpu" 450) in
  let m := mkMatch attacker defender [] [] in
  let ts := [mkTick 0 0 dt60 neutral pressUp; mkTick 16 16 dt60 holdPunch pressDown] in
  let m' := runTicks checkCollisionSpec resolvePushCollisionSpec ts m in
  chipSituation PlayerSide m /\
  midAgainstBlock attacker defender /\
  fst (fst (checkHitForAttacker attacker defender)) = attacker /\
  state (player m') = ATTACKING /\
  health (cpu m') == 96.
Proof.
  intros attacker defender m ts m'.
  assert (Hr : Qabs (x attacker - x defender) <= attackRange)
    by (vm_compute; discriminate).
  assert (Hc : chipSituation PlayerSide m) by (repeat split; exact Hr).
  assert (Hh : 0 <= health (defenderOf PlayerSide m)) by (vm_compute; discriminate).
  assert (Hall : Forall (fun t => holdsBlock (defenderInput PlayerSide t) = true) ts)
    by (repeat constructor).
  assert (Hm : midAgainstBlock attacker defender)
    by (split; [left|]; reflexivity).
  destruct (C8_blocked_hit_keeps_attacker
              checkCollisionSpec resolvePushCollisionSpec attacker defender
              PlayerSide ts m resolvePushCollisionSpec_positions_only
              eq_refl Hr Hc Hh Hall) as [F [_ [_ [[S _] D]]]].
  split; [exact Hc|]. split; [exact Hm|]. split; [exact (F (or_intror Hm))|].
  split.
  - cbn [attackerOf] in S. fold m' in S. rewrite S. reflexivity.
  - cbn [defenderOf] in D. fold m' in D.
    eapply Qeq_trans; [exact D | vm_compute; reflexivity].
Defined.

(** ** C9: the win check *)

(** C9. Whatever the collision functions, the clock readings and the
    inputs: when both fighters have health <= 0 after the hit detection of
    a tick, [update] invokes handleWin (the cpu's health is tested first)
    and not handleLoss. *)
Theorem C9_win_checked_first
        (checkCollision : Fighter -> Fighter -> bool)
        (resolvePushCollision : Fighter -> Fighter -> Fighter * Fighter)
        (nowP0 nowC0 dt : Q) (playerInput0 cpuInput0 : Input.t) (m : Match) :
  let r := fmUpdate checkCollision resolvePushCollision
                    nowP0 nowC0 dt playerInput0 cpuInput0 m in
  health (cpu (fst r)) <= 0 ->
  health (player (fst r)) <= 0 ->
  snd r = HandleWin /\ snd r <> HandleLoss.
Proof.
  intros r Hc _. subst r. unfold fmUpdate in *. cbn [fst snd] in *.
  unfold winCondition. apply Qle_bool_iff in Hc. rewrite Hc.
  split; [reflexivity | discriminate].
Qed.

Lemma C9_win_checked_first_witness :
  let m := mkMatch (set_health 0 (newFighter "player" 400))
                   (set_health 0 (newFighter "cpu" 1200)) [] [] in
  let r := fmUpdate checkCollisionSpec resolvePushCollisionSpec
                    0 0 dt60 neutral neutral m in
  health (cpu (fst r)) <= 0 /\ health (player (fst r)) <= 0 /\
  snd r = HandleWin /\ snd r <> HandleLoss.
Proof.
  intros m r.
  assert (Hc : health (cpu (fst r)) <= 0) by (vm_compute; discriminate).
  assert (Hp : health (player (fst r)) <= 0) by (vm_compute; discriminate).
  split; [exact Hc|]. split; [exact Hp|].
  exact (C9_win_checked_first checkCollisionSpec resolvePushCollisionSpec
           0 0 dt60 neutral neutral m Hc Hp).
Defined.

(** ** C10: the mask of the diagnostics endpoint *)

Section MaskValueFacts.

Local Open Scope string_scope.
Local Open Scope nat_scope.

Example MaskValue_null : MaskValue None = None.
Proof. reflexivity. Qed.

Example MaskValue_short : MaskValue (Some "secret") = Some "***".
Proof. reflexivity. Qed.

Example MaskValue_long :
  MaskValue (Some "Server=tcp:db;Pwd=hunter2") = Some "Ser*******************er2".
Proof. reflexivity. Qed.

Lemma length_append (s1 s2 : string) :
  String.length (s1 ++ s2) = String.length s1 + String.length s2.
Proof. induction s1 as [|c s1 IH]; simpl; [reflexivity | now rewrite IH]. Qed.

Lemma length_substring (s : string) :
  forall n m, n + m <= String.length s -> String.length (substring n m s) = m.
Proof.
  induction s as [|c s IH]; intros n m H; simpl in *.
  - destruct n, m; simpl; lia.
  - destruct n as [|n]; [destruct m as [|m]|]; simpl.
    + reflexivity.
    + f_equal. apply IH. lia.
    + apply IH. lia.
Qed.

Lemma length_newString (c : ascii) (n : nat) : String.length (newString c n) = n.
Proof. induction n as [|n IH]; simpl; [reflexivity | now rewrite IH]. Qed.

Lemma get_newString (c : ascii) (n : nat) :
  forall i, i < n -> get i (newString c n) = Some c.
Proof.
  induction n as [|n IH]; intros i Hi; [lia|].
  destruct i as [|i]; simpl; [reflexivity | apply IH; lia].
Qed.

Lemma masked_get (v : string) :
  6 < String.length v ->
  String.length (masked v) = String.length v /\
  (forall i, i < 3 -> get i (masked v) = get i v) /\
  (forall i, 3 <= i < String.length v - 3 -> get i (masked v) = Some "*"%char) /\
  (forall i, String.length v - 3 <= i < String.length v ->
             get i (masked v) = get i v).
Proof.
  intros Hlen. unfold masked.
  set (n := String.length v) in *.
  assert (L1 : String.length (substring 0 3 v) = 3)
    by (apply length_substring; fold n; lia).
  assert (L3 : String.length (substring (n - 3) 3 v) = 3)
    by (apply length_substring; fold n; lia).
  assert (L2 : String.length (newString "*" (n - 6)) = n - 6)
    by apply length_newString.
  split; [|split; [|split]].
  - rewrite !length_append, L1, L2, L3. lia.
  - intros i Hi. rewrite <- append_correct1 by (rewrite L1; exact Hi).
    rewrite substring_correct1 by exact Hi. f_equal. lia.
  - intros i Hi. replace i with ((i - 3) + String.length (substring 0 3 v))
      by (rewrite L1; lia).
    rewrite <- append_correct2.
    rewrite <- append_correct1 by (rewrite L2; lia).
    apply get_newString. lia.
  - intros i Hi. replace i with ((i - 3) + String.length (substring 0 3 v)) at 1
      by (rewrite L1; lia).
    rewrite <- append_correct2.
    replace (i - 3) with ((i - (n - 3)) + String.length (newString "*" (n - 6)))
      by (rewrite L2; lia).
    rewrite <- append_correct2.
    rewrite substring_correct1 by lia. f_equal. lia.
Qed.

(** C10. A null value stays null. A value of length <= 6 is masked to the
    constant "***", which depends on none of its characters. A value of
    length > 6 is masked to a string of the same length that has the
    characters of the value at its first three and its last three
    positions, and the mask character '*' at every position in between. *)
Theorem C10_mask_value (v : string) :
  MaskValue None = None /\
  (String.length v <= 6 -> MaskValue (Some v) = Some "***") /\
  (6 < String.length v ->
   exists r,
     MaskValue (Some v) = Some r /\
     String.length r = String.length v /\
     (forall i, i < 3 -> get i r = get i v) /\
     (forall i, 3 <= i < String.length v - 3 -> get i r = Some "*"%char) /\
     (forall i, String.length v - 3 <= i < String.length v -> get i r = get i v)).
Proof.
  split; [reflexivity|]. split.
  - intros H. unfold MaskValue, IsNullOrEmpty, lengthAtMost6.
    apply Nat.leb_le in H. rewrite H. now rewrite orb_true_r.
  - intros H. exists (masked v). split; [|now apply masked_get].
    unfold MaskValue, IsNullOrEmpty, lengthAtMost6.
    assert (E1 : (String.length v =? 0) = false) by (apply Nat.eqb_neq; lia).
    assert (E2 : (String.length v <=? 6) = false) by (apply Nat.leb_gt; lia).
    rewrite E1, E2. reflexivity.
Qed.

Lemma C10_mask_value_witness :
  String.length "secret" <= 6 /\
  MaskValue (Some "secret") = Some "***" /\
  6 < String.length "Server=tcp:db" /\
  exists r, MaskValue (Some "Server=tcp:db") = Some r /\
            String.length r = 13 /\ get 3 r = Some "*"%char.
Proof.
  destruct (C10_mask_value "secret") as [_ [Hshort _]].
  destruct (C10_mask_value "Server=tcp:db") as [_ [_ Hlong]].
  assert (H6 : String.length "secret" <= 6) by (simpl; lia).
  assert (H13 : 6 < String.length "Server=tcp:db") by (simpl; lia).
  split; [exact H6|]. split; [exact (Hshort H6)|]. split; [exact H13|].
  destruct (Hlong H13) as [r [Hr [Hl [_ [Hmid _]]]]].
  exists r. split; [exact Hr|]. split; [exact Hl|].
  apply Hmid. simpl. lia.
Defined.

End MaskValueFacts.

(** * Part IV: further properties of the engine *)

(** ** Fighter.update: blocking, moving, busy states *)

Ltac destruct_ifs :=
  repeat match goal with
         | |- context [if ?b then _ else _] => destruct b
         end.

(** A block input wins over everything else. From IDLE, MOVING or a block,
    a call that reads |input.y| > 0.5 only sets the state, to BLOCKING_HIGH
    when input.y > 0.5 and to BLOCKING_LOW otherwise: the fighter does not
    move and no charge starts, whatever input.x and the buttons are, and no
    effect is issued. Conversely the fighter is blocking after a call only
    in this case. *)
Theorem update_block_priority (perfNow0 dt : Q) (input : Input.t) (f : Fighter) :
  (includes [IDLE; MOVING; BLOCKING_HIGH; BLOCKING_LOW] (state f) = true ->
   holdsBlock input = true ->
   update perfNow0 dt input f =
   (set_state (if Qlt_bool (1 # 2) (Input.y input)
               then BLOCKING_HIGH else BLOCKING_LOW) f, [])) /\
  isBlockingState (state (fst (update perfNow0 dt input f))) =
  includes [IDLE; MOVING; BLOCKING_HIGH; BLOCKING_LOW] (state f)
  && holdsBlock input.
Proof.
  unfold holdsBlock, update, blockingLogic, movementLogic, executeAttack.
  destruct (Qlt_bool (1 # 2) (Input.y input)) eqn:Eh;
    destruct (Qlt_bool (Input.y input) (- (1 # 2))) eqn:El;
    destruct (state f) eqn:Es; simpl; split;
    try (intros; discriminate);
    try (intros _ _); destruct_ifs; simpl; rewrite ?Es; reflexivity.
Qed.

Lemma update_block_priority_witness :
  update 0 dt60 (Input.mk 1 1 true true) (newFighter "testPlayer" 500)
  = (set_state BLOCKING_HIGH (newFighter "testPlayer" 500), []).
Proof.
  exact (proj1 (update_block_priority 0 dt60 (Input.mk 1 1 true true)
                  (newFighter "testPlayer" 500)) eq_refl eq_refl).
Defined.

(** What [update] does after its movement block leaves the position and the
    facing alone. *)
Lemma update_after_movement (perfNow0 dt : Q) (input : Input.t) (f : Fighter) :
  let pre := movementLogic (state f)
               (isBlockingState (state (blockingLogic (state f) input f)))
               dt input (blockingLogic (state f) input f) in
  x (fst (update perfNow0 dt input f)) = x pre /\
  facingRight (fst (update perfNow0 dt input f)) = facingRight pre.
Proof.
  intros pre. unfold update, executeAttack. cbv zeta. fold pre.
  destruct_ifs; simpl; split; reflexivity.
Qed.




Lemma walk_call (c : Call) (f : Fighter) :
  state f = IDLE \/ state f = MOVING ->
  walks c = true ->
  x (call c f) == x f + Input.x (inputOf c) * MOVE_SPEED * dtOf c /\
  (state (call c f) = IDLE \/ state (call c f) = MOVING) /\
  chargeLevel (call c f) = chargeLevel f /\
  attackType (call c f) = attackType f.
Proof.
  intros Hs Hw. unfold walks in Hw. apply andb_true_iff in Hw as [Hb Hh].
  apply negb_true_iff in Hb, Hh. unfold holdsBlock in Hb.
  apply orb_false_iff in Hb as [Eh El]. unfold held in Hh.
  split.
  - unfold call.
    destruct (update_after_movement (perfNow c) (dtOf c) (inputOf c) f) as [Hx _].
    rewrite Hx. unfold movementLogic, blockingLogic. rewrite Eh, El.
    destruct (Qeq_bool (Input.x (inputOf c)) 0) eqn:Ex;
      destruct Hs as [Hs|Hs]; rewrite Hs;
      cbn [includes existsb FighterState_eqb orb andb negb isBlockingState
           state set_state x set_x set_facingRight];
      rewrite ?Hs;
      cbn [includes existsb FighterState_eqb orb andb negb isBlockingState
           state set_state x set_x set_facingRight];
      try (apply Qeq_bool_iff in Ex; rewrite Ex; ring); reflexivity.
  - unfold call, update, blockingLogic, movementLogic.
    destruct Hs as [Hs|Hs]; rewrite Hs; simpl; rewrite Eh, El, Hh; simpl;
      rewrite ?Hs; simpl;
      destruct (Qeq_bool (Input.x (inputOf c)) 0); simpl; auto.
Qed.

Lemma walk_call_frame (c : Call) (f : Fighter) :
  health (call c f) = health f /\ y (call c f) = y f.
Proof. unfold call. now rewrite update_health, update_y. Qed.

(** Walking. Through any sequence of calls that read no block input and no
    button, a fighter that starts IDLE or MOVING is IDLE or MOVING
    afterwards, and its charge level, attack type, health and height are
    untouched. With dt >= 0 in every call the position never moves against
    the input: it does not decrease when input.x >= 0 in every call, and
    does not increase when input.x <= 0 in every call. *)
Theorem walking_follows_input (calls : list Call) :
  forall f : Fighter,
    state f = IDLE \/ state f = MOVING ->
    forallb walks calls = true ->
    let f' := runUpdates calls f in
    (state f' = IDLE \/ state f' = MOVING) /\
    chargeLevel f' = chargeLevel f /\
    attackType f' = attackType f /\
    health f' = health f /\ y f' = y f /\
    (Forall (fun c => 0 <= dtOf c /\ 0 <= Input.x (inputOf c)) calls ->
     x f <= x f') /\
    (Forall (fun c => 0 <= dtOf c /\ Input.x (inputOf c) <= 0) calls ->
     x f' <= x f).
Proof.
  induction calls as [|c calls IH]; intros f Hs Hall; cbv zeta.
  - simpl. repeat split; auto; intros _; apply Qle_refl.
  - simpl in Hall. apply andb_true_iff in Hall as [Hc Hall].
    destruct (walk_call c f Hs Hc) as [Hx [Hs' [Hl Ht]]].
    destruct (walk_call_frame c f) as [Hh Hy].
    destruct (IH (call c f) Hs' Hall) as [Hs2 [Hl2 [Ht2 [Hh2 [Hy2 [Hr Hle]]]]]].
    change (runUpdates (c :: calls) f) with (runUpdates calls (call c f)).
    split; [exact Hs2|]. split; [congruence|]. split; [congruence|].
    split; [congruence|]. split; [congruence|]. split.
    + intros HF. inversion HF as [|c' l' [Hdt Hix] HF']; subst c' l'.
      specialize (Hr HF').
      assert (0 <= Input.x (inputOf c) * MOVE_SPEED * dtOf c).
      { apply Qmult_le_0_compat; [|exact Hdt].
        apply Qmult_le_0_compat; [exact Hix | vm_compute; discriminate]. }
      lra.
    + intros HF. inversion HF as [|c' l' [Hdt Hix] HF']; subst c' l'.
      specialize (Hle HF').
      assert (0 <= (- Input.x (inputOf c)) * MOVE_SPEED * dtOf c).
      { apply Qmult_le_0_compat; [|exact Hdt].
        apply Qmult_le_0_compat; [lra | vm_compute; discriminate]. }
      assert (E : (- Input.x (inputOf c)) * MOVE_SPEED * dtOf c
                  == - (Input.x (inputOf c) * MOVE_SPEED * dtOf c)) by ring.
      lra.
Qed.

Lemma walking_follows_input_witness :
  let f' := runUpdates [mkCall 0 (1 # 2) (Input.mk 1 0 false false);
                        mkCall 500 (1 # 4) (Input.mk (1 # 2) 0 false false);
                        mkCall 750 (1 # 4) (Input.mk 0 0 false false)]
                       (newFighter "testPlayer" 500) in
  500 <= x f' /\ state f' = IDLE /\ health f' = 100.
Proof.
  intros f'.
  destruct (walking_follows_input
              [mkCall 0 (1 # 2) (Input.mk 1 0 false false);
               mkCall 500 (1 # 4) (Input.mk (1 # 2) 0 false false);
               mkCall 750 (1 # 4) (Input.mk 0 0 false false)]
              (newFighter "testPlayer" 500) (or_introl eq_refl) eq_refl)
    as [_ [_ [_ [Hh [_ [Hx _]]]]]].
  split; [|split; [reflexivity | exact Hh]].
  apply Hx. repeat constructor; vm_compute; discriminate.
Defined.



(** ** Fighter.update and executeAttack: from the first held frame to the
    end of the attack *)

(** The life of an attack, in the arithmetic of the engine. A charge starts
    at clock reading t0, the button stays held through calls that compute a
    duration of at most OVERHEAT_TIME, and both buttons are released at
    clock reading tr, where the call computes the duration
    d = tr / 1000 - chargeStartTime, each operation rounded. The release
    call leaves the fighter ATTACKING with charge level 0; the attack type
    is the one chosen on the first held frame (PUNCH if punch was held then,
    else KICK), whatever buttons were held afterwards; the attack height
    comes from input.y of the release call; the heavy sound is played
    exactly when MAX_CHARGE_TIME <= d < OVERHEAT_TIME; and the timer
    scheduled by the call takes the fighter back to IDLE. This holds for
    every rounding. *)
Theorem charge_release_attack
        (fl : Q -> Q) (f : Fighter) (t0 dt0 : Q) (input0 : Input.t)
        (calls : list Call) (tr dtr : Q) (release : Input.t) :
  chargeStarts f input0 = true ->
  Forall (fun c => held (inputOf c) = true /\
                   fl (fl (perfNow c / 1000) - fl (t0 / 1000)) <= OVERHEAT_TIME)
         calls ->
  held release = false ->
  let before := runUpdatesFl fl (mkCall t0 dt0 input0 :: calls) f in
  let r := updateFl fl tr dtr release before in
  let d := fl (fl (tr / 1000) - fl (t0 / 1000)) in
  state (fst r) = ATTACKING /\
  chargeLevel (fst r) = 0 /\
  attackType (fst r) = (if Input.punchHeld input0 then PUNCH else KICK) /\
  ((1 # 2) < Input.y release -> attackHeight (fst r) = HIGH) /\
  (Input.y release < - (1 # 2) -> attackHeight (fst r) = LOW) /\
  (- (1 # 2) <= Input.y release -> Input.y release <= (1 # 2) ->
   attackHeight (fst r) = MID) /\
  snd r = [PlayPunch (if isMaxCharge d then SOUND_HEAVY else SOUND_JAB);
           SetTimeout 300 ATTACKING] /\
  (isMaxCharge d = true <-> MAX_CHARGE_TIME <= d /\ d < OVERHEAT_TIME) /\
  state (fireTimeout ATTACKING (fst r)) = IDLE.
Proof.
  intros Hstart Hall Hrel before r d.
  destruct (updateFl_start fl t0 dt0 input0 f Hstart) as [Hs [_ [Hc [Hty _]]]].
  set (f1 := fst (updateFl fl t0 dt0 input0 f)) in *.
  assert (Hb : before = runUpdatesFl fl calls f1) by reflexivity.
  destruct (heldRunFl fl calls f1 Hs) as [Hs2 Hw].
  { rewrite Hc. exact Hall. }
  rewrite <- Hb in Hs2, Hw.
  assert (Hc2 : chargeStartTime before = fl (t0 / 1000))
    by (rewrite Hw; exact Hc).
  assert (Hty2 : attackType before = if Input.punchHeld input0 then PUNCH else KICK)
    by (rewrite Hw; exact Hty).
  assert (Hr : r = (set_chargeLevel 0
                      (set_state ATTACKING
                         (set_attackHeight (releaseModifier release) before)),
                    [PlayPunch (if isMaxCharge d then SOUND_HEAVY else SOUND_JAB);
                     SetTimeout 300 ATTACKING])).
  { subst r d. rewrite (updateFl_release fl _ _ _ _ Hs2 Hrel).
    unfold durationFl. now rewrite Hc2. }
  rewrite Hr. cbn [fst snd]. unfold releaseModifier.
  cbn [state chargeLevel attackType attackHeight set_chargeLevel set_state
       set_attackHeight fireTimeout FighterState_eqb].
  split; [reflexivity|]. split; [reflexivity|]. split; [exact Hty2|].
  split; [|split; [|split; [|split; [reflexivity|split; [|reflexivity]]]]].
  - intros Hy. assert (Hn : Qlt_bool (Input.y release) (- (1 # 2)) = false)
      by (apply Qlt_bool_false_iff; lra).
    apply Qlt_bool_iff in Hy. now rewrite Hy, Hn.
  - intros Hy. apply Qlt_bool_iff in Hy. now rewrite Hy.
  - intros H1 H2. apply Qlt_bool_false_iff in H1, H2. now rewrite H1, H2.
  - unfold isMaxCharge. rewrite andb_true_iff, Qle_bool_iff, Qlt_bool_iff.
    reflexivity.
Qed.

Lemma charge_release_attack_witness :
  let release t0 tr :=
    updateFl double tr dt60 pressUp
      (runUpdatesFl double [mkCall t0 dt60 holdKick; mkCall 500 dt60 holdPunch]
                    (newFighter "attacker" 400)) in
  (state (fst (release 0 1000)) = ATTACKING /\
   attackType (fst (release 0 1000)) = KICK /\
   attackHeight (fst (release 0 1000)) = HIGH /\
   snd (release 0 1000) = [PlayPunch SOUND_HEAVY; SetTimeout 300 ATTACKING]) /\
  snd (release 1 1001) = [PlayPunch SOUND_JAB; SetTimeout 300 ATTACKING] /\
  snd (release 2 2002) = [PlayPunch SOUND_HEAVY; SetTimeout 300 ATTACKING].
Proof.
  intros release.
  assert (H : forall t0 tr,
             double (double (500 / 1000) - double (t0 / 1000)) <= OVERHEAT_TIME ->
             state (fst (release t0 tr)) = ATTACKING /\
             attackType (fst (release t0 tr)) = KICK /\
             ((1 # 2) < Input.y pressUp ->
              attackHeight (fst (release t0 tr)) = HIGH) /\
             snd (release t0 tr)
             = [PlayPunch (if isMaxCharge
                                (double (double (tr / 1000) - double (t0 / 1000)))
                           then SOUND_HEAVY else SOUND_JAB);
                SetTimeout 300 ATTACKING]).
  { intros t0 tr Hd.
    destruct (charge_release_attack double (newFighter "attacker" 400) t0 dt60
                holdKick [mkCall 500 dt60 holdPunch] tr dt60 pressUp eq_refl)
      as [H1 [_ [H3 [H4 [_ [_ [H7 _]]]]]]].
    - constructor; [split; [reflexivity | exact Hd] | constructor].
    - reflexivity.
    - split; [exact H1|]. split; [exact H3|]. split; [exact H4 | exact H7]. }
  split; [|split].
  - destruct (H 0 1000) as [H1 [H3 [H4 H7]]]; [vm_compute; discriminate|].
    split; [exact H1|]. split; [exact H3|]. split.
    + apply H4. vm_compute. reflexivity.
    + eapply eq_trans; [exact H7 | vm_compute; reflexivity].
  - destruct (H 1 1001) as [_ [_ [_ H7]]]; [vm_compute; discriminate|].
    eapply eq_trans; [exact H7 | vm_compute; reflexivity].
  - destruct (H 2 2002) as [_ [_ [_ H7]]]; [vm_compute; discriminate|].
    eapply eq_trans; [exact H7 | vm_compute; reflexivity].
Defined.

(** ** FightManager: what a hit-detection call can return *)

(** In one call of [checkHits] at most one fighter is hit: as soon as the
    player's attack costs the cpu any health, the cpu is blocking or
    stunned and its own attack is not evaluated. In particular, when both
    fighters are ATTACKING within range of each other, the cpu is hit and
    stunned, the player's attack is over, and the player is not hit. *)
Theorem checkHits_hits_one_side (m : Match) :
  let m' := checkHits m in
  (health (player m') = health (player m) \/ health (cpu m') = health (cpu m)) /\
  (state (player m) = ATTACKING -> state (cpu m) = ATTACKING ->
   Qabs (x (player m) - x (cpu m)) <= attackRange ->
   player m' = resetAttacker (player m) /\
   state (cpu m') = STUNNED /\
   health (cpu m') = Qmax 0 (health (cpu m)
                             - baseDamage (attackType (player m))
                                          (chargeLevel (player m))) /\
   health (player m') = health (player m)).
Proof.
  cbv zeta. unfold checkHits, hitByPlayer.
  destruct (checkHit_shapes (player m) (cpu m)) as [E|[[Ha [Hb E]]|[Ha E]]].
  - split.
    + right. rewrite E. unfold hitByCpu. cbn [player cpu].
      destruct (checkHit_shapes (cpu m) (player m)) as [E2|[[_ [_ E2]]|[_ E2]]];
        rewrite E2; reflexivity.
    + intros Hp Hc Hr. exfalso.
      rewrite (checkHit_in_range _ _ Hp Hr) in E.
      unfold isBlockedHigh, isBlockedLow, isBlockedMid in E. rewrite Hc in E.
      simpl in E. discriminate E.
  - split.
    + left. rewrite E. unfold hitByCpu. cbn [player cpu].
      rewrite checkHit_by_blocker by exact Hb. reflexivity.
    + intros _ Hc. rewrite Hc in Hb. discriminate.
  - assert (Hn : checkHitForAttacker
                   (set_state STUNNED
                      (set_health
                         (Qmax 0 (health (cpu m)
                                  - baseDamage (attackType (player m))
                                               (chargeLevel (player m))))
                         (cpu m)))
                   (resetAttacker (player m))
                 = (set_state STUNNED
                      (set_health
                         (Qmax 0 (health (cpu m)
                                  - baseDamage (attackType (player m))
                                               (chargeLevel (player m))))
                         (cpu m)),
                    resetAttacker (player m), []))
      by (apply checkHit_not_attacking; simpl; discriminate).
    rewrite E. unfold hitByCpu. cbn [player cpu]. rewrite Hn. cbn [player cpu].
    split; [left; reflexivity|]. intros _ _ _. repeat split.
Qed.

Lemma checkHits_hits_one_side_witness :
  let m := mkMatch (set_attackType PUNCH (set_state ATTACKING (newFighter "player" 400)))
                   (set_attackType KICK (set_state ATTACKING (newFighter "cpu" 500)))
                   [] [] in
  health (player (checkHits m)) = 100 /\ health (cpu (checkHits m)) == 95 /\
  state (cpu (checkHits m)) = STUNNED.
Proof.
  intros m.
  assert (Hr : Qabs (x (player m) - x (cpu m)) <= attackRange)
    by (vm_compute; discriminate).
  destruct (checkHits_hits_one_side m) as [_ H].
  destruct (H eq_refl eq_refl Hr) as [_ [H2 [H3 H4]]].
  split; [exact H4|]. split; [|exact H2].
  rewrite H3. vm_compute. reflexivity.
Defined.

(** ** Invariants kept by every step of a match *)

Lemma update_attackInv (perfNow0 dt : Q) (input : Input.t) (f : Fighter) :
  attackInv f -> attackInv (fst (update perfNow0 dt input f)).
Proof.
  unfold attackInv. intros [H1 H2].
  unfold update, blockingLogic, movementLogic, executeAttack.
  destruct (state f) eqn:Es; cbn [includes existsb FighterState_eqb orb andb negb
                                   isBlockingState];
    destruct_ifs; cbn [fst state chargeLevel attackType set_state set_x
                       set_chargeLevel set_attackType set_attackHeight
                       set_facingRight set_chargeStartTime];
    rewrite ?Es;
    (split; [intros Hst; try discriminate; auto
            |intros [Hst|Hst]; try discriminate; auto; try discriminate]).
Qed.

Lemma fireTimeout_attackInv (g : FighterState) (f : Fighter) :
  attackInv f -> attackInv (fireTimeout g f).
Proof.
  unfold attackInv, fireTimeout. intros [H1 H2].
  destruct (FighterState_eqb (state f) g); [|now split].
  simpl. split; [discriminate | intros [H|H]; discriminate].
Qed.

Lemma attackerResult_attackInv (a a' : Fighter) :
  attackerResult a a' -> attackInv a -> attackInv a'.
Proof.
  intros [E|[_ E]] H; subst a'; [exact H|].
  unfold attackInv. simpl. split; [discriminate | intros [X|X]; discriminate].
Qed.

Lemma defenderResult_attackInv (a d d' : Fighter) (ts : list FighterState) :
  defenderResult a d d' ts -> attackInv d -> attackInv d'.
Proof.
  intros [[E _]|[[_ [_ [E _]]]|[_ [E _]]]] H; subst d'; [exact H|exact H|].
  unfold attackInv. simpl. split; [discriminate | intros [X|X]; discriminate].
Qed.

Lemma set_x_attackInv (v : Q) (f : Fighter) : attackInv f -> attackInv (set_x v f).
Proof. exact (fun H => H). Qed.

Lemma update_timerInv (perfNow0 dt : Q) (input : Input.t) (f : Fighter)
      (timers : list FighterState) :
  timerInv f timers ->
  timerInv (fst (update perfNow0 dt input f))
           (timers ++ timersOf (snd (update perfNow0 dt input f))).
Proof.
  unfold timerInv. intros H.
  unfold update, blockingLogic, movementLogic, executeAttack.
  destruct (state f) eqn:Es; cbn [includes existsb FighterState_eqb orb andb negb
                                   isBlockingState];
    destruct_ifs; cbn [fst snd state set_state set_x timersOf
                       set_chargeLevel set_attackType set_attackHeight
                       set_facingRight set_chargeStartTime];
    rewrite ?Es; intros Ht; try discriminate;
    apply in_or_app; first [right; simpl; now auto | left; now apply H].
Qed.

Lemma fireTimeout_timerInv (n : nat) (g : FighterState) (f : Fighter)
      (timers : list FighterState) :
  nth_error timers n = Some g ->
  timerInv f timers -> timerInv (fireTimeout g f) (removeNth n timers).
Proof.
  unfold timerInv, fireTimeout. intros Hn H.
  destruct (FighterState_eqb (state f) g) eqn:E.
  - simpl. discriminate.
  - intros Ht. apply (In_removeNth timers n g); auto.
    intros X. rewrite X in E. destruct g; discriminate.
Qed.

Lemma attackerResult_timerInv (a a' : Fighter) (timers : list FighterState) :
  attackerResult a a' -> timerInv a timers -> timerInv a' timers.
Proof.
  intros [E|[_ E]] H; subst a'; [exact H|]. unfold timerInv. simpl. discriminate.
Qed.

Lemma defenderResult_timerInv (a d d' : Fighter) (ts timers : list FighterState) :
  defenderResult a d d' ts -> timerInv d timers -> timerInv d' (timers ++ ts).
Proof.
  unfold timerInv.
  intros [[E Et]|[[_ [_ [E Et]]]|[_ [E Et]]]] H; subst d' ts; simpl.
  - rewrite app_nil_r. exact H.
  - rewrite app_nil_r. exact H.
  - intros _. apply in_or_app. right. now left.
Qed.

Lemma applyStep_matchInv (s : Step) (m : Match) :
  matchInv m -> matchInv (applyStep s m).
Proof.
  unfold matchInv. intros [Ap [Ac [Tp Tc]]].
  destruct s as [[now dt input|now dt input| | |n|n]|xp xc]; simpl.
  - unfold updatePlayer.
    pose proof (update_attackInv now dt input (player m) Ap) as A.
    pose proof (update_timerInv now dt input (player m) _ Tp) as T.
    destruct (update now dt input (player m)) as [p es]. simpl in *. auto.
  - unfold updateCpu.
    pose proof (update_attackInv now dt input (cpu m) Ac) as A.
    pose proof (update_timerInv now dt input (cpu m) _ Tc) as T.
    destruct (update now dt input (cpu m)) as [c es]. simpl in *. auto.
  - destruct (hitByPlayer_results m) as [ts [Ra [Rd [Ep Ec]]]].
    rewrite Ep, Ec. split; [|split; [|split]].
    + exact (attackerResult_attackInv _ _ Ra Ap).
    + exact (defenderResult_attackInv _ _ _ _ Rd Ac).
    + exact (attackerResult_timerInv _ _ _ Ra Tp).
    + exact (defenderResult_timerInv _ _ _ _ _ Rd Tc).
  - destruct (hitByCpu_results m) as [ts [Ra [Rd [Ec Ep]]]].
    rewrite Ep, Ec. split; [|split; [|split]].
    + exact (defenderResult_attackInv _ _ _ _ Rd Ap).
    + exact (attackerResult_attackInv _ _ Ra Ac).
    + exact (defenderResult_timerInv _ _ _ _ _ Rd Tp).
    + exact (attackerResult_timerInv _ _ _ Ra Tc).
  - unfold firePlayerTimer. destruct (nth_error (playerTimers m) n) eqn:E; simpl.
    + split; [|split; [|split]];
        auto using fireTimeout_attackInv, fireTimeout_timerInv.
    + auto.
  - unfold fireCpuTimer. destruct (nth_error (cpuTimers m) n) eqn:E; simpl.
    + split; [|split; [|split]];
        auto using fireTimeout_attackInv, fireTimeout_timerInv.
    + auto.
  - auto.
Qed.

Lemma runSteps_matchInv (ss : list Step) :
  forall m, matchInv m -> matchInv (runSteps ss m).
Proof.
  induction ss as [|s ss IH]; intros m H; [exact H|].
  simpl. apply IH. now apply applyStep_matchInv.
Qed.

Lemma newMatch_matchInv : matchInv newMatch.
Proof.
  unfold matchInv, attackInv, timerInv. simpl.
  repeat split; try discriminate; intros [H|H]; discriminate.
Qed.

(** An attack never carries a charge. In every state of a match reached
    from the constructor (by [update] calls, hit detection, timers and
    position corrections), a fighter that is ATTACKING has charge level 0
    and an attack type. Hence a hit-detection call leaves the health of the
    defender as it is, or lowers it by the chip amount, by JAB damage or by
    KICK_FLICK damage (clamped at 0): the HEAVY_PUNCH and HEAVY_KICK tiers
    are never applied. *)
Theorem attack_carries_no_charge (ss : list Step) :
  let m := runSteps ss newMatch in
  let lowered (h h' : Q) :=
    h' = h \/ h' = Qmax 0 (h - chipDamage) \/
    h' = Qmax 0 (h - damage JAB) \/ h' = Qmax 0 (h - damage KICK_FLICK) in
  (state (player m) = ATTACKING ->
   chargeLevel (player m) = 0 /\ attackType (player m) <> NONE) /\
  (state (cpu m) = ATTACKING ->
   chargeLevel (cpu m) = 0 /\ attackType (cpu m) <> NONE) /\
  lowered (health (cpu m)) (health (cpu (hitByPlayer m))) /\
  lowered (health (player m)) (health (player (hitByCpu m))).
Proof.
  intros m lowered.
  destruct (runSteps_matchInv ss newMatch newMatch_matchInv)
    as [[Ap1 Ap2] [[Ac1 Ac2] _]].
  fold m in Ap1, Ap2, Ac1, Ac2.
  assert (Hd : forall a d d' ts,
             (state a = ATTACKING -> chargeLevel a = 0) ->
             (state a = ATTACKING \/ state a = CHARGING -> attackType a <> NONE) ->
             defenderResult a d d' ts -> lowered (health d) (health d')).
  { intros a d d' ts H1 H2 [[E _]|[[_ [_ [E _]]]|[Ha [E _]]]]; subst d'; unfold lowered.
    - now left.
    - right; left. reflexivity.
    - simpl. rewrite (H1 Ha). specialize (H2 (or_introl Ha)).
      destruct (attackType a); [right; right; left|right; right; right|];
        try reflexivity. congruence. }
  split; [intros H; split; auto|]. split; [intros H; split; auto|]. split.
  - destruct (hitByPlayer_results m) as [ts [_ [Rd _]]].
    exact (Hd _ _ _ _ Ap1 Ap2 Rd).
  - destruct (hitByCpu_results m) as [ts [_ [Rd _]]].
    exact (Hd _ _ _ _ Ac1 Ac2 Rd).
Qed.

Lemma attack_carries_no_charge_witness :
  let m := runSteps [StEvent (EvUpdatePlayer 0 dt60 holdPunch);
                     StEvent (EvUpdatePlayer 1000 dt60 neutral)] newMatch in
  state (player m) = ATTACKING /\
  chargeLevel (player m) = 0 /\ attackType (player m) <> NONE.
Proof.
  intros m. split; [reflexivity|].
  exact (proj1 (attack_carries_no_charge
                  [StEvent (EvUpdatePlayer 0 dt60 holdPunch);
                   StEvent (EvUpdatePlayer 1000 dt60 neutral)]) eq_refl).
Defined.

(** No fighter is left in a timed state without a timer. In every state of
    a match reached from the constructor, a fighter that is ATTACKING,
    OVERHEATED or STUNNED has a pending timer guarded by that very state,
    and firing it sets the fighter to IDLE. *)
Theorem timed_state_has_timer (ss : list Step) :
  let m := runSteps ss newMatch in
  (isTimedState (state (player m)) = true ->
   exists n, nth_error (playerTimers m) n = Some (state (player m)) /\
             state (player (firePlayerTimer n m)) = IDLE) /\
  (isTimedState (state (cpu m)) = true ->
   exists n, nth_error (cpuTimers m) n = Some (state (cpu m)) /\
             state (cpu (fireCpuTimer n m)) = IDLE).
Proof.
  intros m.
  destruct (runSteps_matchInv ss newMatch newMatch_matchInv) as [_ [_ [Tp Tc]]].
  fold m in Tp, Tc. split; intros Ht.
  - destruct (In_nth_error _ _ (Tp Ht)) as [n Hn]. exists n. split; [exact Hn|].
    unfold firePlayerTimer. rewrite Hn. cbn [player]. unfold fireTimeout.
    destruct (state (player m)); reflexivity.
  - destruct (In_nth_error _ _ (Tc Ht)) as [n Hn]. exists n. split; [exact Hn|].
    unfold fireCpuTimer. rewrite Hn. cbn [cpu]. unfold fireTimeout.
    destruct (state (cpu m)); reflexivity.
Qed.

Lemma timed_state_has_timer_witness :
  let m := runSteps [StEvent (EvUpdatePlayer 0 dt60 holdPunch);
                     StEvent (EvUpdatePlayer 2100 dt60 holdPunch)] newMatch in
  state (player m) = OVERHEATED /\
  exists n, nth_error (playerTimers m) n = Some OVERHEATED /\
            state (player (firePlayerTimer n m)) = IDLE.
Proof.
  intros m. split; [reflexivity|].
  exact (proj1 (timed_state_has_timer
                  [StEvent (EvUpdatePlayer 0 dt60 holdPunch);
                   StEvent (EvUpdatePlayer 2100 dt60 holdPunch)]) eq_refl).
Defined.

(** ** Health never goes up *)

Lemma defenderResult_health (a d d' : Fighter) (ts : list FighterState) :
  defenderResult a d d' ts ->
  0 <= health d -> 0 <= health d' /\ health d' <= health d.
Proof.
  intros [[E _]|[[_ [_ [E _]]]|[_ [E _]]]] H0; subst d'.
  - split; [exact H0 | apply Qle_refl].
  - unfold chip, chipDamage. simpl.
    destruct (Q.max_spec 0 (health d - 2)) as [[L E]|[L E]]; rewrite E; split; lra.
  - simpl. pose proof (baseDamage_nonneg (attackType a) (chargeLevel a)) as Hd.
    destruct (Q.max_spec 0 (health d - baseDamage (attackType a) (chargeLevel a)))
      as [[L E]|[L E]]; rewrite E; split; lra.
Qed.

Lemma attackerResult_health (a a' : Fighter) :
  attackerResult a a' -> health a' = health a.
Proof. intros [E|[_ E]]; subst a'; reflexivity. Qed.

Lemma applyStep_health_le (s : Step) (m : Match) :
  0 <= health (player m) -> 0 <= health (cpu m) ->
  (0 <= health (player (applyStep s m)) /\
   health (player (applyStep s m)) <= health (player m)) /\
  (0 <= health (cpu (applyStep s m)) /\
   health (cpu (applyStep s m)) <= health (cpu m)).
Proof.
  intros Hp Hc.
  assert (R : forall h : Q, 0 <= h -> 0 <= h /\ h <= h)
    by (intros h H; split; [exact H | apply Qle_refl]).
  destruct s as [[now dt input|now dt input| | |n|n]|xp xc]; simpl.
  - unfold updatePlayer.
    pose proof (update_health now dt input (player m)) as E.
    destruct (update now dt input (player m)) as [p es]. simpl in *.
    rewrite E. auto.
  - unfold updateCpu.
    pose proof (update_health now dt input (cpu m)) as E.
    destruct (update now dt input (cpu m)) as [c es]. simpl in *.
    rewrite E. auto.
  - destruct (hitByPlayer_results m) as [ts [Ra [Rd _]]].
    rewrite (attackerResult_health _ _ Ra).
    split; [auto | exact (defenderResult_health _ _ _ _ Rd Hc)].
  - destruct (hitByCpu_results m) as [ts [Ra [Rd _]]].
    rewrite (attackerResult_health _ _ Ra).
    split; [exact (defenderResult_health _ _ _ _ Rd Hp) | auto].
  - unfold firePlayerTimer. destruct (nth_error (playerTimers m) n); simpl;
      rewrite ?fireTimeout_health; auto.
  - unfold fireCpuTimer. destruct (nth_error (cpuTimers m) n); simpl;
      rewrite ?fireTimeout_health; auto.
  - auto.
Qed.

(** Nothing heals a fighter. Along any sequence of steps of a match that
    starts with non-negative healths, the health of each fighter stays
    non-negative and never exceeds what it was before. *)
Theorem health_never_increases (ss : list Step) :
  forall m : Match,
    0 <= health (player m) -> 0 <= health (cpu m) ->
    (0 <= health (player (runSteps ss m)) /\
     health (player (runSteps ss m)) <= health (player m)) /\
    (0 <= health (cpu (runSteps ss m)) /\
     health (cpu (runSteps ss m)) <= health (cpu m)).
Proof.
  induction ss as [|s ss IH]; intros m Hp Hc.
  - simpl. repeat split; auto; apply Qle_refl.
  - destruct (applyStep_health_le s m Hp Hc) as [[P0 P1] [C0 C1]].
    destruct (IH (applyStep s m) P0 C0) as [[P2 P3] [C2 C3]].
    change (runSteps (s :: ss) m) with (runSteps ss (applyStep s m)).
    repeat split; auto; eapply Qle_trans; eauto.
Qed.

Lemma health_never_increases_witness :
  let m := runSteps [StEvent (EvUpdatePlayer 0 2 (Input.mk 1 0 false false));
                     StEvent (EvUpdatePlayer 2000 dt60 holdKick);
                     StEvent (EvUpdatePlayer 2016 dt60 neutral);
                     StEvent EvHitByPlayer; StPush 1100 1200;
                     StEvent (EvCpuTimer 0)] newMatch in
  health (cpu m) <= 100 /\ health (cpu m) == 93 /\ health (player m) <= 100.
Proof.
  intros m.
  assert (H0 : 0 <= health (player newMatch)) by (vm_compute; discriminate).
  assert (H1 : 0 <= health (cpu newMatch)) by (vm_compute; discriminate).
  destruct (health_never_increases
              [StEvent (EvUpdatePlayer 0 2 (Input.mk 1 0 false false));
               StEvent (EvUpdatePlayer 2000 dt60 holdKick);
               StEvent (EvUpdatePlayer 2016 dt60 neutral);
               StEvent EvHitByPlayer; StPush 1100 1200;
               StEvent (EvCpuTimer 0)] newMatch H0 H1) as [[_ P] [_ C]].
  split; [exact C|]. split; [vm_compute; reflexivity | exact P].
Defined.

(** ** The charge level stays in [0,1] *)

Lemma levelInv_ext (t : Q) (f f' : Fighter) :
  chargeLevel f' = chargeLevel f ->
  chargeStartTime f' = chargeStartTime f ->
  levelInv t f -> levelInv t f'.
Proof. unfold levelInv. intros E1 E2. now rewrite E1, E2. Qed.

Lemma levelInv_later (t t' : Q) (f : Fighter) :
  t <= t' -> levelInv t f -> levelInv t' f.
Proof.
  unfold levelInv. intros Ht [H0 [H1 H2]]. repeat split; auto.
  rewrite Qdiv_1000 in *. lra.
Qed.

Lemma held_level_bounds (s b : Q) :
  s <= b ->
  0 <= Qmin ((b - s) / MAX_CHARGE_TIME) 1 /\ Qmin ((b - s) / MAX_CHARGE_TIME) 1 <= 1.
Proof.
  intros H.
  assert (E : (b - s) / MAX_CHARGE_TIME == b - s) by (unfold MAX_CHARGE_TIME; field).
  rewrite E. destruct (Q.min_spec (b - s) 1) as [[L E1]|[L E1]]; rewrite E1; lra.
Qed.

Lemma update_levelInv (tlast now dt : Q) (input : Input.t) (f : Fighter) :
  levelInv tlast f -> tlast <= now ->
  levelInv now (fst (update now dt input f)).
Proof.
  intros H Ht. apply (levelInv_later _ _ _ Ht) in H.
  unfold levelInv in *. destruct H as [H0 [H1 H2]].
  set (b := now / 1000) in *.
  destruct (held_level_bounds (chargeStartTime f) b H2) as [B0 B1].
  unfold update, blockingLogic, movementLogic, executeAttack.
  destruct (state f) eqn:Es; cbn [includes existsb FighterState_eqb orb andb negb
                                   isBlockingState];
    destruct_ifs; cbn [fst chargeLevel chargeStartTime set_state set_x
                       set_chargeLevel set_attackType set_attackHeight
                       set_facingRight set_chargeStartTime];
    repeat split; auto; try apply Qle_refl; try (unfold Qle; simpl; lia).
Qed.

Lemma fireTimeout_levelInv (t : Q) (g : FighterState) (f : Fighter) :
  levelInv t f -> levelInv t (fireTimeout g f).
Proof.
  intros H. unfold fireTimeout.
  destruct (FighterState_eqb (state f) g); [|exact H].
  now apply (levelInv_ext t f).
Qed.

Lemma attackerResult_levelInv (t : Q) (a a' : Fighter) :
  attackerResult a a' -> levelInv t a -> levelInv t a'.
Proof.
  intros [E|[_ E]] H; subst a'; [exact H | now apply (levelInv_ext t a)].
Qed.

Lemma defenderResult_levelInv (t : Q) (a d d' : Fighter) (ts : list FighterState) :
  defenderResult a d d' ts -> levelInv t d -> levelInv t d'.
Proof.
  intros [[E _]|[[_ [_ [E _]]]|[_ [E _]]]] H; subst d'; [exact H| |];
    now apply (levelInv_ext t d).
Qed.

Lemma runSteps_levelInv (ss : list Step) :
  forall (tp tc : Q) (m : Match),
    levelInv tp (player m) -> levelInv tc (cpu m) -> clocksFrom tp tc ss ->
    exists tp' tc',
      levelInv tp' (player (runSteps ss m)) /\ levelInv tc' (cpu (runSteps ss m)).
Proof.
  induction ss as [|s ss IH]; intros tp tc m Hp Hc Hclk.
  - exists tp, tc. now split.
  - change (runSteps (s :: ss) m) with (runSteps ss (applyStep s m)).
    destruct s as [[now dt input|now dt input| | |n|n]|xp xc]; simpl in Hclk.
    + destruct Hclk as [Ht Hclk]. apply (IH now tc); [| |exact Hclk]; simpl.
      * unfold updatePlayer.
        pose proof (update_levelInv tp now dt input (player m) Hp Ht) as A.
        destruct (update now dt input (player m)). exact A.
      * unfold updatePlayer. destruct (update now dt input (player m)). exact Hc.
    + destruct Hclk as [Ht Hclk]. apply (IH tp now); [| |exact Hclk]; simpl.
      * unfold updateCpu. destruct (update now dt input (cpu m)). exact Hp.
      * unfold updateCpu.
        pose proof (update_levelInv tc now dt input (cpu m) Hc Ht) as A.
        destruct (update now dt input (cpu m)). exact A.
    + destruct (hitByPlayer_results m) as [ts [Ra [Rd _]]].
      apply (IH tp tc); [| |exact Hclk]; simpl.
      * exact (attackerResult_levelInv _ _ _ Ra Hp).
      * exact (defenderResult_levelInv _ _ _ _ _ Rd Hc).
    + destruct (hitByCpu_results m) as [ts [Ra [Rd _]]].
      apply (IH tp tc); [| |exact Hclk]; simpl.
      * exact (defenderResult_levelInv _ _ _ _ _ Rd Hp).
      * exact (attackerResult_levelInv _ _ _ Ra Hc).
    + apply (IH tp tc); [| |exact Hclk]; simpl; unfold firePlayerTimer;
        destruct (nth_error (playerTimers m) n); simpl;
        auto using fireTimeout_levelInv.
    + apply (IH tp tc); [| |exact Hclk]; simpl; unfold fireCpuTimer;
        destruct (nth_error (cpuTimers m) n); simpl;
        auto using fireTimeout_levelInv.
    + apply (IH tp tc); [| |exact Hclk]; simpl;
        [now apply (levelInv_ext tp (player m))
        |now apply (levelInv_ext tc (cpu m))].
Qed.

(** The charge level is a fraction. When the clock readings of each
    fighter's [update] calls start at 0 or later and never go back, then in
    every state of a match reached from the constructor the charge level of
    each fighter is in [0,1]. *)
Theorem charge_level_in_unit_interval (ss : list Step) :
  clocksFrom 0 0 ss ->
  let m := runSteps ss newMatch in
  0 <= chargeLevel (player m) /\ chargeLevel (player m) <= 1 /\
  0 <= chargeLevel (cpu m) /\ chargeLevel (cpu m) <= 1.
Proof.
  intros Hclk m.
  assert (Hp : levelInv 0 (player newMatch))
    by (unfold levelInv; simpl; repeat split; unfold Qle; simpl; lia).
  assert (Hc : levelInv 0 (cpu newMatch))
    by (unfold levelInv; simpl; repeat split; unfold Qle; simpl; lia).
  destruct (runSteps_levelInv ss 0 0 newMatch Hp Hc Hclk)
    as [tp [tc [[P0 [P1 _]] [C0 [C1 _]]]]].
  fold m in P0, P1, C0, C1. auto.
Qed.

Lemma charge_level_in_unit_interval_witness :
  let m := runSteps [StEvent (EvUpdatePlayer 0 dt60 holdPunch);
                     StEvent (EvUpdateCpu 5 dt60 neutral);
                     StEvent (EvUpdatePlayer 1500 dt60 holdPunch)] newMatch in
  0 <= chargeLevel (player m) /\ chargeLevel (player m) <= 1 /\
  chargeLevel (player m) == 1.
Proof.
  intros m.
  assert (Hclk : clocksFrom 0 0 [StEvent (EvUpdatePlayer 0 dt60 holdPunch);
                                 StEvent (EvUpdateCpu 5 dt60 neutral);
                                 StEvent (EvUpdatePlayer 1500 dt60 holdPunch)]).
  { simpl. repeat split; vm_compute; discriminate. }
  destruct (charge_level_in_unit_interval _ Hclk) as [H0 [H1 _]].
  split; [exact H0|]. split; [exact H1|]. vm_compute. reflexivity.
Defined.

(** ** AIController.getInput *)




(** Difficulty. For a level >= 0 the mistake rate is in [0, 1/2], does not
    grow with the level and is 0 from level 5 on; the aggression is not
    negative and does not shrink with the level. From level 5 on the AI
    blocks whenever the opponent is ATTACKING or charged above 0.5, unless
    the random draw is not above 0. *)
Theorem ai_difficulty (level level' : Q) (me opponent : Fighter)
        (random : nat -> Q) (k : nat) :
  0 <= level -> level <= level' ->
  let ai := newAIController level in
  0 <= mistakeRate ai /\ mistakeRate ai <= 1 # 2 /\
  mistakeRate (newAIController level') <= mistakeRate ai /\
  (5 <= level -> mistakeRate ai == 0) /\
  0 <= aggression ai /\
  aggression ai <= aggression (newAIController level') /\
  (5 <= level ->
   state opponent = ATTACKING \/ (1 # 2) < chargeLevel opponent ->
   0 < random k ->
   Input.y (fst (getInput ai me opponent random k)) == 1 \/
   Input.y (fst (getInput ai me opponent random k)) == -1).
Proof.
  intros H0 Hle ai. unfold ai, newAIController. cbn [mistakeRate aggression].
  assert (M : forall l, 0 <= l ->
                0 <= Qmax 0 ((1 # 2) - l * (1 # 10)) /\
                Qmax 0 ((1 # 2) - l * (1 # 10)) <= 1 # 2 /\
                (5 <= l -> Qmax 0 ((1 # 2) - l * (1 # 10)) == 0) /\
                (1 # 2) - l * (1 # 10) <= Qmax 0 ((1 # 2) - l * (1 # 10))).
  { intros l Hl.
    destruct (Q.max_spec 0 ((1 # 2) - l * (1 # 10))) as [[L E]|[L E]]; rewrite E;
      repeat split; try lra. }
  destruct (M level H0) as [A [B [C D]]].
  assert (H0' : 0 <= level') by lra.
  destruct (M level' H0') as [A' [B' [C' D']]].
  split; [exact A|]. split; [exact B|].
  split; [|split; [exact C|split; [lra|split; [lra|]]]].
  - destruct (Q.max_spec 0 ((1 # 2) - level' * (1 # 10))) as [[L E]|[L E]];
      rewrite E; lra.
  - intros H5 Hopp Hr. unfold getInput. cbn [mistakeRate].
    assert (Ho : FighterState_eqb (state opponent) ATTACKING
                 || Qlt_bool (1 # 2) (chargeLevel opponent) = true).
    { destruct Hopp as [Hs|Hc]; [rewrite Hs; reflexivity|].
      apply Qlt_bool_iff in Hc. rewrite Hc. apply orb_true_r. }
    assert (Hm : Qlt_bool (Qmax 0 ((1 # 2) - level * (1 # 10))) (random k) = true).
    { apply Qlt_bool_iff. rewrite (C H5). exact Hr. }
    rewrite Ho, Hm. cbn [andb].
    destruct (Qlt_bool (1 # 2) (random (S k))); cbn [fst Input.y];
      [left | right]; reflexivity.
Qed.

Lemma ai_difficulty_witness :
  let ai := newAIController 5 in
  mistakeRate ai == 0 /\
  aggression (newAIController 3) <= aggression ai /\
  Input.y (fst (getInput ai (newFighter "cpu" 1200)
                         (set_state ATTACKING (newFighter "player" 400))
                         (fun _ => 3 # 4) 0)) == 1.
Proof.
  intros ai.
  assert (H0 : 0 <= 5) by (vm_compute; discriminate).
  assert (H5 : 5 <= 5) by (vm_compute; discriminate).
  assert (H3 : 0 <= 3) by (vm_compute; discriminate).
  assert (H35 : 3 <= 5) by (vm_compute; discriminate).
  destruct (ai_difficulty 5 5 (newFighter "cpu" 1200)
              (set_state ATTACKING (newFighter "player" 400))
              (fun _ => 3 # 4) 0 H0 H5) as [_ [_ [_ [Hm _]]]].
  destruct (ai_difficulty 3 5 (newFighter "cpu" 1200)
              (set_state ATTACKING (newFighter "player" 400))
              (fun _ => 3 # 4) 0 H3 H35) as [_ [_ [_ [_ [_ [Ha _]]]]]].
  split; [exact (Hm H5)|]. split; [exact Ha|].
  vm_compute. reflexivity.
Defined.

(** ** The game loop with the AI controller *)

Lemma update_nokick (perfNow0 dt : Q) (input : Input.t) (f : Fighter) :
  attackType f <> KICK -> Input.kickHeld input = false ->
  attackType (fst (update perfNow0 dt input f)) <> KICK.
Proof.
  intros H Hk. unfold update, blockingLogic, movementLogic, executeAttack.
  rewrite Hk, orb_false_r.
  destruct (Input.punchHeld input); destruct_ifs; simpl; auto; discriminate.
Qed.

Lemma defenderResult_health_bound (a d d' : Fighter) (ts : list FighterState) :
  defenderResult a d d' ts -> attackInv a ->
  health d - 7 <= health d' /\
  (attackType a <> KICK -> health d - 5 <= health d').
Proof.
  intros [[E _]|[[_ [_ [E _]]]|[Ha [E _]]]] [H1 H2]; subst d'.
  - split; [|intros _]; lra.
  - unfold chip, chipDamage. simpl.
    pose proof (Q.le_max_r 0 (health d - 2)) as L. split; [|intros _]; lra.
  - simpl. rewrite (H1 Ha). specialize (H2 (or_introl Ha)).
    destruct (attackType a); [| |congruence].
    + pose proof (Q.le_max_r 0 (health d - baseDamage PUNCH 0)) as L.
      change (baseDamage PUNCH 0) with 5 in *. split; [|intros _]; lra.
    + pose proof (Q.le_max_r 0 (health d - baseDamage KICK 0)) as L.
      change (baseDamage KICK 0) with 7 in *. split; [lra | congruence].
Qed.

Lemma getInput_kick (ai : AIController) (me opponent : Fighter)
      (random : nat -> Q) (k : nat) :
  Input.kickHeld (fst (getInput ai me opponent random k)) = false.
Proof. unfold getInput. destruct_ifs; reflexivity. Qed.

Section GameWithAI.

Variable checkCollision : Fighter -> Fighter -> bool.
Variable resolvePushCollision : Fighter -> Fighter -> Fighter * Fighter.
Variable ai : AIController.
Variable random : nat -> Q.

Hypothesis Hresolve : writesPositionsOnly checkCollision resolvePushCollision.

Lemma collide_as_push (m : Match) :
  collide checkCollision resolvePushCollision m = m \/
  exists xp xc, collide checkCollision resolvePushCollision m
                = applyStep (StPush xp xc) m.
Proof.
  unfold collide. destruct (checkCollision (player m) (cpu m)) eqn:E; [|now left].
  right. destruct (Hresolve _ _ E) as [Hp Hc].
  destruct (resolvePushCollision (player m) (cpu m)) as [p c]. cbn [fst snd] in *.
  exists (x p), (x c). simpl. now rewrite <- Hp, <- Hc.
Qed.

Lemma simulate_gameInv (nowP0 nowC0 dt : Q) (pin cin : Input.t) (m : Match) :
  gameInv m -> Input.kickHeld cin = false ->
  let m' := simulate checkCollision resolvePushCollision nowP0 nowC0 dt pin cin m in
  gameInv m' /\
  health (player m) - 5 <= health (player m') /\
  health (cpu m) - 7 <= health (cpu m').
Proof.
  intros [I [K [Hp Hc]]] Hk. cbv zeta. unfold simulate.
  (* player.update *)
  set (m1 := updatePlayer nowP0 dt pin m).
  assert (I1 : matchInv m1)
    by exact (applyStep_matchInv (StEvent (EvUpdatePlayer nowP0 dt pin)) m I).
  assert (E1 : health (player m1) = health (player m) /\ cpu m1 = cpu m).
  { unfold m1, updatePlayer.
    pose proof (update_health nowP0 dt pin (player m)) as E.
    destruct (update nowP0 dt pin (player m)). simpl in *. now split. }
  destruct E1 as [E1p E1c].
  (* cpu.update *)
  set (m2 := updateCpu nowC0 dt cin m1).
  assert (I2 : matchInv m2)
    by exact (applyStep_matchInv (StEvent (EvUpdateCpu nowC0 dt cin)) m1 I1).
  assert (E2 : player m2 = player m1 /\ health (cpu m2) = health (cpu m1) /\
               attackType (cpu m2) <> KICK).
  { unfold m2, updateCpu.
    pose proof (update_health nowC0 dt cin (cpu m1)) as E.
    pose proof (update_nokick nowC0 dt cin (cpu m1)) as N.
    rewrite E1c in N. specialize (N K Hk). rewrite <- E1c in N.
    destruct (update nowC0 dt cin (cpu m1)). simpl in *. now repeat split. }
  destruct E2 as [E2p [E2c K2]].
  (* collision *)
  set (m3 := collide checkCollision resolvePushCollision m2).
  assert (I3 : matchInv m3 /\ health (player m3) = health (player m2) /\
               health (cpu m3) = health (cpu m2) /\ attackType (cpu m3) <> KICK).
  { unfold m3. destruct (collide_as_push m2) as [E|[xp [xc E]]]; rewrite E.
    - split; [exact I2|]. split; [reflexivity|]. split; [reflexivity | exact K2].
    - split; [now apply applyStep_matchInv|]. simpl.
      split; [reflexivity|]. split; [reflexivity | exact K2]. }
  destruct I3 as [I3 [E3p [E3c K3]]].
  (* hit detection, player first *)
  unfold checkHits. set (m4 := hitByPlayer m3).
  assert (I4 : matchInv m4)
    by exact (applyStep_matchInv (StEvent EvHitByPlayer) m3 I3).
  destruct (hitByPlayer_results m3) as [ts [Ra [Rd _]]]. fold m4 in Ra, Rd.
  pose proof (attackerResult_health _ _ Ra) as E4p.
  destruct I3 as [A3p [A3c _]].
  destruct (defenderResult_health_bound _ _ _ _ Rd A3p) as [B4 _].
  assert (H4c : 0 <= health (cpu m4)).
  { apply (defenderResult_health _ _ _ _ Rd). rewrite E3c, E2c, E1c. exact Hc. }
  assert (K4 : attackType (cpu m4) <> KICK).
  { destruct Rd as [[E _]|[[_ [_ [E _]]]|[_ [E _]]]]; rewrite E; exact K3. }
  (* then the cpu *)
  set (m5 := hitByCpu m4).
  assert (I5 : matchInv m5)
    by exact (applyStep_matchInv (StEvent EvHitByCpu) m4 I4).
  destruct (hitByCpu_results m4) as [ts' [Ra' [Rd' _]]]. fold m5 in Ra', Rd'.
  pose proof (attackerResult_health _ _ Ra') as E5c.
  destruct I4 as [A4p [A4c _]].
  destruct (defenderResult_health_bound _ _ _ _ Rd' A4c) as [_ B5].
  specialize (B5 K4).
  assert (H5p : 0 <= health (player m5)).
  { apply (defenderResult_health _ _ _ _ Rd'). rewrite E4p, E3p, E2p, E1p. exact Hp. }
  assert (K5 : attackType (cpu m5) <> KICK).
  { destruct Ra' as [E|[_ E]]; rewrite E; [exact K4 | simpl; discriminate]. }
  split; [|split].
  - unfold gameInv. split; [exact I5|]. split; [exact K5|]. split; [exact H5p|].
    rewrite E5c. exact H4c.
  - rewrite E4p, E3p, E2p, E1p in B5. exact B5.
  - rewrite E5c. rewrite E3c, E2c, E1c in B4. exact B4.
Qed.

Lemma fireAll_gameInv (ts : list TimerFiring) :
  forall m, gameInv m ->
    gameInv (fireAll ts m) /\
    health (player (fireAll ts m)) = health (player m) /\
    health (cpu (fireAll ts m)) = health (cpu m).
Proof.
  induction ts as [|t ts IH]; intros m I; [split; [exact I | split; reflexivity]|].
  change (fireAll (t :: ts) m) with (fireAll ts (fire t m)).
  assert (S1 : gameInv (fire t m) /\
               health (player (fire t m)) = health (player m) /\
               health (cpu (fire t m)) = health (cpu m)).
  { destruct I as [I [K [Hp Hc]]]. destruct t as [n|n]; cbn [fire].
    - pose proof (applyStep_matchInv (StEvent (EvPlayerTimer n)) m I) as I1.
      cbn [applyStep applyEvent] in I1. unfold firePlayerTimer in *.
      destruct (nth_error (playerTimers m) n); cbn [player cpu] in *.
      + split; [|split; [apply fireTimeout_health | reflexivity]].
        unfold gameInv. cbn [player cpu]. rewrite fireTimeout_health.
        split; [exact I1|]. split; [exact K|]. split; [exact Hp | exact Hc].
      + split; [|split; reflexivity].
        unfold gameInv. split; [exact I1|]. split; [exact K|].
        split; [exact Hp | exact Hc].
    - pose proof (applyStep_matchInv (StEvent (EvCpuTimer n)) m I) as I1.
      cbn [applyStep applyEvent] in I1. unfold fireCpuTimer in *.
      destruct (nth_error (cpuTimers m) n); cbn [player cpu] in *.
      + split; [|split; [reflexivity | apply fireTimeout_health]].
        unfold gameInv. cbn [player cpu]. rewrite fireTimeout_health.
        split; [exact I1|]. split; [|split; [exact Hp | exact Hc]].
        unfold fireTimeout.
        destruct (FighterState_eqb (state (cpu m)) f); exact K.
      + split; [|split; reflexivity].
        unfold gameInv. split; [exact I1|]. split; [exact K|].
        split; [exact Hp | exact Hc]. }
  destruct S1 as [I1 [E1 E2]].
  destruct (IH (fire t m) I1) as [I2 [E3 E4]].
  split; [exact I2|]. split; congruence.
Qed.

Lemma runGame_bounds (frames : list Frame) :
  forall (k : nat) (m : Match),
    gameInv m -> 0 < health (player m) -> 0 < health (cpu m) ->
    let r := runGame checkCollision resolvePushCollision ai random frames k m in
    let n := inject_Z (Z.of_nat (List.length frames)) in
    gameInv (fst r) /\
    health (player m) - 5 * n <= health (player (fst r)) /\
    health (cpu m) - 7 * n <= health (cpu (fst r)) /\
    (snd r = HandleWin -> health (cpu (fst r)) == 0) /\
    (snd r = HandleLoss ->
     health (player (fst r)) == 0 /\ 0 < health (cpu (fst r))) /\
    (snd r = NoOutcome ->
     0 < health (player (fst r)) /\ 0 < health (cpu (fst r))).
Proof.
  induction frames as [|fr frames IH]; intros k m I Hp Hc; cbv zeta.
  - cbn [runGame fst snd List.length]. change (inject_Z (Z.of_nat 0)) with 0.
    split; [exact I|]. split; [lra|]. split; [lra|].
    split; [discriminate|]. split; [discriminate|]. intros _. now split.
  - cbn [runGame].
    destruct (fireAll_gameInv (frameTimers fr) m I) as [It [Etp Etc]].
    set (mt := fireAll (frameTimers fr) m) in *.
    rewrite <- Etp in Hp. rewrite <- Etc in Hc. rewrite <- Etp, <- Etc.
    clearbody mt. clear I Etp Etc m. rename mt into m. rename It into I.
    cbv zeta. unfold fmUpdateAI.
    pose proof (getInput_kick ai (cpu m) (player m) random k) as Hk.
    destruct (getInput ai (cpu m) (player m) random k) as [cin k'].
    cbn [fst] in Hk. unfold fmUpdate.
    destruct (simulate_gameInv (frameNowP fr) (frameNowC fr) (frameDt fr)
                (framePlayerInput fr) cin m I Hk) as [I' [Bp Bc]].
    set (m' := simulate checkCollision resolvePushCollision (frameNowP fr)
                        (frameNowC fr) (frameDt fr) (framePlayerInput fr) cin m)
      in *.
    cbn [List.length]. rewrite inject_succ.
    set (n := inject_Z (Z.of_nat (List.length frames))).
    assert (Hn : 0 <= n) by apply inject_nat_nonneg.
    destruct I' as [Im [K' [Hp' Hc']]].
    unfold winCondition.
    destruct (Qle_bool (health (cpu m')) 0) eqn:Ec.
    + apply Qle_bool_iff in Ec. cbn [fst snd].
      split; [unfold gameInv; auto|]. split; [lra|]. split; [lra|].
      split; [intros _; lra|]. split; discriminate.
    + assert (Hc2 : 0 < health (cpu m')).
      { apply Qnot_le_lt. intros L. apply Qle_bool_iff in L. congruence. }
      destruct (Qle_bool (health (player m')) 0) eqn:Ep.
      * apply Qle_bool_iff in Ep. cbn [fst snd].
        split; [unfold gameInv; auto|]. split; [lra|]. split; [lra|].
        split; [discriminate|]. split; [intros _; split; lra | discriminate].
      * assert (Hp2 : 0 < health (player m')).
        { apply Qnot_le_lt. intros L. apply Qle_bool_iff in L. congruence. }
        assert (I2 : gameInv m') by (unfold gameInv; auto).
        destruct (IH k' m' I2 Hp2 Hc2) as [J [Bp2 [Bc2 O]]].
        fold n in Bp2, Bc2.
        split; [exact J|]. split; [lra|]. split; [lra | exact O].
Qed.

End GameWithAI.

Lemma newMatch_gameInv : gameInv newMatch.
Proof.
  unfold gameInv. split; [exact newMatch_matchInv|].
  split; [discriminate|]. split; vm_compute; discriminate.
Qed.

Lemma collisionSpec_writesPositionsOnly :
  writesPositionsOnly checkCollisionSpec resolvePushCollisionSpec.
Proof.
  intros a b H.
  destruct (resolvePushCollisionSpec_positions_only a b H) as [H1 [H2 _]].
  now split.
Qed.

(** A game against the AI. Before each frame the host fires any of the
    pending timers; then [FightManager.update] runs, with the cpu's input
    drawn from [getInput]; and so on until handleWin or handleLoss is
    invoked. Provided the push-apart correction writes positions only: the
    cpu never has a kick under way; after n frames the player has lost at
    most 5 n health and the cpu at most 7 n; the loop ends with handleWin
    exactly at a cpu health of 0, with handleLoss at a player health of 0
    with the cpu still above 0, and as long as neither is invoked both
    healths are above 0. *)
Theorem ai_game_bounds
        (checkCollision : Fighter -> Fighter -> bool)
        (resolvePushCollision : Fighter -> Fighter -> Fighter * Fighter)
        (ai : AIController) (random : nat -> Q) (frames : list Frame) (k : nat) :
  writesPositionsOnly checkCollision resolvePushCollision ->
  let r := runGame checkCollision resolvePushCollision ai random frames k newMatch in
  let n := inject_Z (Z.of_nat (List.length frames)) in
  attackType (cpu (fst r)) <> KICK /\
  100 - 5 * n <= health (player (fst r)) /\
  100 - 7 * n <= health (cpu (fst r)) /\
  (snd r = HandleWin -> health (cpu (fst r)) == 0) /\
  (snd r = HandleLoss ->
   health (player (fst r)) == 0 /\ 0 < health (cpu (fst r))) /\
  (snd r = NoOutcome ->
   0 < health (player (fst r)) /\ 0 < health (cpu (fst r))).
Proof.
  intros Hres r n.
  assert (Hp : 0 < health (player newMatch)) by (vm_compute; reflexivity).
  assert (Hc : 0 < health (cpu newMatch)) by (vm_compute; reflexivity).
  destruct (runGame_bounds checkCollision resolvePushCollision ai random Hres
              frames k newMatch newMatch_gameInv Hp Hc)
    as [[_ [K _]] [Bp [Bc O]]].
  fold r in K, Bp, Bc, O. fold n in Bp, Bc.
  split; [exact K|]. split; [exact Bp|]. split; [exact Bc | exact O].
Qed.

Lemma ai_game_bounds_witness :
  let frames := [mkFrame [] 0 0 1 (Input.mk 1 0 false false);
                 mkFrame [] 2000 2000 dt60 holdKick;
                 mkFrame [] 2016 2016 dt60 neutral;
                 mkFrame [FireCpu 0; FirePlayer 0] 2320 2320 dt60 neutral] in
  let r := runGame checkCollisionSpec resolvePushCollisionSpec
                   (newAIController 1) (fun _ => 1 # 2) frames 0 newMatch in
  100 - 7 * 4 <= health (cpu (fst r)) /\ health (cpu (fst r)) == 93 /\
  health (player (fst r)) == 100 /\ snd r = NoOutcome /\
  state (cpu (fst r)) = IDLE /\
  playerTimers (fst r) = [] /\ cpuTimers (fst r) = [].
Proof.
  intros frames r.
  destruct (ai_game_bounds checkCollisionSpec resolvePushCollisionSpec
              (newAIController 1) (fun _ => 1 # 2) frames 0
              collisionSpec_writesPositionsOnly) as [_ [_ [Bc _]]].
  split; [exact Bc|]. repeat split; vm_compute; reflexivity.
Defined.

(** ** The store *)

Module GameStoreFacts.

Import stdpp.base stdpp.gmap.
Import GameStore.

Lemma scoreOf_setHighScore (level : Z) (score : Q) (s : GameState) :
  scoreOf (setHighScore level score s) level = Qmax (scoreOf s level) score.
Proof.
  unfold scoreOf at 1. unfold setHighScore. cbn [highScores].
  now rewrite lookup_insert_eq.
Qed.

Lemma scoreOf_setHighScore_ne (level level' : Z) (score : Q) (s : GameState) :
  level' <> level ->
  scoreOf (setHighScore level score s) level' = scoreOf s level'.
Proof.
  intros H. unfold scoreOf, setHighScore. cbn [highScores].
  rewrite lookup_insert_ne by congruence. reflexivity.
Qed.

(** The best score of a level is kept. [setHighScore(level, score)] leaves
    at [level] the larger of the score recorded so far (0 when there is
    none) and the new score, so the recorded score never goes down; the
    other levels, [unlockedLevels] and [currentLevel] are untouched.
    Recording two scores gives the same best in either order, and recording
    a score twice is the same as recording it once. *)
Theorem setHighScore_keeps_best (level : Z) (a b : Q) (s : GameState) :
  let s' := setHighScore level a s in
  (scoreOf s' level == Qmax (scoreOf s level) a)%Q /\
  (scoreOf s level <= scoreOf s' level)%Q /\ (a <= scoreOf s' level)%Q /\
  (forall level', level' <> level ->
     highScores s' !! level' = highScores s !! level') /\
  unlockedLevels s' = unlockedLevels s /\ currentLevel s' = currentLevel s /\
  (scoreOf (setHighScore level b s') level
   == scoreOf (setHighScore level a (setHighScore level b s)) level)%Q /\
  (scoreOf (setHighScore level a s') level == scoreOf s' level)%Q.
Proof.
  cbv zeta. rewrite !scoreOf_setHighScore.
  split; [reflexivity|]. split; [apply Q.le_max_l|]. split; [apply Q.le_max_r|].
  split.
  { intros level' H. unfold setHighScore. cbn [highScores].
    rewrite lookup_insert_ne by congruence. reflexivity. }
  split; [reflexivity|]. split; [reflexivity|]. split.
  - rewrite <- !Q.max_assoc. rewrite (Q.max_comm a b). reflexivity.
  - rewrite <- Q.max_assoc. rewrite Q.max_id. reflexivity.
Qed.

Lemma setHighScore_keeps_best_witness :
  let s := setHighScore 1 8000%Q (setHighScore 2 3000%Q initialState) in
  (scoreOf (setHighScore 1 6500%Q s) 1 == 8000)%Q /\
  highScores (setHighScore 1 6500%Q s) !! 2%Z = highScores s !! 2%Z.
Proof.
  intros s.
  destruct (setHighScore_keeps_best 1 6500%Q 6500%Q s) as [E [_ [_ [O _]]]].
  split.
  - rewrite E. vm_compute. reflexivity.
  - apply O. lia.
Defined.

Lemma applyAction_progress (a : Action) (s : GameState) :
  isReset a = false ->
  (unlockedLevels s <= unlockedLevels (applyAction a s))%Z /\
  forall level, (scoreOf s level <= scoreOf (applyAction a s) level)%Q.
Proof.
  destruct a as [l|l sc|l|]; intros H; try discriminate; simpl.
  - split; [lia | intros; apply Qle_refl].
  - split; [lia|]. intros level. destruct (decide (level = l)) as [->|Hne].
    + rewrite scoreOf_setHighScore. apply Q.le_max_l.
    + rewrite scoreOf_setHighScore_ne by exact Hne. apply Qle_refl.
  - split; [lia | intros; apply Qle_refl].
Qed.

(** Progress is only lost by a reset. Through any sequence of store actions
    without [resetProgress], [unlockedLevels] never goes down and no
    recorded best score goes down. *)
Theorem store_never_loses_progress (acts : list Action) :
  forall s : GameState,
    forallb (fun a => negb (isReset a)) acts = true ->
    (unlockedLevels s <= unlockedLevels (runActions acts s))%Z /\
    forall level, (scoreOf s level <= scoreOf (runActions acts s) level)%Q.
Proof.
  induction acts as [|a acts IH]; intros s Hall.
  - simpl. split; [lia | intros; apply Qle_refl].
  - simpl in Hall. apply andb_true_iff in Hall as [Ha Hall].
    apply negb_true_iff in Ha.
    destruct (applyAction_progress a s Ha) as [U S].
    destruct (IH (applyAction a s) Hall) as [U' S'].
    change (runActions (a :: acts) s) with (runActions acts (applyAction a s)).
    split; [lia|]. intros level. eapply Qle_trans; [apply S | apply S'].
Qed.

Lemma store_never_loses_progress_witness :
  let s := runActions [UnlockLevel 3; SetHighScore 1 5000%Q; UnlockLevel 2;
                       SetHighScore 1 1200%Q; SetCurrentLevel 2] initialState in
  unlockedLevels s = 3%Z /\ (scoreOf s 1 == 5000)%Q /\
  (unlockedLevels initialState <= unlockedLevels s)%Z.
Proof.
  intros s.
  destruct (store_never_loses_progress
              [UnlockLevel 3; SetHighScore 1 5000%Q; UnlockLevel 2;
               SetHighScore 1 1200%Q; SetCurrentLevel 2] initialState eq_refl)
    as [U _].
  split; [reflexivity|]. split; [vm_compute; reflexivity | exact U].
Defined.

Lemma wins_nonneg (rs : list MatchResult) : (0 <= wins rs)%Z.
Proof. induction rs as [|[h|] rs IH]; simpl; lia. Qed.

Lemma campaign_from (rs : list MatchResult) :
  forall s : GameState,
    (1 <= currentLevel s <= 5)%Z ->
    (unlockedLevels s = currentLevel s
     \/ (unlockedLevels s = 6 /\ currentLevel s = 5))%Z ->
    (forall level, is_Some (highScores s !! level) ->
                   (1 <= level <= currentLevel s)%Z) ->
    let s' := campaign rs s in
    currentLevel s' = Z.min (currentLevel s + wins rs) 5 /\
    unlockedLevels s' = (if (wins rs =? 0)%Z then unlockedLevels s
                         else Z.min (currentLevel s + wins rs) 6) /\
    (forall level, is_Some (highScores s' !! level) ->
                   (1 <= level <= currentLevel s')%Z).
Proof.
  induction rs as [|[h|] rs IH]; intros s Hc Hu Hs; cbv zeta.
  - unfold campaign. cbn [fold_left wins].
    split; [lia|]. split; [reflexivity | exact Hs].
  - change (campaign (Won h :: rs) s) with (campaign rs (afterMatch (Won h) s)).
    pose proof (wins_nonneg rs) as Hw.
    set (s1 := afterMatch (Won h) s).
    assert (E1 : currentLevel s1 = Z.min (currentLevel s + 1) 5 /\
                 unlockedLevels s1 = Z.min (currentLevel s + 1) 6 /\
                 highScores s1
                 = <[currentLevel s :=
                       Qmax (default 0%Q (highScores s !! currentLevel s))
                            (h * 100)%Q]> (highScores s)).
    { unfold s1, afterMatch, handleWin, winTimeout.
      destruct (currentLevel s + 1 <=? 5)%Z eqn:E;
        [apply Z.leb_le in E | apply Z.leb_gt in E]; cbn; repeat split; lia. }
    destruct E1 as [E1c [E1u E1h]].
    destruct (IH s1) as [Ic [Iu Is]].
    + lia.
    + lia.
    + intros level Hl. rewrite E1h in Hl.
      destruct (decide (level = currentLevel s)) as [->|Hne]; [lia|].
      rewrite lookup_insert_ne in Hl by congruence. specialize (Hs level Hl). lia.
    + cbn [wins]. split; [rewrite Ic, E1c; lia|]. split; [|exact Is].
      rewrite Iu, E1c, E1u.
      destruct (wins rs =? 0)%Z eqn:E0; [apply Z.eqb_eq in E0|apply Z.eqb_neq in E0];
        destruct (1 + wins rs =? 0)%Z eqn:E1;
        try apply Z.eqb_eq in E1; try apply Z.eqb_neq in E1; lia.
  - change (campaign (Lost :: rs) s) with (campaign rs s). cbn [wins].
    now apply IH.
Qed.

(** A player's progress through the levels. Starting from the initial store,
    after any sequence of matches and their handlers: the current level is
    min(1 + wins, 5), so it stays within 1..5, and a lost match changes
    nothing; [unlockedLevels] is 1 before the first win and min(1 + wins, 6)
    after it, so winning level 5 marks a sixth level unlocked while the
    current level stays 5; and scores are recorded only for levels between
    1 and the current one. *)
Theorem campaign_levels (rs : list MatchResult) :
  let s := campaign rs initialState in
  currentLevel s = Z.min (1 + wins rs) 5 /\
  unlockedLevels s = (if (wins rs =? 0)%Z then 1%Z else Z.min (1 + wins rs) 6) /\
  (1 <= currentLevel s <= 5)%Z /\
  (currentLevel s <= unlockedLevels s <= currentLevel s + 1)%Z /\
  (forall level, is_Some (highScores s !! level) ->
                 (1 <= level <= currentLevel s)%Z).
Proof.
  pose proof (wins_nonneg rs) as Hw.
  destruct (campaign_from rs initialState) as [Hc [Hu Hs]].
  - simpl. lia.
  - left. reflexivity.
  - intros level [v Hv]. simpl in Hv. rewrite lookup_empty in Hv. discriminate.
  - cbv zeta. simpl in Hc, Hu. rewrite Hc, Hu.
    split; [reflexivity|]. split; [reflexivity|]. split; [lia|].
    split; [|rewrite <- Hc; exact Hs].
    destruct (wins rs =? 0)%Z eqn:E0;
      [apply Z.eqb_eq in E0|apply Z.eqb_neq in E0]; lia.
Qed.

Lemma campaign_levels_witness :
  let s := campaign [Won 80%Q; Lost; Won 100%Q; Won 55%Q; Won 100%Q; Lost;
                     Won 100%Q; Won 30%Q] initialState in
  currentLevel s = 5%Z /\ unlockedLevels s = 6%Z /\
  forall level, is_Some (highScores s !! level) -> (1 <= level <= 5)%Z.
Proof.
  intros s.
  destruct (campaign_levels [Won 80%Q; Lost; Won 100%Q; Won 55%Q; Won 100%Q;
                             Lost; Won 100%Q; Won 30%Q])
    as [Hc [Hu [_ [_ Hs]]]].
  split; [exact Hc|]. split; [exact Hu|].
  intros level Hl. specialize (Hs level Hl). fold s in Hs.
  replace (currentLevel s) with 5%Z in Hs by (symmetry; exact Hc). exact Hs.
Defined.

End GameStoreFacts.

(** ** Masking, and the /diag response *)

Section MaskValueSecrecy.

Local Open Scope string_scope.
Local Open Scope nat_scope.

Lemma get_beyond (s : string) :
  forall i, String.length s <= i -> get i s = None.
Proof.
  induction s as [|c s IH]; intros i Hi; simpl in *.
  - reflexivity.
  - destruct i as [|i]; [lia | apply IH; lia].
Qed.

Lemma MaskValue_long_eq (v : string) :
  6 < String.length v -> MaskValue (Some v) = Some (masked v).
Proof.
  intros H. unfold MaskValue, IsNullOrEmpty, lengthAtMost6.
  destruct (String.length v =? 0) eqn:E0; [apply Nat.eqb_eq in E0; lia|].
  destruct (String.length v <=? 6) eqn:E6; [apply Nat.leb_le in E6; lia|].
  cbn [orb]. unfold masked. reflexivity.
Qed.

Lemma MaskValue_short_eq (v : string) :
  String.length v <= 6 -> MaskValue (Some v) = Some "***".
Proof.
  intros H. unfold MaskValue, IsNullOrEmpty, lengthAtMost6.
  apply Nat.leb_le in H. rewrite H. rewrite orb_true_r. reflexivity.
Qed.

Lemma masked_ext (v w : string) :
  6 < String.length v ->
  String.length v = String.length w ->
  (forall i, i < 3 \/ String.length v - 3 <= i -> get i v = get i w) ->
  masked v = masked w.
Proof.
  intros Hv Hlen Hget.
  destruct (masked_get v Hv) as [Lv [Av [Bv Cv]]].
  destruct (masked_get w ltac:(lia)) as [Lw [Aw [Bw Cw]]].
  apply get_correct. intros i.
  destruct (Nat.lt_ge_cases i 3) as [H3|H3].
  { rewrite Av, Aw by exact H3. apply Hget. now left. }
  destruct (Nat.lt_ge_cases i (String.length v - 3)) as [Hm|Hm].
  { rewrite Bv by lia. rewrite Bw by lia. reflexivity. }
  destruct (Nat.lt_ge_cases i (String.length v)) as [Hn|Hn].
  { rewrite Cv by lia. rewrite Cw by lia. apply Hget. now right. }
  rewrite !get_beyond by lia. reflexivity.
Qed.

Lemma MaskValue_twice (value : option string) :
  MaskValue (MaskValue value) = MaskValue value.
Proof.
  destruct value as [v|]; [|reflexivity].
  destruct (Nat.lt_ge_cases 6 (String.length v)) as [H|H].
  - rewrite (MaskValue_long_eq v H).
    destruct (masked_get v H) as [L [A [B C]]].
    rewrite MaskValue_long_eq by lia. f_equal.
    apply masked_ext; [lia | exact L |].
    intros i [Hi|Hi]; [apply A; exact Hi|].
    destruct (Nat.lt_ge_cases i (String.length v)) as [Hn|Hn].
    + apply C. lia.
    + rewrite !get_beyond by lia. reflexivity.
  - rewrite (MaskValue_short_eq v H). reflexivity.
Qed.

(** Masking a masked value changes nothing: [MaskValue] is idempotent, on
    null, on short values (which become the three stars) and on long ones;
    and a masked value is never empty, so null is told apart from a
    configured value. *)
Theorem MaskValue_idempotent (value : option string) :
  MaskValue (MaskValue value) = MaskValue value /\
  (MaskValue value = None <-> value = None) /\
  (forall m, MaskValue value = Some m -> 3 <= String.length m).
Proof.
  split; [apply MaskValue_twice|]. split.
  - destruct value as [v|]; [|split; reflexivity].
    destruct (Nat.lt_ge_cases 6 (String.length v)) as [H|H].
    + rewrite (MaskValue_long_eq v H). split; discriminate.
    + rewrite (MaskValue_short_eq v H). split; discriminate.
  - intros m Hm. destruct value as [v|]; [|discriminate].
    destruct (Nat.lt_ge_cases 6 (String.length v)) as [H|H].
    + rewrite (MaskValue_long_eq v H) in Hm. injection Hm as <-.
      destruct (masked_get v H) as [L _]. lia.
    + rewrite (MaskValue_short_eq v H) in Hm. injection Hm as <-. simpl. lia.
Qed.

Lemma MaskValue_idempotent_witness :
  MaskValue (MaskValue (Some "key-hunter2-end")) = Some "key*********end" /\
  3 <= String.length "key*********end".
Proof.
  destruct (MaskValue_idempotent (Some "key-hunter2-end")) as [E [_ L]].
  split; [rewrite E; reflexivity | apply L; reflexivity].
Defined.

(** The masked value depends only on the length of the value and on its
    first three and last three characters: two values of the same length
    that agree there have the same mask, whatever the characters in between
    are. *)
Theorem MaskValue_hides_middle (v w : string) :
  String.length v = String.length w ->
  (forall i, i < 3 \/ String.length v - 3 <= i -> get i v = get i w) ->
  MaskValue (Some v) = MaskValue (Some w).
Proof.
  intros Hlen Hget.
  destruct (Nat.lt_ge_cases 6 (String.length v)) as [H|H].
  - rewrite (MaskValue_long_eq v H), MaskValue_long_eq by lia.
    f_equal. now apply masked_ext.
  - rewrite (MaskValue_short_eq v H), MaskValue_short_eq by lia. reflexivity.
Qed.

Lemma MaskValue_hides_middle_witness :
  MaskValue (Some "key-hunter2-end") = MaskValue (Some "key-swordfi-end")
  /\ MaskValue (Some "key-hunter2-end") = Some "key*********end".
Proof.
  split; [|reflexivity].
  apply (MaskValue_hides_middle "key-hunter2-end" "key-swordfi-end").
  - reflexivity.
  - intros i Hi.
    do 15 (destruct i as [|i];
           [first [reflexivity | exfalso; simpl in Hi; lia]|]).
    reflexivity.
Defined.

End MaskValueSecrecy.

Module DiagEndpointFacts.

Import stdpp.base stdpp.gmap stdpp.strings.
Import DiagEndpoint.

Lemma diagFrom_lookup (config : list (string * option string)) :
  forall entries key v,
    diagFrom config entries !! key = Some v ->
    entries !! key = Some v
    \/ exists raw, List.In (key, raw) config /\ v = MaskValue raw.
Proof.
  induction config as [|[k raw] config IH]; intros entries key v H.
  - left. exact H.
  - cbn [diagFrom fold_left fst snd] in H.
    destruct (IH _ _ _ H) as [Hl|[raw' [Hin ->]]].
    + destruct (decide (key = k)) as [->|Hne].
      * rewrite lookup_insert_eq in Hl. injection Hl as <-.
        right. exists raw. split; [now left | reflexivity].
      * rewrite lookup_insert_ne in Hl by congruence. left. exact Hl.
    + right. exists raw'. split; [now right | reflexivity].
Qed.

Lemma diagFrom_keeps (config : list (string * option string)) :
  forall entries key,
    is_Some (entries !! key) -> is_Some (diagFrom config entries !! key).
Proof.
  induction config as [|[k raw] config IH]; intros entries key H.
  - exact H.
  - cbn [diagFrom fold_left fst snd]. apply IH.
    destruct (decide (key = k)) as [->|Hne].
    + rewrite lookup_insert_eq. eexists. reflexivity.
    + rewrite lookup_insert_ne by congruence. exact H.
Qed.

Lemma diagFrom_present (config : list (string * option string)) :
  forall entries key raw,
    List.In (key, raw) config -> is_Some (diagFrom config entries !! key).
Proof.
  induction config as [|[k r] config IH]; intros entries key raw Hin.
  - destruct Hin.
  - cbn [diagFrom fold_left fst snd]. destruct Hin as [E|Hin].
    + injection E as -> ->. apply diagFrom_keeps.
      rewrite lookup_insert_eq. eexists. reflexivity.
    + eapply IH. exact Hin.
Qed.

Lemma diag_app (c1 c2 : list (string * option string)) :
  diag (c1 ++ c2) = diagFrom c2 (diag c1).
Proof. unfold diag, diagFrom. apply fold_left_app. Qed.

(** The response of [/diag] holds masked values only. Every entry of the
    response is [MaskValue] of a value the configuration has for that key,
    so no value leaves unmasked; every configured key has an entry; and for
    a key configured more than once the last value is the one shown. *)
Theorem diag_masks_every_value (config : list (string * option string)) :
  (forall key v, diag config !! key = Some v ->
     exists raw, List.In (key, raw) config /\ v = MaskValue raw) /\
  (forall key raw, List.In (key, raw) config -> is_Some (diag config !! key)) /\
  (forall key raw, diag (config ++ [(key, raw)]) !! key = Some (MaskValue raw)) /\
  (forall key v, diag config !! key = Some v -> MaskValue v = v).
Proof.
  assert (H1 : forall key v, diag config !! key = Some v ->
               exists raw, List.In (key, raw) config /\ v = MaskValue raw).
  { intros key v H. destruct (diagFrom_lookup config ∅ key v H) as [He|He].
    - rewrite lookup_empty in He. discriminate.
    - exact He. }
  split; [exact H1|]. split; [|split].
  - intros key raw Hin. exact (diagFrom_present config ∅ key raw Hin).
  - intros key raw. rewrite diag_app. cbn [diagFrom fold_left fst snd].
    apply lookup_insert_eq.
  - intros key v H. destruct (H1 key v H) as [raw [_ ->]].
    apply MaskValue_twice.
Qed.

Lemma diag_masks_every_value_witness :
  let config := [("ConnectionStrings:Db"%string, Some "Server=tcp:db;Pwd=hunter2"%string);
                 ("Logging:Level"%string, Some "Info"%string);
                 ("Missing"%string, None)] in
  diag config !! "ConnectionStrings:Db"%string
  = Some (Some "Ser*******************er2"%string) /\
  exists raw, List.In ("ConnectionStrings:Db"%string, raw) config /\
              Some "Ser*******************er2"%string = MaskValue raw.
Proof.
  intros config.
  assert (H : diag config !! "ConnectionStrings:Db"%string
              = Some (Some "Ser*******************er2"%string))
    by (vm_compute; reflexivity).
  split; [exact H|].
  exact (proj1 (diag_masks_every_value config) _ _ H).
Defined.

End DiagEndpointFacts.
